(** * Reuse-distance trackers of [reuse_distance.H]

    A shallow embedding of the two trackers of the header
    [pinkit/sde-example/include/reuse_distance.H]:

    - [RD_Treap], the exact tracker: a binary tree of heap-allocated nodes
      with [_parent], [_left], [_right] pointers and a [_count] field,
      restructured in place by [stealChild], [insertAtRoot] and
      [moveToRoot];
    - [RD_LogRR], the approximate tracker: pools stored back-to-back in
      [entries_list], a position map [entries_map] and one round-robin
      cursor per pool in [replace_position].

    Unsigned machine integers are integers of [Z] whose wrap-around is
    written where the code computes; pointers are keys of a finite map that
    plays the heap; loops and recursions over the heap carry a fuel. *)

From stdpp Require Import gmap list fin_maps.
From Stdlib Require Import ZArith Lia.

Open Scope Z_scope.

(* ===================================================================== *)
(** * Part I: the programs                                                *)
(* ===================================================================== *)

(** ** Machine integers, [lzcount] and [int_log2] *)

Module Bits.

Definition wrap32 (x : Z) : Z := x mod 2 ^ 32.
Definition wrap64 (x : Z) : Z := x mod 2 ^ 64.

(** One halving stage of [lzcount]:
    [y = x >> k; if (y != 0) { n -= k; x = y; }]. *)
Definition stage (k : Z) (nx : Z * Z) : Z * Z :=
  let y := Z.shiftr (snd nx) k in
  if negb (y =? 0) then (wrap32 (fst nx - k), y) else nx.

(** [static UINT32 lzcount(UINT64 v)] *)
Definition lzcount (v : Z) : Z :=
  if v =? 0 then 64
  else
    let nx := stage 2 (stage 4 (stage 8 (stage 16 (stage 32 (64, v))))) in
    let y := Z.shiftr (snd nx) 1 in
    if negb (y =? 0) then wrap32 (fst nx - 2)
    else wrap32 (wrap64 (fst nx - snd nx)).

(** [static UINT32 int_log2(UINT64 v)], with [sizeof(UINT64) = 8]. *)
Definition int_log2 (v : Z) : Z := wrap32 (wrap64 (8 * 8 - 1 - lzcount v)).

(** [INT_MAX] of a 32-bit [int]. *)
Definition INT_MAX : Z := 2147483647.

End Bits.

(** ** [RD_Treap] *)

Module Treap.
Import Bits.

Abbreviation ptr := positive (only parsing).

(** [struct Node]; a null pointer is [None]. *)
Record Node := mkNode {
  _address : Z;
  _parent : option ptr;
  _left : option ptr;
  _right : option ptr;
  _count : Z
}.

Abbreviation heap := (gmap positive Node) (only parsing).

Definition with_parent (v : option ptr) (n : Node) : Node :=
  mkNode (_address n) v (_left n) (_right n) (_count n).
Definition with_left (v : option ptr) (n : Node) : Node :=
  mkNode (_address n) (_parent n) v (_right n) (_count n).
Definition with_right (v : option ptr) (n : Node) : Node :=
  mkNode (_address n) (_parent n) (_left n) v (_count n).
Definition with_count (v : Z) (n : Node) : Node :=
  mkNode (_address n) (_parent n) (_left n) (_right n) v.

(** A store through a pointer; dereferencing a pointer that is not
    allocated has no result. *)
Definition upd (p : ptr) (f : Node → Node) (h : heap) : option heap :=
  n ← h !! p; Some (<[p := f n]> h).

(** [Node(ADDRINT address)] *)
Definition newNode (address : Z) : Node := mkNode address None None None 1.

(** [bool isRightChild() const] *)
Definition isRightChild (this : ptr) (h : heap) : option bool :=
  n ← h !! this;
  match _parent n with
  | None => Some false
  | Some q => pn ← h !! q; Some (bool_decide (_right pn = Some this))
  end.

(** [void setLeft(Node* left)] *)
Definition setLeft (this : ptr) (left : option ptr) (h : heap) : option heap :=
  h1 ← upd this (with_left left) h;
  match left with
  | Some l => upd l (with_parent (Some this)) h1
  | None => Some h1
  end.

(** [void setRight(Node* right)] *)
Definition setRight (this : ptr) (right : option ptr) (h : heap) : option heap :=
  h1 ← upd this (with_right right) h;
  match right with
  | Some r => upd r (with_parent (Some this)) h1
  | None => Some h1
  end.

(** [(_left ? _left->_count : 0)] *)
Definition count_of (h : heap) (o : option ptr) : option Z :=
  match o with
  | None => Some 0
  | Some q => _count <$> h !! q
  end.

(** [void updateCount(bool recurse)]; the fuel bounds the walk up the
    parents. *)
Fixpoint updateCount (fuel : nat) (this : ptr) (recurse : bool) (h : heap)
  : option heap :=
  n ← h !! this;
  cl ← count_of h (_left n);
  cr ← count_of h (_right n);
  let h1 := <[this := with_count (wrap64 (wrap64 (cl + 1) + cr)) n]> h in
  if recurse then
    match _parent n with
    | Some q =>
        match fuel with
        | O => None
        | S f => updateCount f q recurse h1
        end
    | None => Some h1
    end
  else Some h1.

(** [void ASSERTXCount()]: [Some true] when the assertion holds at [this]
    and at every node below it, [Some false] when one of the assertions
    fails and aborts the program; the fuel bounds the descent. *)
Fixpoint ASSERTXCount (fuel : nat) (this : ptr) (h : heap) : option bool :=
  match fuel with
  | O => None
  | S f =>
      n ← h !! this;
      cl ← count_of h (_left n);
      cr ← count_of h (_right n);
      if bool_decide (_count n = wrap64 (wrap64 (cl + 1) + cr)) then
        okl ← match _left n with
              | Some l => ASSERTXCount f l h
              | None => Some true
              end;
        if okl : bool then
          match _right n with
          | Some r => ASSERTXCount f r h
          | None => Some true
          end
        else Some false
      else Some false
  end.

(** [void stealChild(Node* fromNode)]; the fuel bounds the descent along
    left children. *)
Fixpoint stealChild (fuel : nat) (this fromNode : ptr) (h : heap)
  : option heap :=
  fn ← h !! fromNode;
  h3 ← match _right fn with
       | Some r =>
           h1 ← setRight this (Some r) h;
           h2 ← setRight fromNode None h1;
           fn2 ← h2 !! fromNode;
           match _left fn2 with
           | Some l =>
               match fuel with
               | O => None
               | S f => stealChild f fromNode l h2
               end
           | None => Some h2
           end
       | None =>
           h1 ← setRight this (_left fn) h;
           setLeft fromNode None h1
       end;
  h4 ← updateCount 0 fromNode false h3;
  updateCount 0 this false h4.

(** [void insertAtRoot(Node* currentRoot)] *)
Definition insertAtRoot (fuel : nat) (this : ptr) (currentRoot : option ptr)
    (h : heap) : option heap :=
  h1 ← upd this (with_parent None) h;
  h2 ← setLeft this currentRoot h1;
  fromNode ← currentRoot;
  stealChild fuel this fromNode h2.

(** The body of the [while (_parent)] loop of [moveToRoot]. *)
Definition moveToRoot_body (fuel : nat) (this : ptr)
    (currentRoot : option ptr) (h : heap) : option heap :=
  n ← h !! this;
  parent ← _parent n;
  pn ← h !! parent;
  match _left n, _right n with
  | Some lft, Some rgt =>
      let pparent := _parent pn in
      h1 ← (if bool_decide (_left pn = Some this) then
              h1 ← setLeft this (Some parent) h;
              pn1 ← h1 !! parent;
              h2 ← setRight this (_right pn1) h1;
              h3 ← setLeft parent (Some lft) h2;
              setRight parent (Some rgt) h3
            else
              h1 ← setLeft this (Some parent) h;
              setRight parent (Some lft) h1);
      h2 ← match pparent with
           | None => upd this (with_parent None) h1
           | Some pp =>
               ppn ← h1 !! pp;
               if bool_decide (_left ppn = Some parent)
               then setLeft pp (Some this) h1
               else setRight pp (Some this) h1
           end;
      h3 ← updateCount 0 parent false h2;
      updateCount 0 this false h3
  | _, _ =>
      let child := match _left n with Some l => Some l | None => _right n end in
      h1 ← (if bool_decide (_left pn = Some this)
            then setLeft parent child h
            else setRight parent child h);
      h2 ← updateCount fuel parent true h1;
      insertAtRoot fuel this currentRoot h2
  end.

(** [void moveToRoot(Node* currentRoot)]: [iter] bounds the iterations of
    the loop, [fuel] is handed to the calls of the body. *)
Fixpoint moveToRoot_loop (iter fuel : nat) (this : ptr)
    (currentRoot : option ptr) (h : heap) : option heap :=
  n ← h !! this;
  match _parent n with
  | None => Some h
  | Some _ =>
      match iter with
      | O => None
      | S i =>
          h' ← moveToRoot_body fuel this currentRoot h;
          moveToRoot_loop i fuel this currentRoot h'
      end
  end.

Definition moveToRoot (fuel : nat) (this : ptr) (currentRoot : option ptr)
    (h : heap) : option heap :=
  moveToRoot_loop fuel fuel this currentRoot h.

(** [UINT64 sumLeft() const], over the recursive call of
    [computePosition]. *)
Definition sumLeft (computePosition : ptr → heap → option Z)
    (this : ptr) (h : heap) : option Z :=
  pos ← computePosition this h;
  n ← h !! this;
  cl ← count_of h (_left n);
  Some (wrap64 (pos + cl)).

(** [UINT64 computePosition() const]; the fuel bounds the walk up the
    parents. *)
Fixpoint computePosition (fuel : nat) (this : ptr) (h : heap) : option Z :=
  rc ← isRightChild this h;
  n ← h !! this;
  match _parent n with
  | None => Some 1
  | Some q =>
      match fuel with
      | O => None
      | S f =>
          if rc : bool then
            sl ← sumLeft (computePosition f) q h; Some (wrap64 (sl + 1))
          else
            pos ← computePosition f q h; Some (wrap64 (pos + 1))
      end
  end.

(** [class RD_Treap]: the heap of nodes, [_map] and [_root]. *)
Record state := mkState {
  nodes : gmap positive Node;
  _map : gmap Z positive;
  _root : option ptr
}.

(** [RD_Treap() : _root(NULL) {}] *)
Definition init : state := mkState ∅ ∅ None.

(** [UINT32 reference(ADDRINT address)]. [new Node] takes a pointer that
    is not allocated; the fuel of the calls is one more than the number of
    allocated nodes. *)
Definition reference (s : state) (address : Z) : option (state * Z) :=
  let fuel := S (size (nodes s)) in
  match _map s !! address with
  | Some node =>
      dist ← computePosition fuel node (nodes s);
      h' ← moveToRoot fuel node (_root s) (nodes s);
      Some (mkState h' (_map s) (Some node), int_log2 dist)
  | None =>
      let node := fresh (dom (nodes s)) in
      let h1 := <[node := newNode address]> (nodes s) in
      let m1 := <[address := node]> (_map s) in
      let dist := INT_MAX in
      h' ← match _root s with
           | Some r => insertAtRoot fuel node (Some r) h1
           | None => Some h1
           end;
      Some (mkState h' m1 (Some node), int_log2 dist)
  end.

(** The tracker after a history of references, oldest first, and the
    bucket returned by the last of them. *)
Definition step (acc : option (state * Z)) (address : Z) : option (state * Z) :=
  sr ← acc; reference (fst sr) address.

Definition run (history : list Z) : option (state * Z) :=
  foldl step (Some (init, 0)) history.

(** Observations of the heap used to state the properties. *)

(** The addresses met by a preorder traversal from [o]. *)
Fixpoint preorder (fuel : nat) (h : heap) (o : option ptr) : list Z :=
  match fuel, o with
  | S f, Some p =>
      match h !! p with
      | Some n => _address n :: preorder f h (_left n) ++ preorder f h (_right n)
      | None => []
      end
  | _, _ => []
  end.

(** The number of nodes below [o], itself included. *)
Fixpoint subtree_size (fuel : nat) (h : heap) (o : option ptr) : Z :=
  match fuel, o with
  | S f, Some p =>
      match h !! p with
      | Some n => 1 + subtree_size f h (_left n) + subtree_size f h (_right n)
      | None => 0
      end
  | _, _ => 0
  end.

(** The number of parent links from [p] to a node without parent. *)
Fixpoint depth (fuel : nat) (h : heap) (p : ptr) : option nat :=
  n ← h !! p;
  match _parent n with
  | None => Some O
  | Some q =>
      match fuel with
      | O => None
      | S f => S <$> depth f h q
      end
  end.

(** The preorder traversal of the tracker's tree, from [_root]. *)
Definition traversal (s : state) : list Z :=
  preorder (size (nodes s)) (nodes s) (_root s).

(** The assertion of [ASSERTXCount] at a node. *)
Definition count_ok (h : heap) (n : Node) : Prop :=
  ∃ cl cr, count_of h (_left n) = Some cl ∧ count_of h (_right n) = Some cr ∧
           _count n = wrap64 (wrap64 (cl + 1) + cr).

(** The parent pointer of the node at [p] agrees with the child pointers
    of its parent; a node without parent is the root. *)
Definition parent_ok (h : heap) (root : option ptr) (p : ptr) (n : Node)
  : Prop :=
  match _parent n with
  | None => root = Some p
  | Some q => ∃ m, h !! q = Some m ∧ (_left m = Some p ∨ _right m = Some p)
  end.

(** The children of the node at [p] point back to [p]. *)
Definition children_ok (h : heap) (p : ptr) (n : Node) : Prop :=
  ∀ c, _left n = Some c ∨ _right n = Some c →
       ∃ m, h !! c = Some m ∧ _parent m = Some p.

Definition well_linked (h : heap) (root : option ptr) : Prop :=
  ∀ p n, h !! p = Some n →
    count_ok h n ∧ parent_ok h root p n ∧ children_ok h p n ∧
    _count n = wrap64 (subtree_size (size h) h (Some p)).

(** The recency order of a history, most recently referenced first: each
    reference moves its address to the front. *)
Definition touch (order : list Z) (address : Z) : list Z :=
  address :: filter (λ b, b ≠ address) order.

Definition recency (history : list Z) : list Z := foldl touch [] history.

End Treap.

(** ** [RD_LogRR] *)

Module LogRR.
Import Bits.

Definition MIN_SIZE_BITS : Z := 10.
Definition MAX_SIZE_BITS : Z := 24.
Definition MIN_SIZE : Z := wrap64 (Z.shiftl 1 MIN_SIZE_BITS).
Definition MAX_SIZE : Z := wrap64 (Z.shiftl 1 MAX_SIZE_BITS).

(** [std::vector<ADDRINT>]: a size and the elements that differ from the
    value [0] a resize fills in; an access outside the size has no
    result. *)
Record vector := mkVector { vsize : Z; vdata : gmap Z Z }.

Definition vresize (n : Z) : vector := mkVector n ∅.

Definition vget (v : vector) (i : Z) : option Z :=
  if bool_decide (0 ≤ i < vsize v) then Some (default 0 (vdata v !! i))
  else None.

Definition vset (v : vector) (i x : Z) : option vector :=
  if bool_decide (0 ≤ i < vsize v)
  then Some (mkVector (vsize v) (<[i := x]> (vdata v)))
  else None.

(** [class RD_LogRR] *)
Record state := mkState {
  entries_map : gmap Z Z;
  entries_list : vector;
  replace_position : list Z
}.

(** [RD_LogRR() : entries_list(0) { memset(replace_position, 0, ...); }] *)
Definition init : state :=
  mkState ∅ (vresize 0) (replicate (Z.to_nat MAX_SIZE_BITS) 0).

(** [UINT64 getIdx(UINT32 bin, UINT64 idx)] *)
Definition getIdx (bin idx : Z) : Z :=
  if bin =? MIN_SIZE_BITS then idx
  else wrap64 (wrap64 (Z.shiftl 1 (wrap32 (bin - 1))) + idx).

(** The cursor after one more replacement in pool [bin]:
    [(replace_position[bin] + 1) & ((UINT64(1) << (bin - 1)) - 1)]. *)
Definition next_position (bin c : Z) : Z :=
  Z.land (wrap64 (c + 1)) (wrap64 (wrap64 (Z.shiftl 1 (wrap32 (bin - 1))) - 1)).

(** The loop [for (bin = ...; bin < pos_log2; ++bin)], entered at [bin]
    with [n] iterations to go; it returns the state and the carried
    [item]. *)
Fixpoint walk (n : nat) (bin : Z) (s : state) (item : Z) : option (state * Z) :=
  match n with
  | O => Some (s, item)
  | S n' =>
      c ← replace_position s !! Z.to_nat bin;
      let idx := getIdx bin c in
      let rp := <[Z.to_nat bin := next_position bin c]> (replace_position s) in
      replace_item ← vget (entries_list s) idx;
      l ← vset (entries_list s) idx item;
      let m := <[item := idx]> (entries_map s) in
      let s' := mkState m l rp in
      if replace_item =? 0 then Some (s', replace_item)
      else walk n' (wrap32 (bin + 1)) s' replace_item
  end.

(** The end of [reference], after the loop. *)
Definition finalize (s : state) (item position pos_log2 : Z) : option state :=
  if pos_log2 <? MAX_SIZE_BITS then
    l ← vset (entries_list s) position item;
    Some (mkState (<[item := position]> (entries_map s)) l (replace_position s))
  else if negb (item =? 0) then
    Some (mkState (delete item (entries_map s)) (entries_list s)
            (replace_position s))
  else Some s.

(** The lazy allocation at the head of [reference]. *)
Definition allocate (s : state) : state :=
  if vsize (entries_list s) =? 0
  then mkState (entries_map s) (vresize MAX_SIZE) (replace_position s)
  else s.

(** [UINT32 reference(ADDRINT address)] *)
Definition reference (s : state) (address : Z) : option (state * Z) :=
  let s := allocate s in
  let promote (position pos_log2 : Z) :=
    '(s1, item) ← walk (Z.to_nat (pos_log2 - MIN_SIZE_BITS)) MIN_SIZE_BITS s address;
    s2 ← finalize s1 item position pos_log2;
    Some (s2, pos_log2) in
  match entries_map s !! address with
  | Some position =>
      if position <? MIN_SIZE then Some (s, MIN_SIZE_BITS)
      else promote position (int_log2 position)
  | None => promote MAX_SIZE MAX_SIZE_BITS
  end.

Definition step (acc : option (state * Z)) (address : Z) : option (state * Z) :=
  sr ← acc; reference (fst sr) address.

Definition run (history : list Z) : option (state * Z) :=
  foldl step (Some (init, 0)) history.

(** Observations used to state the properties. *)

(** Pool [bin] holds [capacity bin] slots from [base bin] on. *)
Definition capacity (bin : Z) : Z := 2 ^ (bin - 1).
Definition base (bin : Z) : Z := if bin =? MIN_SIZE_BITS then 0 else 2 ^ (bin - 1).

(** The content of slot [i] of a vector, and the cursor of pool [bin]. *)
Definition slot (v : vector) (i : Z) : Z := default 0 (vdata v !! i).
Definition cursor (s : state) (bin : Z) : Z :=
  default 0 (replace_position s !! Z.to_nat bin).

(** The addresses resident in the slots: every content but the value [0]
    of an empty slot. *)
Definition residents (v : vector) : gset Z :=
  map_img (filter (λ kv : Z * Z, kv.2 ≠ 0) (vdata v)).

End LogRR.

(* ===================================================================== *)
(** * Part II: properties                                                 *)
(* ===================================================================== *)

(** ** [int_log2] is the integer binary logarithm *)

Module BitsFacts.
Import Bits.

Lemma wrap32_small x : 0 ≤ x < 2 ^ 32 → wrap32 x = x.
Proof. intros. unfold wrap32. by apply Z.mod_small. Qed.

Lemma wrap64_small x : 0 ≤ x < 2 ^ 64 → wrap64 x = x.
Proof. intros. unfold wrap64. by apply Z.mod_small. Qed.

Lemma wrap64_range x : 0 ≤ wrap64 x < 2 ^ 64.
Proof. unfold wrap64. apply Z.mod_pos_bound. lia. Qed.

Lemma wrap64_add_l x y : wrap64 (wrap64 x + y) = wrap64 (x + y).
Proof. unfold wrap64. by rewrite Zplus_mod_idemp_l. Qed.

Lemma wrap64_add_r x y : wrap64 (x + wrap64 y) = wrap64 (x + y).
Proof. unfold wrap64. by rewrite Zplus_mod_idemp_r. Qed.

(** A stage keeps the logarithm of [v] recoverable from the pair and
    halves the width of [x]. *)
Lemma stage_spec k n x :
  0 < k → 2 * k ≤ n ≤ 64 → 0 < x < 2 ^ (2 * k) →
  let nx := stage k (n, x) in
  k ≤ fst nx ≤ 64 ∧ 0 < snd nx < 2 ^ k ∧
  Z.log2 (snd nx) - fst nx = Z.log2 x - n.
Proof.
  intros Hk Hn Hx. unfold stage. cbn [fst snd].
  destruct (Z.eqb_spec (x ≫ k) 0) as [Hy|Hy]; cbn [negb fst snd].
  - split; [lia|]. split; [|done]. split; [lia|].
    rewrite Z.shiftr_div_pow2 in Hy by lia.
    apply Z.div_small_iff in Hy; [|lia]. lia.
  - rewrite wrap32_small by lia.
    assert (0 < x ≫ k) as Hpos.
    { pose proof (Z.shiftr_nonneg x k). lia. }
    split; [lia|]. split.
    + split; [done|]. rewrite Z.shiftr_div_pow2 by lia.
      apply Z.div_lt_upper_bound; [lia|]. rewrite <- Z.pow_add_r by lia.
      replace (k + k) with (2 * k) by lia. lia.
    + rewrite Z.log2_shiftr by lia.
      assert (0 < Z.log2 (x ≫ k) ∨ x ≫ k = 1) as Hc.
      { destruct (Z.eq_dec (x ≫ k) 1); [by right|left].
        apply Z.log2_pos. lia. }
      assert (k ≤ Z.log2 x).
      { apply Z.log2_le_pow2; [lia|].
        rewrite Z.shiftr_div_pow2 in Hpos by lia.
        destruct (Z.lt_ge_cases x (2 ^ k)) as [Hlt|]; [|done].
        rewrite Z.div_small in Hpos; lia. }
      lia.
Qed.

Lemma int_log2_spec v : 0 < v < 2 ^ 64 → int_log2 v = Z.log2 v.
Proof.
  intros Hv. unfold int_log2, lzcount.
  destruct (Z.eqb_spec v 0) as [|_]; [lia|].
  destruct (stage_spec 32 64 v) as (Hn1 & Hx1 & Hl1); [lia..|].
  destruct (stage 32 (64, v)) as [n1 x1]. cbn [fst snd] in *.
  destruct (stage_spec 16 n1 x1) as (Hn2 & Hx2 & Hl2); [lia..|].
  destruct (stage 16 (n1, x1)) as [n2 x2]. cbn [fst snd] in *.
  destruct (stage_spec 8 n2 x2) as (Hn3 & Hx3 & Hl3); [lia..|].
  destruct (stage 8 (n2, x2)) as [n3 x3]. cbn [fst snd] in *.
  destruct (stage_spec 4 n3 x3) as (Hn4 & Hx4 & Hl4); [lia..|].
  destruct (stage 4 (n3, x3)) as [n4 x4]. cbn [fst snd] in *.
  destruct (stage_spec 2 n4 x4) as (Hn5 & Hx5 & Hl5); [lia..|].
  destruct (stage 2 (n4, x4)) as [n5 x5]. cbn [fst snd] in *.
  assert (0 ≤ Z.log2 v < 64) as Hlog.
  { split; [apply Z.log2_nonneg|]. apply Z.log2_lt_pow2; lia. }
  assert (x5 = 1 ∨ x5 = 2 ∨ x5 = 3) as [->|[->| ->]] by lia;
    change (Z.log2 1) with 0 in *; change (Z.log2 2) with 1 in *;
    change (Z.log2 3) with 1 in *;
    [change (negb (1 ≫ 1 =? 0)) with false
    |change (negb (2 ≫ 1 =? 0)) with true
    |change (negb (3 ≫ 1 =? 0)) with true]; cbv iota;
    rewrite ?(wrap32_small (n5 - 2)), ?(wrap64_small (n5 - 1)),
      ?(wrap32_small (n5 - 1)) by lia;
    (rewrite wrap64_small by lia); (rewrite wrap32_small by lia); lia.
Qed.

Lemma int_log2_INT_MAX : int_log2 INT_MAX = 30.
Proof. reflexivity. Qed.

End BitsFacts.

(** ** [RD_LogRR]: cursors, bounds and the short-circuit *)

Module LogRRFacts.
Import Bits BitsFacts LogRR.

Lemma MAX_SIZE_eq : MAX_SIZE = 2 ^ 24.
Proof. reflexivity. Qed.

Lemma MIN_SIZE_eq : MIN_SIZE = 2 ^ 10.
Proof. reflexivity. Qed.

Lemma pow2_bin_bounds bin :
  10 ≤ bin < 24 → 2 ^ 9 ≤ 2 ^ (bin - 1) ≤ 2 ^ 22 ∧ 2 ^ bin = 2 * 2 ^ (bin - 1).
Proof.
  intros. split; [split; apply Z.pow_le_mono_r; lia|].
  rewrite <- Z.pow_succ_r by lia. f_equal. lia.
Qed.

Lemma shift_bin bin :
  10 ≤ bin < 24 → wrap64 (Z.shiftl 1 (wrap32 (bin - 1))) = 2 ^ (bin - 1).
Proof.
  intros. pose proof (pow2_bin_bounds bin).
  rewrite wrap32_small by lia. rewrite Z.shiftl_1_l.
  apply wrap64_small. lia.
Qed.

Lemma getIdx_spec bin c :
  10 ≤ bin < 24 → 0 ≤ c < capacity bin → getIdx bin c = base bin + c.
Proof.
  unfold getIdx, base, capacity, MIN_SIZE_BITS. intros Hb Hc.
  pose proof (pow2_bin_bounds bin).
  destruct (Z.eqb_spec bin 10); [lia|].
  rewrite shift_bin by done. apply wrap64_small. lia.
Qed.

Lemma next_position_spec bin c :
  10 ≤ bin < 24 → 0 ≤ c < capacity bin →
  next_position bin c = (c + 1) mod capacity bin.
Proof.
  unfold next_position, capacity. intros Hb Hc.
  pose proof (pow2_bin_bounds bin).
  rewrite shift_bin by done.
  rewrite (wrap64_small (c + 1)) by lia.
  rewrite (wrap64_small (_ - 1)) by lia.
  replace (2 ^ (bin - 1) - 1) with (Z.ones (bin - 1))
    by (rewrite Z.ones_equiv; lia).
  apply Z.land_ones. lia.
Qed.

Lemma in_pool_bounds bin i :
  10 ≤ bin < 24 → base bin ≤ i < base bin + capacity bin → 0 ≤ i < 2 ^ 23.
Proof.
  unfold base, capacity, MIN_SIZE_BITS. intros Hb.
  pose proof (pow2_bin_bounds bin).
  destruct (Z.eqb_spec bin 10); lia.
Qed.

Lemma slot_vset v i x v' j :
  vset v i x = Some v' → slot v' j = if decide (i = j) then x else slot v j.
Proof.
  unfold vset, slot. case_bool_decide; [|done]. intros [= <-]. simpl.
  rewrite lookup_insert. by repeat case_decide.
Qed.

Lemma vsize_vset v i x v' : vset v i x = Some v' → vsize v' = vsize v.
Proof. unfold vset. case_bool_decide; [|done]. by intros [= <-]. Qed.

Lemma vget_Some v i : 0 ≤ i < vsize v → vget v i = Some (slot v i).
Proof. intros. unfold vget. by rewrite bool_decide_eq_true_2. Qed.

Lemma vset_Some v i x :
  0 ≤ i < vsize v → ∃ v', vset v i x = Some v'.
Proof. intros. unfold vset. rewrite bool_decide_eq_true_2 by done. eauto. Qed.

Lemma cursor_insert s m l bin c b :
  (Z.to_nat bin < length (replace_position s))%nat → 0 ≤ bin → 0 ≤ b →
  cursor (mkState m l (<[Z.to_nat bin := c]> (replace_position s))) b
  = if decide (bin = b) then c else cursor s b.
Proof.
  intros Hlen Hbin Hb. unfold cursor. simpl. case_decide as Hd.
  - subst. by rewrite list_lookup_insert_eq.
  - rewrite list_lookup_insert_ne; [done|]. lia.
Qed.

(** The part of the invariant that holds for every history: the cursor
    array has its [MAX_SIZE_BITS] entries, each cursor of a walked pool is
    below the pool's capacity, the vector is allocated, the recorded
    positions lie below the last walked pool's end, and the recorded
    addresses and slot contents satisfy [K]. *)
Record Inv0 (K : Z → Prop) (s : state) : Prop := {
  inv_len : length (replace_position s) = 24%nat;
  inv_cur : ∀ bin, 10 ≤ bin < 24 → 0 ≤ cursor s bin < capacity bin;
  inv_size : vsize (entries_list s) = MAX_SIZE;
  inv_pos : ∀ a pos, entries_map s !! a = Some pos → 0 ≤ pos < 2 ^ 23;
  inv_keys : ∀ a, is_Some (entries_map s !! a) → a ≠ 0 → K a;
  inv_vals : ∀ i, slot (entries_list s) i ≠ 0 → K (slot (entries_list s) i)
}.

Lemma Inv0_lookup K s bin :
  Inv0 K s → 10 ≤ bin < 24 →
  replace_position s !! Z.to_nat bin = Some (cursor s bin).
Proof.
  intros HI Hb. unfold cursor.
  destruct (replace_position s !! Z.to_nat bin) eqn:E; [done|].
  apply lookup_ge_None in E. rewrite (inv_len _ _ HI) in E. lia.
Qed.

(** One iteration of the loop. *)
Lemma walk_step K bin s item :
  10 ≤ bin < 24 → Inv0 K s → K item →
  let c := cursor s bin in
  let idx := base bin + c in
  ∃ l, vset (entries_list s) idx item = Some l ∧
  let s' := mkState (<[item := idx]> (entries_map s)) l
              (<[Z.to_nat bin := (c + 1) mod capacity bin]> (replace_position s)) in
  let e := slot (entries_list s) idx in
  Inv0 K s' ∧ (e ≠ 0 → K e) ∧
  ∀ n, walk (S n) bin s item
       = if e =? 0 then Some (s', e) else walk n (bin + 1) s' e.
Proof.
  intros Hb HI HK c idx.
  pose proof (inv_cur _ _ HI bin Hb) as Hc. fold c in Hc.
  pose proof (in_pool_bounds bin idx Hb ltac:(unfold idx; lia)) as Hidx.
  destruct (vset_Some (entries_list s) idx item) as [l Hl].
  { rewrite (inv_size _ _ HI), MAX_SIZE_eq. lia. }
  exists l. split; [done|]. intros s' e.
  assert (Hlen : (Z.to_nat bin < length (replace_position s))%nat).
  { rewrite (inv_len _ _ HI). lia. }
  split; [|split].
  - split; simpl.
    + by rewrite length_insert, (inv_len _ _ HI).
    + intros b Hb'. unfold s'. rewrite cursor_insert by lia.
      case_decide; [|by apply (inv_cur _ _ HI)]. subst b.
      apply Z.mod_pos_bound. lia.
    + by rewrite (vsize_vset _ _ _ _ Hl), (inv_size _ _ HI).
    + intros a pos. rewrite lookup_insert. case_decide.
      * intros [= <-]. done.
      * apply (inv_pos _ _ HI).
    + intros a. rewrite lookup_insert. case_decide; [by subst|].
      apply (inv_keys _ _ HI).
    + intros i. rewrite (slot_vset _ _ _ _ _ Hl). case_decide; [done|].
      apply (inv_vals _ _ HI).
  - apply (inv_vals _ _ HI).
  - intros n. cbn [walk]. rewrite (Inv0_lookup K) by done. fold c. simpl.
    rewrite getIdx_spec by done. fold idx.
    rewrite vget_Some by (rewrite (inv_size _ _ HI), MAX_SIZE_eq; lia).
    simpl. rewrite Hl. simpl. rewrite next_position_spec by done.
    fold e. rewrite (wrap32_small (bin + 1)) by lia. done.
Qed.

(** The loop runs to its end, keeps the invariant, and moves only the
    cursors of the pools it walks, each by one. *)
Lemma walk_inv0 K n : ∀ bin s item,
  10 ≤ bin → bin + Z.of_nat n ≤ 24 → Inv0 K s → K item →
  ∃ s' item', walk n bin s item = Some (s', item') ∧ Inv0 K s' ∧
    (item' ≠ 0 → K item') ∧
    ∀ b, 0 ≤ b →
      cursor s' b = cursor s b ∨
      (bin ≤ b < bin + Z.of_nat n ∧
       cursor s' b = (cursor s b + 1) mod capacity b).
Proof.
  induction n as [|n IH]; intros bin s item Hb Hn HI HK.
  - exists s, item. simpl. split; [done|]. split; [done|]. split; [done|].
    intros. by left.
  - destruct (walk_step K bin s item) as (l & Hl & HI' & HKe & Hw);
      [lia|done..|].
    rewrite Hw.
    assert (Hlen : (Z.to_nat bin < length (replace_position s))%nat).
    { rewrite (inv_len _ _ HI). lia. }
    destruct (Z.eqb_spec (slot (entries_list s) (base bin + cursor s bin)) 0)
      as [He|He].
    + eexists _, _. split; [done|]. split; [done|]. split; [done|].
      intros b Hb0. rewrite cursor_insert by lia. case_decide; [|by left].
      subst b. right. split; [lia|done].
    + destruct (IH (bin + 1) _ _ ltac:(lia) ltac:(lia) HI' (HKe He))
        as (s2 & it2 & Hw2 & HI2 & HK2 & Hcur).
      exists s2, it2. split; [done|]. split; [done|]. split; [done|].
      intros b Hb0. destruct (Hcur b Hb0) as [Heq|[Hr Heq]].
      * rewrite Heq, cursor_insert by lia. case_decide; [|by left].
        subst b. right. split; [lia|done].
      * rewrite Heq, cursor_insert by lia. case_decide; [lia|].
        right. split; [lia|done].
Qed.


Lemma allocate_id K s : Inv0 K s → allocate s = s.
Proof.
  intros HI. unfold allocate. by rewrite (inv_size _ _ HI).
Qed.

Lemma log2_position pos :
  MIN_SIZE ≤ pos < 2 ^ 23 → int_log2 pos = Z.log2 pos ∧ 10 ≤ Z.log2 pos < 23.
Proof.
  rewrite MIN_SIZE_eq. intros Hp. split.
  - apply int_log2_spec. lia.
  - split.
    + apply Z.log2_le_pow2; lia.
    + apply Z.log2_lt_pow2; lia.
Qed.

(** What a call of [reference] does to an allocated state. *)
Lemma reference_inv0 K s a :
  Inv0 K s → K a →
  ∃ s' r, reference s a = Some (s', r) ∧ Inv0 K s' ∧
    MIN_SIZE_BITS ≤ r ≤ MAX_SIZE_BITS ∧
    (entries_map s !! a = None → r = MAX_SIZE_BITS) ∧
    (∀ pos, entries_map s !! a = Some pos → pos < MIN_SIZE →
       s' = s ∧ r = MIN_SIZE_BITS) ∧
    ∀ b, 0 ≤ b →
      cursor s' b = cursor s b ∨
      (10 ≤ b < 24 ∧ cursor s' b = (cursor s b + 1) mod capacity b).
Proof.
  intros HI HK. unfold reference. rewrite (allocate_id K) by done.
  unfold MIN_SIZE_BITS, MAX_SIZE_BITS.
  assert (Hgo : ∀ position pos_log2,
    0 ≤ position → 10 ≤ pos_log2 ≤ 24 →
    (pos_log2 < 24 → position < 2 ^ 23) →
    ∃ s', ('(s1, item) ← walk (Z.to_nat (pos_log2 - 10)) 10 s a;
             s2 ← finalize s1 item position pos_log2; Some (s2, pos_log2))
            = Some (s', pos_log2) ∧ Inv0 K s' ∧
      ∀ b, 0 ≤ b →
        cursor s' b = cursor s b ∨
        (10 ≤ b < 24 ∧ cursor s' b = (cursor s b + 1) mod capacity b)).
  { intros position pos_log2 Hpos Hlog Hhit.
    destruct (walk_inv0 K (Z.to_nat (pos_log2 - 10)) 10 s a)
      as (s1 & it & Hw & HI1 & HK1 & Hcur); [lia|lia|done..|].
    rewrite Hw. simpl. unfold finalize, MAX_SIZE_BITS.
    assert (Hcur' : ∀ b, 0 ≤ b →
      cursor s1 b = cursor s b ∨
      (10 ≤ b < 24 ∧ cursor s1 b = (cursor s b + 1) mod capacity b)).
    { intros b Hb0. destruct (Hcur b Hb0) as [?|[? ?]]; [by left|right].
      split; [lia|done]. }
    destruct (Z.ltb_spec pos_log2 24) as [Hlt|Hge].
    - destruct (vset_Some (entries_list s1) position it) as [l Hl].
      { rewrite (inv_size _ _ HI1), MAX_SIZE_eq. lia. }
      rewrite Hl. simpl. eexists. split; [done|]. split; [|done].
      split; simpl; try apply HI1.
      + by rewrite (vsize_vset _ _ _ _ Hl), (inv_size _ _ HI1).
      + intros a' pos'. rewrite lookup_insert. case_decide.
        * intros [= <-]. lia.
        * apply (inv_pos _ _ HI1).
      + intros a'. rewrite lookup_insert. case_decide.
        * subst a'. intros _. apply HK1.
        * apply (inv_keys _ _ HI1).
      + intros i. rewrite (slot_vset _ _ _ _ _ Hl). case_decide; [done|].
        apply (inv_vals _ _ HI1).
    - destruct (Z.eqb_spec it 0); simpl.
      + eexists. split; [done|]. by split.
      + eexists. split; [done|]. split; [|done].
        split; simpl; try apply HI1.
        * intros a' pos'. rewrite lookup_delete. case_decide; [done|].
          apply (inv_pos _ _ HI1).
        * intros a'. rewrite lookup_delete. case_decide; [by intros [? ?]|].
          apply (inv_keys _ _ HI1). }
  destruct (entries_map s !! a) as [pos|] eqn:Hm.
  - pose proof (inv_pos _ _ HI _ _ Hm) as Hpos.
    destruct (Z.ltb_spec pos MIN_SIZE) as [Hlt|Hge].
    + exists s, 10. split; [done|]. split; [done|]. split; [lia|].
      split; [done|]. split; [done|]. intros. by left.
    + destruct (log2_position pos ltac:(lia)) as [-> Hl].
      destruct (Hgo pos (Z.log2 pos)) as (s' & -> & HI' & Hcur); [lia..|].
      exists s', (Z.log2 pos). split; [done|]. split; [done|]. split; [lia|].
      split; [done|]. split; [|done]. intros ? [= <-]. lia.
  - destruct (Hgo MAX_SIZE 24) as (s' & -> & HI' & Hcur);
      [rewrite MAX_SIZE_eq; lia|lia..|].
    exists s', 24. split; [done|]. split; [done|]. split; [lia|].
    split; [done|]. split; [done|]. done.
Qed.

(** The invariant along a history: the state is allocated by the first
    call, and before it nothing is recorded. *)
Definition Reach0 (K : Z → Prop) (s : state) : Prop :=
  Inv0 K (allocate s) ∧ (vsize (entries_list s) = 0 → s = init).

Lemma Inv0_mono (K K' : Z → Prop) s :
  (∀ a, K a → K' a) → Inv0 K s → Inv0 K' s.
Proof.
  intros HK HI. split; try apply HI.
  - intros a Hs Ha. apply HK. by apply (inv_keys _ _ HI).
  - intros i Hi. apply HK. by apply (inv_vals _ _ HI).
Qed.

Lemma Reach0_init : Reach0 (λ _, False) init.
Proof.
  split; [|done]. split; try done.
  - intros bin Hb. pose proof (pow2_bin_bounds bin Hb).
    assert (cursor (allocate init) bin = 0) as ->; [|unfold capacity; lia].
    unfold cursor.
    change (replace_position (allocate init))
      with (replicate (Z.to_nat MAX_SIZE_BITS) 0).
    rewrite lookup_replicate_2; [done|]. unfold MAX_SIZE_BITS. lia.
  - intros a [? ?]. done.
Qed.

Lemma run_snoc l a : run (l ++ [a]) = step (run l) a.
Proof. unfold run. by rewrite foldl_snoc. Qed.

Lemma run_Reach0 l :
  ∃ s r, run l = Some (s, r) ∧ Reach0 (λ a, a ∈ l) s.
Proof.
  induction l as [|a l IH] using rev_ind.
  - exists init, 0. split; [done|].
    destruct Reach0_init as [H1 H2]. split; [|done].
    eapply Inv0_mono; [|done]. done.
  - destruct IH as (s & r & Hrun & [HI Hempty]).
    rewrite run_snoc, Hrun. simpl.
    destruct (reference_inv0 (λ b, b ∈ l ++ [a]) (allocate s) a)
      as (s' & r' & Href & HI' & _).
    { eapply Inv0_mono; [|done]. set_solver. }
    { set_solver. }
    assert (reference s a = reference (allocate s) a) as ->.
    { unfold reference. by rewrite (allocate_id _ (allocate s) HI). }
    exists s', r'. split; [done|]. split.
    + by rewrite (allocate_id _ s' HI').
    + rewrite (inv_size _ _ HI'). done.
Qed.


End LogRRFacts.

(** ** [RD_LogRR]: how the pools fill *)

Module PoolFacts.
Import Bits BitsFacts LogRR LogRRFacts.

Definition in_pool (bin i : Z) : Prop := base bin ≤ i < base bin + capacity bin.

Lemma in_pool_first i : in_pool 10 i ↔ 0 ≤ i < 2 ^ 9.
Proof. unfold in_pool, base, capacity, MIN_SIZE_BITS. simpl. lia. Qed.

Lemma in_pool_later bin i :
  10 < bin < 24 → in_pool bin i ↔ 2 ^ (bin - 1) ≤ i < 2 ^ bin.
Proof.
  intros Hb. unfold in_pool, base, capacity, MIN_SIZE_BITS.
  pose proof (pow2_bin_bounds bin ltac:(lia)).
  destruct (Z.eqb_spec bin 10); lia.
Qed.

Lemma in_pool_log2 bin i : 10 < bin < 24 → in_pool bin i → Z.log2 i = bin - 1.
Proof.
  intros Hb Hi. apply (proj1 (in_pool_later bin i Hb)) in Hi.
  apply Z.log2_unique; [lia|]. replace (Z.succ (bin - 1)) with bin by lia. done.
Qed.

Lemma in_pool_disjoint b b' i :
  10 ≤ b < 24 → 10 ≤ b' < 24 → in_pool b i → in_pool b' i → b = b'.
Proof.
  intros Hb Hb' Hi Hi'.
  destruct (Z.eq_dec b 10) as [->|]; destruct (Z.eq_dec b' 10) as [->|];
    try done.
  - apply (proj1 (in_pool_first i)) in Hi.
    apply (proj1 (in_pool_later b' i ltac:(lia))) in Hi'.
    pose proof (pow2_bin_bounds b' ltac:(lia)). lia.
  - apply (proj1 (in_pool_first i)) in Hi'.
    apply (proj1 (in_pool_later b i ltac:(lia))) in Hi.
    pose proof (pow2_bin_bounds b ltac:(lia)). lia.
  - apply in_pool_log2 in Hi; [|lia]. apply in_pool_log2 in Hi'; [|lia]. lia.
Qed.

Section Fill.
Variable nz : Z → Prop.
Variable cur : Z → Z.

Definition fullP (bin : Z) : Prop :=
  ∀ off, 0 ≤ off < capacity bin → nz (base bin + off).

(** Each pool is full or filled exactly below its cursor; a pool that
    holds something follows a full pool; nothing is held outside the
    pools. *)
Record FillP : Prop := {
  fill_prefix : ∀ bin, 10 ≤ bin < 24 →
    fullP bin ∨
    ∀ off, 0 ≤ off < capacity bin → (nz (base bin + off) ↔ off < cur bin);
  fill_chain : ∀ bin i, 10 < bin < 24 → in_pool bin i → nz i →
    fullP (bin - 1);
  fill_pooled : ∀ i, nz i → ∃ bin, 10 ≤ bin < 24 ∧ in_pool bin i
}.

Lemma full_below bin i :
  FillP → 10 ≤ bin < 24 → in_pool bin i → nz i →
  ∀ b, 10 ≤ b < bin → fullP b.
Proof.
  intros HF Hb Hi Hnz b Hrange.
  assert (∀ k : nat, 10 ≤ bin - 1 - Z.of_nat k → fullP (bin - 1 - Z.of_nat k))
    as Hk.
  { induction k as [|k IH]; intros Hk.
    - replace (bin - 1 - Z.of_nat 0) with (bin - 1) by lia.
      apply (fill_chain HF bin i); [lia|done..].
    - replace (bin - 1 - Z.of_nat (S k))
        with ((bin - 1 - Z.of_nat k) - 1) by lia.
      pose proof (pow2_bin_bounds (bin - 1 - Z.of_nat k) ltac:(lia)).
      apply (fill_chain HF (bin - 1 - Z.of_nat k)
               (base (bin - 1 - Z.of_nat k) + 0));
        [lia| |].
      + unfold in_pool, capacity. lia.
      + apply IH; [lia|]. unfold capacity. lia. }
  specialize (Hk (Z.to_nat (bin - 1 - b)) ltac:(lia)).
  replace (bin - 1 - Z.of_nat (Z.to_nat (bin - 1 - b))) with b in Hk by lia.
  done.
Qed.
End Fill.

Lemma FillP_ext nz nz' cur cur' :
  (∀ i, nz i ↔ nz' i) → (∀ b, 10 ≤ b < 24 → cur b = cur' b) →
  FillP nz cur → FillP nz' cur'.
Proof.
  intros Hnz Hcur HF. split.
  - intros bin Hb. destruct (fill_prefix _ _ HF bin Hb) as [Hf|Hp].
    + left. intros off Ho. apply Hnz. by apply Hf.
    + right. intros off Ho. rewrite <- Hnz, <- Hcur by done. by apply Hp.
  - intros bin i Hb Hi Hn off Ho. apply Hnz.
    apply (fill_chain _ _ HF bin i); [done..|by apply Hnz|done].
  - intros i Hi. apply (fill_pooled _ _ HF). by apply Hnz.
Qed.

(** One replacement in pool [bin], at the slot under its cursor. *)
Lemma FillP_step nz cur bin :
  10 ≤ bin < 24 → 0 ≤ cur bin < capacity bin → FillP nz cur →
  (10 < bin → fullP nz (bin - 1)) →
  let idx := base bin + cur bin in
  FillP (λ i, i = idx ∨ nz i)
        (λ b, if decide (bin = b) then (cur bin + 1) mod capacity bin else cur b)
  ∧ (nz idx → fullP nz bin).
Proof.
  intros Hb Hc HF Hprev idx.
  assert (Hfull : nz idx → fullP nz bin).
  { intros Hn. destruct (fill_prefix _ _ HF bin Hb) as [Hf|Hp]; [done|].
    apply Hp in Hn; [lia|done]. }
  split; [|done]. split.
  - intros b Hb'. destruct (fill_prefix _ _ HF b Hb') as [Hf|Hp].
    { left. intros off Ho. right. by apply Hf. }
    case_decide as Hd.
    + subst b. destruct (Z.eq_dec (cur bin + 1) (capacity bin)) as [He|Hne].
      * left. intros off Ho.
        destruct (Z.eq_dec off (cur bin)) as [->|]; [by left|].
        right. apply Hp; lia.
      * right. intros off Ho. rewrite Z.mod_small by lia.
        rewrite Hp by done. unfold idx. lia.
    + right. intros off Ho. rewrite <- Hp by done. split; [|by right].
      intros [Heq|Hn]; [|done]. exfalso. apply Hd.
      apply (in_pool_disjoint bin b idx); [done..| |].
      * unfold in_pool, idx. lia.
      * rewrite <- Heq. unfold in_pool. lia.
  - intros b i Hb' Hi [->|Hn] off Ho; right.
    + assert (bin = b) as <-.
      { apply (in_pool_disjoint bin b idx); [lia..| |done].
        unfold in_pool, idx. lia. }
      apply Hprev; [lia|done].
    + by apply (fill_chain _ _ HF b i).
  - intros i [->|Hn].
    + exists bin. split; [done|]. unfold in_pool, idx. lia.
    + by apply (fill_pooled _ _ HF).
Qed.

Lemma fullP_mono (nz nz' : Z → Prop) bin :
  (∀ i, nz i → nz' i) → fullP nz bin → fullP nz' bin.
Proof. intros H Hf off Ho. apply H. by apply Hf. Qed.

End PoolFacts.

(** ** [RD_LogRR]: the position map and the slots *)

Module ResidencyFacts.
Import Bits BitsFacts LogRR LogRRFacts PoolFacts.

Definition nzs (s : state) (i : Z) : Prop := slot (entries_list s) i ≠ 0.
Definition Fill (s : state) : Prop := FillP (nzs s) (cursor s).
Definition full (s : state) (bin : Z) : Prop := fullP (nzs s) bin.

(** The position map records exactly the non-zero slot contents, the slot
    [p] left aside. *)
Definition Resident (p : Z) (s : state) : Prop :=
  ∀ a i, entries_map s !! a = Some i ↔
         a ≠ 0 ∧ slot (entries_list s) i = a ∧ i ≠ p.

(** The same while [item] is carried by the loop: it is in no slot but
    [p], and its own map entry is not yet meaningful. *)
Record Carried (p item : Z) (s : state) : Prop := {
  car_map : ∀ a i, a ≠ item →
    (entries_map s !! a = Some i ↔
     a ≠ 0 ∧ slot (entries_list s) i = a ∧ i ≠ p);
  car_out : ∀ i, i ≠ p → slot (entries_list s) i ≠ item;
  car_nz : item ≠ 0
}.

Abbreviation I0 := (Inv0 (λ _, True)).

Lemma walk_carried n : ∀ bin s item p s' item',
  10 ≤ bin → bin + Z.of_nat n ≤ 24 → I0 s →
  Fill s → (10 < bin → full s (bin - 1)) → Carried p item s →
  (∀ b, bin ≤ b < bin + Z.of_nat n → ¬ in_pool b p) →
  walk n bin s item = Some (s', item') →
  Fill s' ∧ slot (entries_list s') p = slot (entries_list s) p ∧
  ((item' = 0 ∧ Resident p s' ∧ ∃ b, bin ≤ b < bin + Z.of_nat n ∧ ¬ full s b)
   ∨ Carried p item' s').
Proof.
  induction n as [|n IH]; intros bin s item p s' item' Hb Hn HI HF Hprev HC Hp.
  { intros [= <- <-]. split; [done|]. split; [done|]. by right. }
  destruct (walk_step (λ _, True) bin s item) as (l & Hl & HI' & _ & Hw);
    [lia|done..|].
  rewrite Hw. clear Hw.
  pose proof (inv_cur _ _ HI bin ltac:(lia)) as Hc.
  set (c := cursor s bin) in *. set (idx := base bin + c) in *.
  set (e := slot (entries_list s) idx).
  set (s1 := mkState _ l _) in *.
  assert (Hlen : (Z.to_nat bin < length (replace_position s))%nat).
  { rewrite (inv_len _ _ HI). lia. }
  assert (Hidx : in_pool bin idx) by (unfold in_pool, idx; lia).
  assert (Hip : idx ≠ p).
  { intros <-. apply (Hp bin); [lia|done]. }
  assert (Hs1 : ∀ j, slot (entries_list s1) j
                     = if decide (idx = j) then item else slot (entries_list s) j).
  { intros j. apply (slot_vset _ _ _ _ _ Hl). }
  pose proof (car_nz _ _ _ HC) as Hitem.
  destruct (FillP_step (nzs s) (cursor s) bin ltac:(lia) Hc HF Hprev)
    as [HF1 Hfull].
  fold c idx in HF1, Hfull.
  assert (HFs1 : Fill s1).
  { eapply FillP_ext; [| |exact HF1].
    - intros i. unfold nzs. rewrite Hs1. case_decide; [|naive_solver].
      split; [done|]. by left.
    - intros b Hb'. unfold s1. by rewrite cursor_insert by lia. }
  assert (Hmono : ∀ b, full s b → full s1 b).
  { intros b. apply fullP_mono. intros i. unfold nzs. rewrite Hs1.
    by case_decide. }
  destruct (Z.eqb_spec e 0) as [He|He].
  - intros [= <- <-]. split; [done|]. split.
    { rewrite Hs1. by rewrite decide_False. }
    left. split; [done|]. split.
    + intros a i. unfold s1 at 1. cbn [entries_map]. rewrite Hs1.
      rewrite lookup_insert. case_decide as Ha.
      * subst a. split.
        -- intros [= <-]. by rewrite decide_True.
        -- intros (_ & Hsl & Hi). case_decide; [by subst|].
           by apply (car_out _ _ _ HC) in Hsl.
      * rewrite (car_map _ _ _ HC) by done. case_decide; [|done].
        subst i. fold e. rewrite He. naive_solver.
    + exists bin. split; [lia|]. intros Hf. specialize (Hf c Hc).
      by apply Hf.
  - intros Hw.
    assert (Hfb : full s bin) by (by apply Hfull).
    assert (HC1 : Carried p e s1).
    { split; [| |done].
      - intros a i Ha. unfold s1 at 1. cbn [entries_map]. rewrite Hs1.
        rewrite lookup_insert. case_decide as Ha'.
        + subst a. split.
          * intros [= <-]. by rewrite decide_True.
          * intros (_ & Hsl & Hi). case_decide; [by subst|].
            by apply (car_out _ _ _ HC) in Hsl.
        + rewrite (car_map _ _ _ HC) by done. case_decide; [|done].
          subst i. fold e. naive_solver.
      - intros i Hi. rewrite Hs1. case_decide.
        + intros ->. by apply (car_out _ _ _ HC idx).
        + intros Hsl.
          assert (e ≠ item) as Hei.
          { intros Heq. by apply (car_out _ _ _ HC idx). }
          assert (entries_map s !! e = Some i) as H1
            by (by apply (car_map _ _ _ HC)).
          assert (entries_map s !! e = Some idx) as H2
            by (by apply (car_map _ _ _ HC)).
          congruence. }
    destruct (IH (bin + 1) s1 e p s' item') as (HF' & Hsp & Hres);
      [lia|lia|done|done| |done| |done|].
    { intros _. replace (bin + 1 - 1) with bin by lia. by apply Hmono. }
    { intros b Hb'. apply Hp. lia. }
    split; [done|]. split.
    { rewrite Hsp, Hs1. by rewrite decide_False. }
    destruct Hres as [(-> & Hr & b & Hb' & Hnf)|HC']; [left|by right].
    split; [done|]. split; [done|]. exists b. split; [lia|].
    intros Hf. by apply Hnf, Hmono.
Qed.

Definition Exact (s : state) : Prop :=
  ∀ a i, entries_map s !! a = Some i ↔ a ≠ 0 ∧ slot (entries_list s) i = a.

(** The loop followed by the end of [reference], for an address found at
    [p] (or virtually at [MAX_SIZE]). *)
Lemma promote_exact s a p L s1 it s2 :
  I0 s → Fill s → Carried p a s → 10 ≤ L ≤ 24 →
  (∀ b, 10 ≤ b < L → ¬ in_pool b p) →
  (L < 24 → slot (entries_list s) p ≠ 0 ∧ ∀ b, 10 ≤ b < L → full s b) →
  (L = 24 → slot (entries_list s) p = 0) →
  walk (Z.to_nat (L - 10)) 10 s a = Some (s1, it) →
  finalize s1 it p L = Some s2 →
  Fill s2 ∧ Exact s2.
Proof.
  intros HI HF HC HL Hp Hhit Hmiss Hw.
  destruct (walk_carried (Z.to_nat (L - 10)) 10 s a p s1 it)
    as (HF1 & Hsp & Hres); [lia|lia|done|done|lia|done| |done|].
  { intros b Hb. apply Hp. lia. }
  unfold finalize, MAX_SIZE_BITS.
  destruct (Z.ltb_spec L 24) as [Hlt|Hge].
  - destruct (Hhit Hlt) as [Hnz Hfull].
    destruct Hres as [(_ & _ & b & Hb & Hnf)|HC1].
    { exfalso. apply Hnf, Hfull. lia. }
    destruct (vset (entries_list s1) p it) as [l|] eqn:Hl; [|done].
    intros [= <-].
    assert (Hs2 : ∀ j, slot l j = if decide (p = j) then it
                                   else slot (entries_list s1) j).
    { intros j. apply (slot_vset _ _ _ _ _ Hl). }
    pose proof (car_nz _ _ _ HC1) as Hit.
    split.
    + eapply FillP_ext; [| |exact HF1]; [|done].
      intros i. unfold nzs. cbn [entries_list]. rewrite Hs2.
      case_decide; [|done]. subst i. rewrite Hsp. done.
    + intros a' i. cbn [entries_map entries_list]. rewrite Hs2.
      rewrite lookup_insert. case_decide as Ha.
      * subst a'. split.
        -- intros [= <-]. by rewrite decide_True.
        -- intros [_ Hsl]. case_decide; [by subst|].
           by apply (car_out _ _ _ HC1) in Hsl.
      * rewrite (car_map _ _ _ HC1) by done. case_decide; [|naive_solver].
        subst i. naive_solver.
  - assert (L = 24) as -> by lia. specialize (Hmiss eq_refl).
    rewrite Hmiss in Hsp.
    destruct Hres as [(-> & Hr & _)|HC1].
    + simpl. intros [= <-]. split; [done|].
      intros a' i. rewrite (Hr a' i). split; [by intros (? & ? & ?)|].
      intros [Ha Hsl]. split; [done|]. split; [done|].
      intros ->. congruence.
    + pose proof (car_nz _ _ _ HC1) as Hit.
      destruct (Z.eqb_spec it 0); [done|]. simpl. intros [= <-].
      split; [exact HF1|].
      intros a' i. cbn [entries_map entries_list].
      rewrite lookup_delete. case_decide as Ha.
      * subst a'. split; [done|]. intros [_ Hsl]. exfalso.
        destruct (Z.eq_dec i p) as [->|Hi]; [congruence|].
        by apply (car_out _ _ _ HC1) in Hsl.
      * rewrite (car_map _ _ _ HC1) by done. split; [by intros (? & ? & ?)|].
        intros [Ha' Hsl]. split; [done|]. split; [done|].
        intros ->. congruence.
Qed.

Lemma reference_exact s a s' r :
  I0 s → Fill s → Exact s → a ≠ 0 →
  reference s a = Some (s', r) → Fill s' ∧ Exact s'.
Proof.
  intros HI HF HE Ha. unfold reference. rewrite (allocate_id _ s HI).
  unfold MIN_SIZE_BITS, MAX_SIZE_BITS.
  destruct (entries_map s !! a) as [pos|] eqn:Hm.
  - destruct (Z.ltb_spec pos MIN_SIZE) as [Hlt|Hge]; [by intros [= <- <-]|].
    pose proof (inv_pos _ _ HI _ _ Hm) as Hpos.
    destruct (log2_position pos ltac:(lia)) as [-> HL].
    apply HE in Hm as Hsl. destruct Hsl as [_ Hsl].
    assert (nzs s pos) as Hnz by (unfold nzs; congruence).
    destruct (fill_pooled _ _ HF pos Hnz) as (b & Hb & Hin).
    assert (10 < b) as Hb10.
    { destruct (Z.eq_dec b 10) as [->|]; [|lia].
      apply (proj1 (in_pool_first pos)) in Hin.
      rewrite MIN_SIZE_eq in Hge. lia. }
    pose proof (in_pool_log2 b pos ltac:(lia) Hin) as Hlog.
    destruct (walk (Z.to_nat (Z.log2 pos - 10)) 10 s a) as [[s1 it]|] eqn:Hw;
      [|done]. simpl.
    destruct (finalize s1 it pos (Z.log2 pos)) as [s2|] eqn:Hfin; [|done].
    simpl. intros [= <- <-].
    apply (promote_exact s a pos (Z.log2 pos) s1 it s2 HI HF);
      [|lia| | |lia|done|done].
    + split; [| |done].
      * intros a' i Ha'. rewrite (HE a' i). split; [|by intros (? & ? & ?)].
        intros [? Hs]. split; [done|]. split; [done|]. intros ->. congruence.
      * intros i Hi Hs. apply Hi.
        assert (entries_map s !! a = Some i) as H1 by (by apply HE).
        congruence.
    + intros b' Hb' Hin'.
      pose proof (in_pool_disjoint b b' pos ltac:(lia) ltac:(lia) Hin Hin').
      lia.
    + intros _. split; [done|]. intros b' Hb'.
      apply (full_below (nzs s) (cursor s) b pos HF); [lia|done|done|lia].
  - destruct (walk (Z.to_nat (24 - 10)) 10 s a) as [[s1 it]|] eqn:Hw; [|done].
    simpl.
    destruct (finalize s1 it MAX_SIZE 24) as [s2|] eqn:Hfin; [|done].
    simpl. intros [= <- <-].
    assert (Hout : ∀ b, 10 ≤ b < 24 → ¬ in_pool b MAX_SIZE).
    { intros b Hb Hin. apply in_pool_bounds in Hin; [|done].
      rewrite MAX_SIZE_eq in Hin. lia. }
    assert (Hz : slot (entries_list s) MAX_SIZE = 0).
    { destruct (Z.eq_dec (slot (entries_list s) MAX_SIZE) 0) as [|Hn]; [done|].
      destruct (fill_pooled _ _ HF MAX_SIZE Hn) as (b & Hb & Hin).
      by apply Hout in Hin. }
    apply (promote_exact s a MAX_SIZE 24 s1 it s2 HI HF);
      [|lia|done|lia|done|done|done].
    split; [| |done].
    + intros a' i Ha'. rewrite (HE a' i). split; [|by intros (? & ? & ?)].
      intros [? Hs]. split; [done|]. split; [done|]. intros ->. congruence.
    + intros i Hi Hs.
      assert (entries_map s !! a = Some i) as H1 by (by apply HE).
      congruence.
Qed.

Lemma Fill_init : Fill (allocate init).
Proof.
  split.
  - intros bin Hb. right. intros off Ho. unfold nzs.
    change (slot _ _) with 0.
    assert (cursor (allocate init) bin = 0) as ->.
    { unfold cursor.
      change (replace_position (allocate init))
        with (replicate (Z.to_nat MAX_SIZE_BITS) 0).
      rewrite lookup_replicate_2; [done|]. unfold MAX_SIZE_BITS. lia. }
    lia.
  - intros bin i _ _ Hn. by destruct Hn.
  - intros i Hn. by destruct Hn.
Qed.

Lemma Exact_init : Exact init ∧ Exact (allocate init).
Proof.
  split; intros a i; (split; [done|]); intros [Ha Hs]; by destruct Ha.
Qed.

(** Along a history of non-zero addresses the position map is exact. *)
Lemma run_Exact l :
  Forall (λ a, a ≠ 0) l →
  ∃ s r, run l = Some (s, r) ∧ Reach0 (λ a, a ∈ l) s ∧
         Fill (allocate s) ∧ Exact s.
Proof.
  induction l as [|a l IH] using rev_ind; intros Hl.
  - destruct (run_Reach0 []) as (s & r & Hrun & HR).
    exists s, r. injection Hrun as <- <-.
    split; [done|]. split; [done|]. split; [apply Fill_init|apply Exact_init].
  - apply Forall_app in Hl as [Hl Ha]. apply Forall_inv in Ha.
    destruct (IH Hl) as (s & r & Hrun & [HI Hinit] & HF & HE).
    destruct (run_Reach0 (l ++ [a])) as (s' & r' & Hrun' & HR').
    exists s', r'. split; [done|]. split; [done|].
    rewrite run_snoc, Hrun in Hrun'. simpl in Hrun'.
    assert (reference s a = reference (allocate s) a) as Heq.
    { unfold reference. by rewrite (allocate_id _ (allocate s) HI). }
    rewrite Heq in Hrun'.
    assert (I0 (allocate s)) as HI0 by (eapply Inv0_mono; [|done]; done).
    assert (Exact (allocate s)) as HE'.
    { destruct (Z.eq_dec (vsize (entries_list s)) 0) as [Hz|Hnz].
      - rewrite (Hinit Hz). apply Exact_init.
      - unfold allocate. by rewrite (proj2 (Z.eqb_neq _ _) Hnz). }
    destruct (reference_exact _ _ _ _ HI0 HF HE' Ha Hrun') as [HF' HE''].
    destruct (reference_inv0 (λ _, True) (allocate s) a HI0 I)
      as (s2 & r2 & Href & HI2 & _).
    rewrite Hrun' in Href. injection Href as <- <-.
    rewrite (allocate_id _ s' HI2). done.
Qed.

End ResidencyFacts.

(** ** [RD_LogRR]: the properties of the specification *)

Module LogRRSpec.
Import Bits BitsFacts LogRR LogRRFacts PoolFacts ResidencyFacts.

Lemma cursor_allocate s bin : cursor (allocate s) bin = cursor s bin.
Proof. unfold allocate, cursor. by destruct (_ =? _). Qed.

Lemma reference_allocate K s a :
  Inv0 K (allocate s) → reference s a = reference (allocate s) a.
Proof. intros HI. unfold reference. by rewrite (allocate_id _ (allocate s) HI). Qed.

(** A state reached with a recorded address is allocated. *)
Lemma Reach0_allocated K s a i :
  Reach0 K s → entries_map s !! a = Some i → Inv0 K s.
Proof.
  intros [HI Hinit] Hm.
  destruct (Z.eq_dec (vsize (entries_list s)) 0) as [Hz|Hnz].
  - rewrite (Hinit Hz) in Hm. done.
  - unfold allocate in HI. by rewrite (proj2 (Z.eqb_neq _ _) Hnz) in HI.
Qed.



(** C6. After every history of references to non-zero addresses the
    position map holds exactly the addresses resident in the slots, each
    mapped to the slot that holds it, and no two addresses are mapped to
    the same slot. *)
Theorem position_map_exact history :
  Forall (λ a, a ≠ 0) history →
  ∃ s r, run history = Some (s, r) ∧
    dom (entries_map s) = residents (entries_list s) ∧
    (∀ a i, entries_map s !! a = Some i → vget (entries_list s) i = Some a) ∧
    (∀ a b i, entries_map s !! a = Some i → entries_map s !! b = Some i →
              a = b).
Proof.
  intros Hnz. destruct (run_Exact history Hnz) as (s & r & Hrun & HR & _ & HE).
  exists s, r. split; [done|]. split; [|split].
  - apply set_eq. intros a. rewrite elem_of_dom. unfold residents.
    rewrite elem_of_map_img. split.
    + intros [i Hi]. apply HE in Hi as [Ha Hs]. exists i.
      apply map_lookup_filter_Some. split; [|done].
      unfold slot in Hs. destruct (vdata (entries_list s) !! i); simpl in Hs;
        congruence.
    + intros [i Hi]. apply map_lookup_filter_Some in Hi as [Hi Ha].
      exists i. apply HE. split; [done|]. unfold slot. by rewrite Hi.
  - intros a i Hm. pose proof (Reach0_allocated _ _ _ _ HR Hm) as HI.
    pose proof (inv_pos _ _ HI _ _ Hm).
    rewrite vget_Some by (rewrite (inv_size _ _ HI), MAX_SIZE_eq; lia).
    apply HE in Hm as [_ ->]. done.
  - intros a b i Ha Hb. apply HE in Ha as [_ <-]. by apply HE in Hb as [_ <-].
Qed.

Lemma position_map_exact_witness :
  ∃ s r, run [5; 9; 5] = Some (s, r) ∧
         dom (entries_map s) = residents (entries_list s).
Proof.
  destruct (position_map_exact [5; 9; 5]) as (s & r & Hrun & Hdom & _).
  - repeat constructor; discriminate.
  - exists s, r. split; [exact Hrun|exact Hdom].
Defined.


(** C10. When the address is recorded at a position below [MIN_SIZE], the
    call returns [MIN_SIZE_BITS] and the state after the call is the state
    before it. *)
Theorem hot_hit_unchanged history address s r position :
  run history = Some (s, r) →
  entries_map s !! address = Some position → position < MIN_SIZE →
  reference s address = Some (s, MIN_SIZE_BITS).
Proof.
  intros Hrun Hm Hlt.
  destruct (run_Reach0 history) as (s0 & r0 & Hrun0 & HR).
  rewrite Hrun in Hrun0. injection Hrun0 as <- <-.
  pose proof (Reach0_allocated _ _ _ _ HR Hm) as HI.
  unfold reference. rewrite (allocate_id _ s HI), Hm.
  by rewrite (proj2 (Z.ltb_lt _ _) Hlt).
Qed.

Lemma hot_hit_unchanged_witness :
  ∃ s r, run [7] = Some (s, r) ∧ reference s 7 = Some (s, MIN_SIZE_BITS).
Proof.
  eexists _, _. split; [reflexivity|].
  eapply (hot_hit_unchanged [7] 7 _ _ 0); reflexivity.
Defined.

End LogRRSpec.

(** ** [RD_Treap]: trees represented in the heap *)

Module TreapFacts.
Import Bits BitsFacts Treap.

(** The shape of the nodes reachable from a pointer: each node with its
    pointer and its address. *)
Inductive tree : Type :=
  | Leaf
  | T (p : positive) (a : Z) (l r : tree).

Definition rootp (t : tree) : option positive :=
  match t with Leaf => None | T p _ _ _ => Some p end.

Fixpoint tsize (t : tree) : Z :=
  match t with Leaf => 0 | T _ _ l r => 1 + tsize l + tsize r end.

Fixpoint height (t : tree) : nat :=
  match t with Leaf => O | T _ _ l r => S (height l `max` height r) end.

Fixpoint ptrs (t : tree) : list positive :=
  match t with Leaf => [] | T p _ l r => p :: ptrs l ++ ptrs r end.

Fixpoint addrs (t : tree) : list Z :=
  match t with Leaf => [] | T _ a l r => a :: addrs l ++ addrs r end.

(** The node expected at the root of [T p a l r] under parent [par]. *)
Definition cell (par : option positive) (a : Z) (l r : tree) : Node :=
  mkNode a par (rootp l) (rootp r) (wrap64 (1 + tsize l + tsize r)).

(** The heap holds the tree [t] below parent [par]. *)
Fixpoint repr (h : gmap positive Node) (par : option positive) (t : tree)
  : Prop :=
  match t with
  | Leaf => True
  | T p a l r =>
      h !! p = Some (cell par a l r) ∧ repr h (Some p) l ∧ repr h (Some p) r
  end.

Lemma tsize_nonneg t : 0 ≤ tsize t.
Proof. induction t; simpl; lia. Qed.

Lemma tsize_length t : tsize t = Z.of_nat (length (ptrs t)).
Proof.
  induction t as [|p a l IHl r IHr]; [done|].
  simpl. rewrite length_app. lia.
Qed.

Lemma length_addrs t : length (addrs t) = length (ptrs t).
Proof.
  induction t as [|p a l IHl r IHr]; [done|].
  simpl. rewrite !length_app. lia.
Qed.

Lemma height_le_size t : (height t ≤ length (ptrs t))%nat.
Proof.
  induction t as [|p a l IHl r IHr]; [done|].
  simpl. rewrite length_app. lia.
Qed.

Lemma rootp_ptrs t q : rootp t = Some q → q ∈ ptrs t.
Proof. destruct t; [done|]. intros [= ->]. simpl. set_solver. Qed.

Lemma repr_ext h h' par t :
  (∀ q, q ∈ ptrs t → h' !! q = h !! q) → repr h par t → repr h' par t.
Proof.
  revert par. induction t as [|p a l IHl r IHr]; intros par Hq; [done|].
  simpl in *. intros (Hp & Hl & Hr). split; [|split].
  - rewrite Hq; [done|set_solver].
  - apply IHl; [|done]. intros q Hin. apply Hq. set_solver.
  - apply IHr; [|done]. intros q Hin. apply Hq. set_solver.
Qed.

Lemma repr_insert h par t k v :
  k ∉ ptrs t → repr h par t → repr (<[k := v]> h) par t.
Proof.
  intros Hk. apply repr_ext. intros q Hq.
  apply lookup_insert_ne. intros ->. done.
Qed.

(** The pointer written by [setLeft]/[setRight] into the child. *)
Definition set_parent (o par : option positive) (h : gmap positive Node)
  : option (gmap positive Node) :=
  match o with
  | Some q => upd q (with_parent par) h
  | None => Some h
  end.

Definition reparent (t : tree) (par : option positive)
    (h : gmap positive Node) : gmap positive Node :=
  match t with
  | Leaf => h
  | T p a l r => <[p := cell par a l r]> h
  end.

Lemma set_parent_repr h par par' t :
  repr h par t → set_parent (rootp t) par' h = Some (reparent t par' h).
Proof.
  destruct t as [|p a l r]; [done|]. simpl. intros (Hp & _).
  unfold upd. rewrite Hp. done.
Qed.

Lemma repr_reparent h par par' t :
  NoDup (ptrs t) → repr h par t → repr (reparent t par' h) par' t.
Proof.
  destruct t as [|p a l r]; [done|]. simpl.
  intros Hnd (Hp & Hl & Hr).
  apply NoDup_cons in Hnd as [Hnp Hnd].
  split; [by rewrite lookup_insert_eq|].
  split; apply repr_insert; set_solver.
Qed.

Lemma reparent_lookup_ne t par h q :
  rootp t ≠ Some q → reparent t par h !! q = h !! q.
Proof.
  destruct t as [|p a l r]; [done|]. simpl. intros Hq.
  apply lookup_insert_ne. congruence.
Qed.

Lemma reparent_frame t par h q :
  q ∉ ptrs t → reparent t par h !! q = h !! q.
Proof.
  intros Hq. apply reparent_lookup_ne. intros Hr.
  by apply rootp_ptrs in Hr.
Qed.

Lemma count_of_repr h par t :
  repr h par t → count_of h (rootp t) = Some (wrap64 (tsize t)).
Proof.
  destruct t as [|p a l r]; [done|]. simpl. intros (Hp & _).
  by rewrite Hp.
Qed.

Lemma setLeft_eval h this n child :
  h !! this = Some n →
  setLeft this child h
  = set_parent child (Some this) (<[this := with_left child n]> h).
Proof. intros H. unfold setLeft, upd. rewrite H. by destruct child. Qed.

Lemma setRight_eval h this n child :
  h !! this = Some n →
  setRight this child h
  = set_parent child (Some this) (<[this := with_right child n]> h).
Proof. intros H. unfold setRight, upd. rewrite H. by destruct child. Qed.

Lemma updateCount_eval h this n cl cr :
  h !! this = Some n →
  count_of h (_left n) = Some cl → count_of h (_right n) = Some cr →
  updateCount 0 this false h
  = Some (<[this := with_count (wrap64 (wrap64 (cl + 1) + cr)) n]> h).
Proof. intros H Hl Hr. simpl. rewrite H. simpl. rewrite Hl, Hr. done. Qed.

Lemma wrap_count a b : wrap64 (wrap64 (wrap64 a + 1) + wrap64 b) = wrap64 (1 + a + b).
Proof.
  rewrite wrap64_add_l, wrap64_add_r.
  replace (wrap64 a + 1 + b) with (wrap64 a + (1 + b)) by lia.
  rewrite wrap64_add_l. f_equal. lia.
Qed.

(** *** [stealChild] and [insertAtRoot] on trees *)

(** What [stealChild] leaves of the tree of [fromNode], and the subtree it
    hands over. *)
Fixpoint steal (t : tree) : tree * tree :=
  match t with
  | Leaf => (Leaf, Leaf)
  | T p a l r =>
      match r with
      | Leaf => (T p a Leaf Leaf, l)
      | T _ _ _ _ => (T p a (steal l).1 (steal l).2, r)
      end
  end.

Definition insert_root (x : positive) (a : Z) (t : tree) : tree :=
  T x a (steal t).1 (steal t).2.

Lemma steal_rootp t : rootp (steal t).1 = rootp t.
Proof. destruct t as [|p a l [|]]; done. Qed.

Lemma steal_ptrs t : ptrs (steal t).1 ++ ptrs (steal t).2 ≡ₚ ptrs t.
Proof.
  induction t as [|p a l IHl r IHr]; [done|].
  destruct r as [|rp ra rl rr]; simpl in *.
  - by rewrite app_nil_r.
  - by rewrite IHl.
Qed.

Lemma steal_addrs t : addrs (steal t).1 ++ addrs (steal t).2 = addrs t.
Proof.
  induction t as [|p a l IHl r IHr]; [done|].
  destruct r as [|rp ra rl rr]; simpl in *.
  - by rewrite app_nil_r.
  - by rewrite IHl.
Qed.

Lemma steal_tsize t : tsize (steal t).1 + tsize (steal t).2 = tsize t.
Proof.
  induction t as [|p a l IHl r IHr]; [done|].
  destruct r as [|rp ra rl rr]; simpl in *; lia.
Qed.

Lemma steal_in_l t q : q ∈ ptrs (steal t).1 → q ∈ ptrs t.
Proof. rewrite <- (steal_ptrs t). set_solver. Qed.

Lemma steal_in_r t q : q ∈ ptrs (steal t).2 → q ∈ ptrs t.
Proof. rewrite <- (steal_ptrs t). set_solver. Qed.

Lemma steal_NoDup t :
  NoDup (ptrs t) → NoDup (ptrs (steal t).1 ++ ptrs (steal t).2).
Proof. by rewrite steal_ptrs. Qed.

#[local] Arguments updateCount : simpl never.
#[local] Arguments stealChild : simpl never.

Lemma stealChild_unfold fuel this fromNode h :
  stealChild fuel this fromNode h =
  fn ← h !! fromNode;
  h3 ← match _right fn with
       | Some r =>
           h1 ← setRight this (Some r) h;
           h2 ← setRight fromNode None h1;
           fn2 ← h2 !! fromNode;
           match _left fn2 with
           | Some l =>
               match fuel with
               | O => None
               | S f => stealChild f fromNode l h2
               end
           | None => Some h2
           end
       | None =>
           h1 ← setRight this (_left fn) h;
           setLeft fromNode None h1
       end;
  h4 ← updateCount 0 fromNode false h3;
  updateCount 0 this false h4.
Proof. by destruct fuel. Qed.

Ltac nodup_split H :=
  repeat match type of H with
  | NoDup (_ :: _) =>
      let Hn := fresh "Hnin" in apply NoDup_cons in H as [Hn H]
  | NoDup (_ ++ _) =>
      let H1 := fresh "Hnd" in let H2 := fresh "Hdisj" in
      apply NoDup_app in H as (H1 & H2 & H)
  end.

Ltac neq := solve [ done | congruence | set_solver ].

(** Resolve the lookups through the stores made so far. *)
Ltac look :=
  repeat first
    [ rewrite lookup_insert_eq
    | rewrite lookup_insert_ne by neq
    | rewrite reparent_frame by neq
    | rewrite reparent_lookup_ne by neq ].

(** Compute the record updates. *)
Ltac recs :=
  unfold with_count, with_left, with_right, with_parent, cell;
  cbn [_address _parent _left _right _count].

Lemma stealChild_spec t : ∀ fuel this h nthis f,
  rootp t = Some f → (height t ≤ S fuel)%nat →
  h !! this = Some nthis → _left nthis = Some f →
  repr h (Some this) t → this ∉ ptrs t → NoDup (ptrs t) →
  ∃ h', stealChild fuel this f h = Some h' ∧
    h' !! this = Some (mkNode (_address nthis) (_parent nthis) (Some f)
                         (rootp (steal t).2)
                         (wrap64 (1 + tsize (steal t).1 + tsize (steal t).2))) ∧
    repr h' (Some this) (steal t).1 ∧ repr h' (Some this) (steal t).2 ∧
    (∀ q, q ≠ this → q ∉ ptrs t → h' !! q = h !! q).
Proof.
  induction t as [|f' fa fl IHl fr _]; intros fuel this h nthis f Hroot Hfuel
    Hthis Hleft Hrepr Hnin Hnd; [done|].
  injection Hroot as ->. simpl in Hrepr. destruct Hrepr as (Hf & Hfl & Hfr).
  destruct nthis as [ta tp tl tr tc]. simpl in Hleft. subst tl.
  simpl in Hnin. simpl in Hnd. nodup_split Hnd.
  assert (Hft : f ≠ this) by set_solver.
  assert (Htl : this ∉ ptrs fl) by set_solver.
  assert (Hfl' : f ∉ ptrs fl) by set_solver.
  rewrite stealChild_unfold. rewrite Hf. cbn [mbind option_bind cell _right _left].
  destruct fr as [|r ra rl rr].
  - (* no right child: the left child is handed over *)
    cbn [rootp]. rewrite (setRight_eval _ _ _ _ Hthis).
    rewrite (set_parent_repr _ (Some f))
      by (apply repr_insert; [done|exact Hfl]).
    cbn [mbind option_bind with_right _address _parent _left _right _count].
    set (h2 := reparent fl (Some this) _).
    assert (H2f : h2 !! f = Some (cell (Some this) fa fl Leaf)).
    { unfold h2. by look. }
    rewrite (setLeft_eval _ _ _ _ H2f). cbn [set_parent mbind option_bind].
    set (h3 := <[f := _]> h2).
    assert (H3f : h3 !! f = Some (mkNode fa (Some this) None None
                                    (wrap64 (1 + tsize fl + 0)))).
    { unfold h3. by look. }
    rewrite (updateCount_eval _ _ _ 0 0 H3f) by done.
    cbn [mbind option_bind with_count _address _parent _left _right _count].
    set (h4 := <[f := _]> h3).
    assert (Hrfl : repr h4 (Some this) fl).
    { unfold h4, h3, h2. do 2 (apply repr_insert; [done|]).
      apply (repr_reparent _ (Some f)); [done|]. by apply repr_insert. }
    assert (H4t : h4 !! this = Some (mkNode ta tp (Some f) (rootp fl) tc)).
    { unfold h4, h3, h2. by look. }
    rewrite (updateCount_eval _ _ _ (wrap64 1) (wrap64 (tsize fl)) H4t);
      [|by unfold h4; cbn; look|by apply (count_of_repr _ (Some this))].
    eexists. split; [done|]. cbn [steal fst snd tsize rootp].
    split; [|split; [|split]].
    + look. recs. do 2 f_equal. rewrite wrap_count. f_equal; lia.
    + cbn [repr]. split; [|done]. unfold h4. look. reflexivity.
    + by apply repr_insert.
    + intros q Hq Hqn. unfold h4, h3, h2. by look.
  - (* a right child: it is handed over, and the left child gives one of
       its own children to become the new right child *)
    cbn [rootp]. rewrite (setRight_eval _ _ _ _ Hthis).
    simpl in Hfr. destruct Hfr as (Hr & Hrl & Hrr).
    simpl in Hnd. nodup_split Hnd.
    assert (Hrt : r ≠ this) by set_solver.
    assert (Hrf : r ≠ f) by set_solver.
    cbn [set_parent]. unfold upd at 1. look. rewrite Hr.
    cbn [mbind option_bind with_right with_parent cell _address _parent
           _left _right _count].
    set (h2 := <[r := _]> _).
    assert (H2f : h2 !! f = Some (cell (Some this) fa fl (T r ra rl rr))).
    { unfold h2. by look. }
    rewrite (setRight_eval _ _ _ _ H2f). cbn [set_parent mbind option_bind].
    set (h3 := <[f := _]> h2).
    assert (H3f : h3 !! f = Some (mkNode fa (Some this) (rootp fl) None
                   (wrap64 (1 + tsize fl + tsize (T r ra rl rr))))).
    { unfold h3. by look. }
    rewrite H3f. cbn [mbind option_bind _left].
    assert (H3t : h3 !! this = Some (mkNode ta tp (Some f) (Some r) tc)).
    { unfold h3, h2. by look. }
    assert (H3r : h3 !! r = Some (cell (Some this) ra rl rr)).
    { unfold h3, h2. by look. }
    assert (Hrfl : repr h3 (Some f) fl).
    { unfold h3, h2. do 3 (apply repr_insert; [neq|]). done. }
    assert (∃ h4 c4,
              match rootp fl with
              | Some l => match fuel with
                          | O => None
                          | S f0 => stealChild f0 f l h3
                          end
              | None => Some h3
              end = Some h4 ∧
              h4 !! f = Some (mkNode fa (Some this) (rootp fl)
                                (rootp (steal fl).2) c4) ∧
              repr h4 (Some f) (steal fl).1 ∧ repr h4 (Some f) (steal fl).2 ∧
              (∀ q, q ≠ f → q ∉ ptrs fl → h4 !! q = h3 !! q))
      as (h4 & c4 & -> & H4f & Hr1 & Hr2 & Hfr4).
    { destruct fl as [|l la ll lr].
      - exists h3, (wrap64 (1 + tsize Leaf + tsize (T r ra rl rr))).
        by repeat split.
      - destruct fuel as [|fuel]; [simpl in Hfuel; lia|].
        destruct (IHl fuel f h3 _ l eq_refl ltac:(simpl in *; lia) H3f eq_refl
                    Hrfl Hfl' Hnd0) as (h4 & Hs & H4f & Hr1 & Hr2 & Hfr4).
        exists h4, (wrap64 (1 + tsize (steal (T l la ll lr)).1
                              + tsize (steal (T l la ll lr)).2)).
        by repeat split. }
    cbn [mbind option_bind].
    assert (Hs1t : this ∉ ptrs (steal fl).1)
      by (intros Hin; by apply steal_in_l in Hin).
    assert (Hs2t : this ∉ ptrs (steal fl).2)
      by (intros Hin; by apply steal_in_r in Hin).
    assert (Hs1f : f ∉ ptrs (steal fl).1)
      by (intros Hin; by apply steal_in_l in Hin).
    assert (Hs2f : f ∉ ptrs (steal fl).2)
      by (intros Hin; by apply steal_in_r in Hin).
    rewrite (updateCount_eval _ _ _ (wrap64 (tsize (steal fl).1))
               (wrap64 (tsize (steal fl).2)) H4f);
      [|cbn [_left]; rewrite <- steal_rootp;
        by apply (count_of_repr _ (Some f))
       |by apply (count_of_repr _ (Some f))].
    cbn [mbind option_bind]. rewrite wrap_count. recs.
    set (h5 := <[f := _]> h4).
    assert (H5t : h5 !! this = Some (mkNode ta tp (Some f) (Some r) tc)).
    { unfold h5. look. rewrite Hfr4 by done. done. }
    assert (H5r : h5 !! r = Some (cell (Some this) ra rl rr)).
    { unfold h5. look. rewrite Hfr4 by neq. done. }
    rewrite (updateCount_eval _ _ _
               (wrap64 (1 + tsize (steal fl).1 + tsize (steal fl).2))
               (wrap64 (1 + tsize rl + tsize rr)) H5t);
      [|by unfold h5; cbn; look|by cbn; rewrite H5r].
    eexists. split; [done|].
    cbn [steal fst snd tsize rootp].
    split; [|split; [|split]].
    + look. recs. do 2 f_equal. rewrite wrap_count. f_equal; lia.
    + cbn [repr]. split; [|split].
      * unfold h5. look. unfold cell. by rewrite steal_rootp.
      * unfold h5. by do 2 (apply repr_insert; [done|]).
      * unfold h5. by do 2 (apply repr_insert; [done|]).
    + cbn [repr]. split; [|split].
      * by look.
      * unfold h5. do 2 (apply repr_insert; [neq|]).
        apply (repr_ext h3); [intros q Hq; apply Hfr4; neq|].
        unfold h3, h2. by do 3 (apply repr_insert; [neq|]).
      * unfold h5. do 2 (apply repr_insert; [neq|]).
        apply (repr_ext h3); [intros q Hq; apply Hfr4; neq|].
        unfold h3, h2. by do 3 (apply repr_insert; [neq|]).
    + intros q Hq Hqn. unfold h5. look. rewrite Hfr4 by neq.
      unfold h3, h2. by look.
Qed.

Lemma repr_frame_reparent h par par' t t' :
  (∀ q, q ∈ ptrs t → q ∉ ptrs t') → repr h par t →
  repr (reparent t' par' h) par t.
Proof.
  intros Hd. apply repr_ext. intros q Hq. apply reparent_frame. by apply Hd.
Qed.

(** Carry a representation through the stores made so far. *)
Ltac rframe :=
  repeat first
    [ apply repr_insert; [neq|]
    | apply repr_frame_reparent; [neq|] ].

Lemma insertAtRoot_spec t fuel x h nx rp :
  rootp t = Some rp → (height t ≤ S fuel)%nat →
  h !! x = Some nx → repr h None t → x ∉ ptrs t → NoDup (ptrs t) →
  ∃ h', insertAtRoot fuel x (Some rp) h = Some h' ∧
    repr h' None (insert_root x (_address nx) t) ∧
    (∀ q, q ≠ x → q ∉ ptrs t → h' !! q = h !! q).
Proof.
  intros Hroot Hfuel Hx Hrepr Hnin Hnd.
  unfold insertAtRoot, upd. rewrite Hx. cbn [mbind option_bind].
  erewrite setLeft_eval by by look.
  rewrite <- Hroot.
  rewrite (set_parent_repr _ None) by by rframe.
  cbn [mbind option_bind]. rewrite Hroot. cbn [mbind option_bind].
  destruct nx as [a xp xl xr xc]. recs.
  set (h2 := reparent t (Some x) _).
  assert (x ≠ rp) as Hxr.
  { intros ->. by apply rootp_ptrs in Hroot. }
  destruct (stealChild_spec t fuel x h2 (mkNode a None (Some rp) xr xc) rp)
    as (h' & Hs & Hx' & Hr1 & Hr2 & Hfr); [done|done| |done| |done|done|].
  { unfold h2. by look. }
  { unfold h2. apply (repr_reparent _ None); [done|]. by rframe. }
  exists h'. split; [done|]. split.
  - unfold insert_root. cbn [repr _address]. split; [|done].
    rewrite Hx'. unfold cell. by rewrite steal_rootp, Hroot.
  - intros q Hq Hqn. rewrite Hfr by done. unfold h2. by look.
Qed.

(** *** Contexts: the path from a node up to the root *)

Inductive frame : Type :=
  | FL (p : positive) (a : Z) (s : tree)   (* the hole is the left child *)
  | FR (p : positive) (a : Z) (s : tree).  (* the hole is the right child *)

Definition fptr (f : frame) : positive :=
  match f with FL p _ _ | FR p _ _ => p end.

Definition fill (f : frame) (t : tree) : tree :=
  match f with FL p a s => T p a t s | FR p a s => T p a s t end.

(** Frames are listed from the hole outwards. *)
Fixpoint plug (c : list frame) (t : tree) : tree :=
  match c with [] => t | f :: c' => plug c' (fill f t) end.

Definition cpar (c : list frame) : option positive :=
  match c with [] => None | f :: _ => Some (fptr f) end.

Fixpoint cptrs (c : list frame) : list positive :=
  match c with
  | [] => []
  | FL p _ s :: c' | FR p _ s :: c' => p :: ptrs s ++ cptrs c'
  end.

(** The heap holds the context [c] around a hole whose subtree has root
    pointer [o] and [sz] nodes. *)
Fixpoint repr_ctx (h : gmap positive Node) (c : list frame)
    (o : option positive) (sz : Z) : Prop :=
  match c with
  | [] => True
  | FL p a s :: c' =>
      h !! p = Some (mkNode a (cpar c') o (rootp s) (wrap64 (1 + sz + tsize s)))
      ∧ repr h (Some p) s ∧ repr_ctx h c' (Some p) (1 + sz + tsize s)
  | FR p a s :: c' =>
      h !! p = Some (mkNode a (cpar c') (rootp s) o (wrap64 (1 + tsize s + sz)))
      ∧ repr h (Some p) s ∧ repr_ctx h c' (Some p) (1 + tsize s + sz)
  end.

Lemma repr_plug h c : ∀ t,
  repr h None (plug c t) ↔ repr h (cpar c) t ∧ repr_ctx h c (rootp t) (tsize t).
Proof.
  induction c as [|f c IH]; intros t; simpl; [naive_solver|].
  rewrite IH. destruct f as [p a s|p a s]; simpl; unfold cell; naive_solver.
Qed.

Lemma ptrs_plug c : ∀ t, ptrs (plug c t) ≡ₚ ptrs t ++ cptrs c.
Proof.
  induction c as [|f c IH]; intros t; simpl; [by rewrite app_nil_r|].
  rewrite IH. destruct f as [p a s|p a s]; simpl.
  - rewrite <- !app_assoc. by rewrite <- Permutation_middle.
  - rewrite <- !app_assoc. rewrite <- !Permutation_middle. f_equiv.
    rewrite !app_assoc. f_equiv. apply Permutation_app_comm.
Qed.

Lemma rootp_plug c t t' : c ≠ [] → rootp (plug c t) = rootp (plug c t').
Proof.
  revert t t'. induction c as [|f c IH]; intros t t' Hc; [done|].
  simpl. destruct c as [|g c]; [by destruct f|]. by apply IH.
Qed.

Lemma rootp_plug_Some c t : c ≠ [] → is_Some (rootp (plug c t)).
Proof.
  revert t. induction c as [|f c IH]; intros t Hc; [done|].
  simpl. destruct c as [|g c]; [by destruct f; eexists|]. by apply IH.
Qed.

Lemma repr_ctx_ext h h' c o sz :
  (∀ q, q ∈ cptrs c → h' !! q = h !! q) →
  repr_ctx h c o sz → repr_ctx h' c o sz.
Proof.
  revert o sz. induction c as [|f c IH]; intros o sz Hq; [done|].
  destruct f as [p a s|p a s]; simpl in *; intros (Hp & Hs & Hc);
    (split; [rewrite Hq; [done|set_solver]|]);
    (split; [apply (repr_ext h); [intros; apply Hq; set_solver|done]|]);
    (apply IH; [intros; apply Hq; set_solver|done]).
Qed.

Lemma repr_ctx_insert h c o sz k v :
  k ∉ cptrs c → repr_ctx h c o sz → repr_ctx (<[k := v]> h) c o sz.
Proof.
  intros Hk. apply repr_ctx_ext. intros q Hq.
  apply lookup_insert_ne. intros ->. done.
Qed.

Lemma repr_ctx_frame_reparent h c o sz t par :
  (∀ q, q ∈ cptrs c → q ∉ ptrs t) →
  repr_ctx h c o sz → repr_ctx (reparent t par h) c o sz.
Proof.
  intros Hd. apply repr_ctx_ext. intros q Hq. apply reparent_frame.
  by apply Hd.
Qed.

(** *** [updateCount(true)] along the path to the root *)

Lemma updateCount_unfold fuel this recurse h :
  updateCount fuel this recurse h =
  n ← h !! this;
  cl ← count_of h (_left n);
  cr ← count_of h (_right n);
  let h1 := <[this := with_count (wrap64 (wrap64 (cl + 1) + cr)) n]> h in
  if recurse then
    match _parent n with
    | Some q =>
        match fuel with
        | O => None
        | S f => updateCount f q recurse h1
        end
    | None => Some h1
    end
  else Some h1.
Proof. by destruct fuel. Qed.

Lemma wrap_count_l a b : wrap64 (wrap64 (wrap64 a + 1) + b) = wrap64 (1 + a + b).
Proof.
  rewrite wrap64_add_l.
  replace (wrap64 a + 1 + b) with (wrap64 a + (1 + b)) by lia.
  rewrite wrap64_add_l. f_equal. lia.
Qed.

(** After the subtree in the hole changed its size from [sz] to [sz'], the
    recursive update recomputes every count on the path. *)
Lemma updateCount_ctx c : ∀ fuel h o sz sz' p,
  cpar c = Some p → (length c ≤ S fuel)%nat → NoDup (cptrs c) →
  repr_ctx h c o sz → count_of h o = Some (wrap64 sz') →
  ∃ h', updateCount fuel p true h = Some h' ∧ repr_ctx h' c o sz' ∧
        (∀ q, q ∉ cptrs c → h' !! q = h !! q).
Proof.
  induction c as [|f c IH]; intros fuel h o sz sz' p Hp Hlen Hnd Hrepr Hcnt;
    [done|].
  injection Hp as <-.
  rewrite updateCount_unfold.
  destruct f as [p a s|p a s]; simpl in Hrepr, Hnd; cbn [fptr];
    destruct Hrepr as (Hcell & Hs & Hc); nodup_split Hnd;
    rewrite Hcell; cbn [mbind option_bind _left _right _parent];
    rewrite Hcnt, (count_of_repr _ _ _ Hs); cbn [mbind option_bind];
    rewrite wrap_count; recs.
  - set (h1 := <[p := _]> h).
    destruct c as [|g c].
    + exists h1. split; [done|]. split.
      * simpl. split; [by unfold h1; look|]. split; [|done].
        unfold h1. by rframe.
      * intros q Hq. unfold h1. by look.
    + destruct fuel as [|fuel]; [simpl in Hlen; lia|].
      cbn [cpar].
      destruct (IH fuel h1 (Some p) (1 + sz + tsize s) (1 + sz' + tsize s)
                  (fptr g)) as (h' & Hu & Hc' & Hfr);
        [done|simpl in *; lia|done| | |].
      { unfold h1. apply repr_ctx_insert; [neq|done]. }
      { unfold h1. cbn. by look. }
      exists h'. split; [done|]. split.
      * cbn [repr_ctx]. split; [|split; [|done]].
        -- rewrite Hfr by neq. unfold h1. by look.
        -- apply (repr_ext h1); [intros q Hq; apply Hfr; neq|].
           unfold h1. by rframe.
      * intros q Hq. rewrite Hfr by neq. unfold h1. by look.
  - set (h1 := <[p := _]> h).
    destruct c as [|g c].
    + exists h1. split; [done|]. split.
      * simpl. split; [unfold h1; look; first [done|do 3 f_equal; lia]|].
        split; [|done]. unfold h1. by rframe.
      * intros q Hq. unfold h1. by look.
    + destruct fuel as [|fuel]; [simpl in Hlen; lia|].
      cbn [cpar].
      destruct (IH fuel h1 (Some p) (1 + tsize s + sz) (1 + tsize s + sz')
                  (fptr g)) as (h' & Hu & Hc' & Hfr);
        [done|simpl in *; lia|done| | |].
      { unfold h1. apply repr_ctx_insert; [neq|done]. }
      { unfold h1. cbn. look. cbn. first [done|do 2 f_equal; lia]. }
      exists h'. split; [done|]. split.
      * cbn [repr_ctx]. split; [|split; [|done]].
        -- rewrite Hfr by neq. unfold h1. look.
           first [done|do 3 f_equal; lia].
        -- apply (repr_ext h1); [intros q Hq; apply Hfr; neq|].
           unfold h1. by rframe.
      * intros q Hq. rewrite Hfr by neq. unfold h1. by look.
Qed.

(** *** The body of the loop of [moveToRoot] *)

Lemma cptrs_cpar c p : cpar c = Some p → p ∈ cptrs c.
Proof. destruct c as [|[]]; [done|..]; intros [= ->]; simpl; set_solver. Qed.

Lemma length_cptrs c : (length c ≤ length (cptrs c))%nat.
Proof.
  induction c as [|[] c IH]; simpl; [done|..]; rewrite length_app; lia.
Qed.

Lemma length_ptrs_plug c t :
  length (ptrs (plug c t)) = (length (ptrs t) + length (cptrs c))%nat.
Proof. by rewrite ptrs_plug, length_app. Qed.

(** The grandparent's pointer to the rotated subtree is redirected from
    [p] to [x]. *)
Lemma relink_spec c h x p nx sz :
  repr_ctx h c (Some p) sz → h !! x = Some nx →
  x ∉ cptrs c → p ∉ cptrs c → NoDup (cptrs c) →
  ∃ h',
    match cpar c with
    | None => upd x (with_parent None) h
    | Some pp =>
        ppn ← h !! pp;
        if bool_decide (_left ppn = Some p)
        then setLeft pp (Some x) h
        else setRight pp (Some x) h
    end = Some h' ∧
    h' !! x = Some (with_parent (cpar c) nx) ∧
    repr_ctx h' c (Some x) sz ∧
    (∀ q, q ≠ x → q ∉ cptrs c → h' !! q = h !! q).
Proof.
  intros Hc Hx Hxc Hpc Hnd.
  destruct c as [|[pp a s|pp a s] c]; simpl in Hc, Hnd, Hxc, Hpc; cbn [cpar fptr].
  - unfold upd. rewrite Hx. eexists. split; [done|].
    split; [by look|]. split; [done|]. intros q Hq _. by look.
  - destruct Hc as (Hpp & Hs & Hc). nodup_split Hnd.
    rewrite Hpp. cbn [mbind option_bind _left].
    rewrite bool_decide_eq_true_2 by done.
    rewrite (setLeft_eval _ _ _ _ Hpp). cbn [set_parent]. unfold upd.
    look. rewrite Hx. cbn [mbind option_bind].
    eexists. split; [done|]. split; [by look|]. split.
    + cbn [repr_ctx]. split; [by look|]. split; [by rframe|].
      by do 2 (apply repr_ctx_insert; [neq|]).
    + intros q Hq Hqc. by look.
  - destruct Hc as (Hpp & Hs & Hc). nodup_split Hnd.
    rewrite Hpp. cbn [mbind option_bind _left].
    rewrite bool_decide_eq_false_2.
    2:{ intros Hr. apply rootp_ptrs in Hr. set_solver. }
    rewrite (setRight_eval _ _ _ _ Hpp). cbn [set_parent]. unfold upd.
    look. rewrite Hx. cbn [mbind option_bind].
    eexists. split; [done|]. split; [by look|]. split.
    + cbn [repr_ctx]. split; [by look|]. split; [by rframe|].
      by do 2 (apply repr_ctx_insert; [neq|]).
    + intros q Hq Hqc. by look.
Qed.

Ltac binds := cbn [mbind option_bind cell _parent _left _right _address _count].

Lemma upd_eval h p f n : h !! p = Some n → upd p f h = Some (<[p := f n]> h).
Proof. intros H. unfold upd. by rewrite H. Qed.

Lemma set_parent_root h par par' t q :
  rootp t = Some q → repr h par t →
  set_parent (Some q) par' h = Some (reparent t par' h).
Proof. intros <-. apply set_parent_repr. Qed.

Local Notation disj l1 l2 := (∀ q : positive, q ∈ l1 → q ∉ l2).

(** What the absence of repetitions gives for a node [x] with children
    lists [L], [R] below a parent [p] with sibling list [S], in a context
    with list [C]. *)
Lemma family_facts x p (L R S C : list positive) :
  NoDup (p :: x :: L ++ R ++ S ++ C) →
  (x ≠ p ∧ x ∉ L ∧ x ∉ R ∧ x ∉ S ∧ x ∉ C ∧ p ∉ L ∧ p ∉ R ∧ p ∉ S ∧ p ∉ C) ∧
  (disj L R ∧ disj R L ∧ disj L S ∧ disj S L ∧ disj R S ∧ disj S R) ∧
  (disj C L ∧ disj C R ∧ disj C S ∧ disj L C ∧ disj R C ∧ disj S C) ∧
  NoDup L ∧ NoDup R ∧ NoDup S ∧ NoDup C.
Proof.
  intros H.
  apply NoDup_cons in H as [Hn1 H].
  apply NoDup_cons in H as [Hn2 H].
  apply NoDup_app in H as (HL & Hd1 & H).
  apply NoDup_app in H as (HR & Hd2 & H).
  apply NoDup_app in H as (HS & Hd3 & HC).
  repeat split; try done; set_solver.
Qed.

Lemma family_left x a l r p b s c :
  NoDup (ptrs (plug (FL p b s :: c) (T x a l r))) →
  NoDup (p :: x :: ptrs l ++ ptrs r ++ ptrs s ++ cptrs c).
Proof.
  cbn [plug fill]. rewrite ptrs_plug. simpl. by rewrite <- !app_assoc.
Qed.

Lemma family_right x a l r p b s c :
  NoDup (ptrs (plug (FR p b s :: c) (T x a l r))) →
  NoDup (p :: x :: ptrs l ++ ptrs r ++ ptrs s ++ cptrs c).
Proof.
  cbn [plug fill]. rewrite ptrs_plug. simpl.
  assert (ptrs s ++ x :: ptrs l ++ ptrs r
          ≡ₚ x :: ptrs l ++ ptrs r ++ ptrs s) as Hperm.
  { rewrite Permutation_app_comm. simpl. by rewrite <- !app_assoc. }
  rewrite Hperm. simpl. by rewrite <- !app_assoc.
Qed.

Ltac nq := solve [ done | congruence ].

Ltac rcs :=
  cbn [with_count with_left with_right with_parent cell
       _address _parent _left _right _count].

Ltac lookq :=
  repeat first
    [ rewrite lookup_insert_eq
    | rewrite lookup_insert_ne by nq
    | rewrite reparent_frame by nq ].

Ltac lk :=
  lookq;
  first [ eassumption | reflexivity
        | match goal with H : ?m !! ?q = Some _ |- ?m !! ?q = Some _ => exact H end ].

Ltac rfr :=
  repeat first
    [ apply repr_insert; [nq|]
    | apply repr_frame_reparent; [nq|] ].

Ltac cfr :=
  repeat first
    [ apply repr_ctx_insert; [nq|]
    | apply repr_ctx_frame_reparent; [nq|] ].

Lemma rotate_left_spec c h fuel root x a l r p b s lp rp :
  rootp l = Some lp → rootp r = Some rp →
  repr h None (plug (FL p b s :: c) (T x a l r)) →
  NoDup (ptrs (plug (FL p b s :: c) (T x a l r))) →
  ∃ h', moveToRoot_body fuel x root h = Some h' ∧
    repr h' None (plug c (T x a (T p b l r) s)) ∧
    (∀ q, q ∉ ptrs (plug (FL p b s :: c) (T x a l r)) → h' !! q = h !! q).
Proof.
  intros Hl Hr Hrepr Hnd.
  assert (Hfr : ∀ q, q ∉ ptrs (plug (FL p b s :: c) (T x a l r)) →
                     q ≠ x ∧ q ≠ p ∧ q ∉ ptrs l ∧ q ∉ ptrs r ∧ q ∉ ptrs s
                     ∧ q ∉ cptrs c).
  { intros q. cbn [plug fill]. rewrite ptrs_plug. simpl.
    clear. set_solver. }
  apply family_left, family_facts in Hnd
    as ((Hxp & Hxl & Hxr & Hxs & Hxc & Hpl & Hpr & Hps & Hpc)
        & (Hlr & Hrl & Hls & Hsl & Hrs & Hsr)
        & (Hcl & Hcr & Hcs & Hlc & Hrc & Hsc) & Hndl & Hndr & Hnds & Hndc).
  cbn [plug fill] in Hrepr.
  apply repr_plug in Hrepr as [Ht Hc]. cbn [repr] in Ht.
  destruct Ht as (Hp & (Hx & Hrepl & Hrepr) & Hs).
  unfold moveToRoot_body. rewrite Hx. binds.
  rewrite Hp. binds. rewrite Hl, Hr. cbn [rootp].
  rewrite bool_decide_eq_true_2 by done.
  rewrite (setLeft_eval _ _ _ _ Hx). cbn [set_parent].
  erewrite (upd_eval _ p) by lk. binds. lookq. binds. rcs.
  erewrite (setRight_eval _ x) by lk.
  rewrite (set_parent_repr _ (Some p) (Some x) s) by (by rfr).
  binds. rcs.
  erewrite (setLeft_eval _ p) by lk.
  rewrite (set_parent_root _ (Some x) _ l lp Hl) by (by rfr).
  binds. rcs.
  erewrite (setRight_eval _ p) by lk.
  rewrite (set_parent_root _ (Some x) _ r rp Hr) by (by rfr).
  rcs.
  match goal with |- context [Some ?H ≫= _] => set (h8 := H) end.
  assert (H8x : h8 !! x = Some (mkNode a (Some p) (Some p) (rootp s)
                                  (wrap64 (1 + tsize l + tsize r)))).
  { unfold h8. by lk. }
  assert (H8p : h8 !! p = Some (mkNode b (Some x) (Some lp) (Some rp)
                 (wrap64 (1 + tsize (T x a l r) + tsize s)))).
  { unfold h8. by lk. }
  assert (H8l : repr h8 (Some p) l).
  { unfold h8. rfr. apply (repr_reparent _ (Some x)); [done|]. by rfr. }
  assert (H8r : repr h8 (Some p) r).
  { unfold h8. apply (repr_reparent _ (Some x)); [done|]. by rfr. }
  assert (H8s : repr h8 (Some x) s).
  { unfold h8. rfr. apply (repr_reparent _ (Some p)); [done|]. by rfr. }
  assert (H8c : repr_ctx h8 c (Some p) (tsize (T p b (T x a l r) s))).
  { unfold h8. by cfr. }
  assert (H8f : ∀ q, q ≠ x → q ≠ p → q ∉ ptrs l → q ∉ ptrs r → q ∉ ptrs s →
                     h8 !! q = h !! q).
  { intros q ? ? ? ? ?. unfold h8. by lookq. }
  clearbody h8.
  destruct (relink_spec c h8 x p _ _ H8c H8x Hxc Hpc Hndc)
    as (h9 & Hrel & H9x & H9c & H9f).
  cbn [mbind option_bind]. rewrite Hrel. cbn [mbind option_bind].
  assert (H9p : h9 !! p = Some (mkNode b (Some x) (Some lp) (Some rp)
                 (wrap64 (1 + tsize (T x a l r) + tsize s)))).
  { by rewrite H9f. }
  assert (H9l : repr h9 (Some p) l).
  { apply (repr_ext h8); [|done]. intros q Hq. apply H9f; [nq|].
    intros Hqc. by apply Hcl in Hqc. }
  assert (H9r : repr h9 (Some p) r).
  { apply (repr_ext h8); [|done]. intros q Hq. apply H9f; [nq|].
    intros Hqc. by apply Hcr in Hqc. }
  assert (H9s : repr h9 (Some x) s).
  { apply (repr_ext h8); [|done]. intros q Hq. apply H9f; [nq|].
    intros Hqc. by apply Hcs in Hqc. }
  rewrite (updateCount_eval _ _ _ (wrap64 (tsize l)) (wrap64 (tsize r)) H9p);
    [|cbn [_left]; rewrite <- Hl; by apply (count_of_repr _ (Some p))
     |cbn [_right]; rewrite <- Hr; by apply (count_of_repr _ (Some p))].
  cbn [mbind option_bind]. rewrite wrap_count. rcs.
  erewrite (updateCount_eval _ x _ (wrap64 (1 + tsize l + tsize r))
              (wrap64 (tsize s))); [|by lk|by cbn; lookq|].
  2:{ cbn [with_parent _right]. apply (count_of_repr _ (Some x)). by rfr. }
  eexists. split; [done|]. split.
  - apply repr_plug. split.
    + cbn [repr]. split; [|split; [split; [|split]|]].
      * lookq. rcs. unfold cell. cbn [rootp tsize]. do 2 f_equal.
        rewrite wrap_count. f_equal; lia.
      * lookq. unfold cell. by rewrite Hl, Hr.
      * by rfr.
      * by rfr.
      * by rfr.
    + cfr. replace (tsize (T x a (T p b l r) s))
        with (tsize (T p b (T x a l r) s)) by (simpl; lia). done.
  - intros q Hq. apply Hfr in Hq as (? & ? & ? & ? & ? & ?).
    lookq. rewrite H9f by done. by apply H8f.
Qed.


Lemma rotate_right_spec c h fuel root x a l r p b s lp rp :
  rootp l = Some lp → rootp r = Some rp →
  repr h None (plug (FR p b s :: c) (T x a l r)) →
  NoDup (ptrs (plug (FR p b s :: c) (T x a l r))) →
  ∃ h', moveToRoot_body fuel x root h = Some h' ∧
    repr h' None (plug c (T x a (T p b s l) r)) ∧
    (∀ q, q ∉ ptrs (plug (FR p b s :: c) (T x a l r)) → h' !! q = h !! q).
Proof.
  intros Hl Hr Hrepr Hnd.
  assert (Hfr : ∀ q, q ∉ ptrs (plug (FR p b s :: c) (T x a l r)) →
                     q ≠ x ∧ q ≠ p ∧ q ∉ ptrs l ∧ q ∉ ptrs r ∧ q ∉ ptrs s
                     ∧ q ∉ cptrs c).
  { intros q. cbn [plug fill]. rewrite ptrs_plug. simpl.
    clear. set_solver. }
  apply family_right, family_facts in Hnd
    as ((Hxp & Hxl & Hxr & Hxs & Hxc & Hpl & Hpr & Hps & Hpc)
        & (Hlr & Hrl & Hls & Hsl & Hrs & Hsr)
        & (Hcl & Hcr & Hcs & Hlc & Hrc & Hsc) & Hndl & Hndr & Hnds & Hndc).
  cbn [plug fill] in Hrepr.
  apply repr_plug in Hrepr as [Ht Hc]. cbn [repr] in Ht.
  destruct Ht as (Hp & Hs & (Hx & Hrepl & Hrepr)).
  unfold moveToRoot_body. rewrite Hx. binds.
  rewrite Hp. binds. rewrite Hl, Hr. cbn [rootp].
  rewrite bool_decide_eq_false_2.
  2:{ intros Hrs'. by apply rootp_ptrs in Hrs'. }
  rewrite (setLeft_eval _ _ _ _ Hx). cbn [set_parent].
  erewrite (upd_eval _ p) by lk. binds. rcs.
  erewrite (setRight_eval _ p) by lk.
  rewrite (set_parent_root _ (Some x) _ l lp Hl) by (by rfr).
  rcs.
  match goal with |- context [Some ?H ≫= _] => set (h8 := H) end.
  assert (H8x : h8 !! x = Some (mkNode a (Some p) (Some p) (rootp r)
                                  (wrap64 (1 + tsize l + tsize r)))).
  { unfold h8. by lk. }
  assert (H8p : h8 !! p = Some (mkNode b (Some x) (rootp s) (Some lp)
                 (wrap64 (1 + tsize s + tsize (T x a l r))))).
  { unfold h8. by lk. }
  assert (H8l : repr h8 (Some p) l).
  { unfold h8. apply (repr_reparent _ (Some x)); [done|]. by rfr. }
  assert (H8r : repr h8 (Some x) r).
  { unfold h8. by rfr. }
  assert (H8s : repr h8 (Some p) s).
  { unfold h8. by rfr. }
  assert (H8c : repr_ctx h8 c (Some p) (tsize (T p b s (T x a l r)))).
  { unfold h8. by cfr. }
  assert (H8f : ∀ q, q ≠ x → q ≠ p → q ∉ ptrs l → q ∉ ptrs r → q ∉ ptrs s →
                     h8 !! q = h !! q).
  { intros q ? ? ? ? ?. unfold h8. by lookq. }
  clearbody h8.
  destruct (relink_spec c h8 x p _ _ H8c H8x Hxc Hpc Hndc)
    as (h9 & Hrel & H9x & H9c & H9f).
  cbn [mbind option_bind]. rewrite Hrel. cbn [mbind option_bind].
  assert (H9p : h9 !! p = Some (mkNode b (Some x) (rootp s) (Some lp)
                 (wrap64 (1 + tsize s + tsize (T x a l r))))).
  { by rewrite H9f. }
  assert (H9l : repr h9 (Some p) l).
  { apply (repr_ext h8); [|done]. intros q Hq. apply H9f; [nq|].
    intros Hqc. by apply Hcl in Hqc. }
  assert (H9r : repr h9 (Some x) r).
  { apply (repr_ext h8); [|done]. intros q Hq. apply H9f; [nq|].
    intros Hqc. by apply Hcr in Hqc. }
  assert (H9s : repr h9 (Some p) s).
  { apply (repr_ext h8); [|done]. intros q Hq. apply H9f; [nq|].
    intros Hqc. by apply Hcs in Hqc. }
  rewrite (updateCount_eval _ _ _ (wrap64 (tsize s)) (wrap64 (tsize l)) H9p);
    [|by apply (count_of_repr _ (Some p))
     |cbn [_right]; rewrite <- Hl; by apply (count_of_repr _ (Some p))].
  cbn [mbind option_bind]. rewrite wrap_count. rcs.
  erewrite (updateCount_eval _ x _ (wrap64 (1 + tsize s + tsize l))
              (wrap64 (tsize r))); [|by lk|by cbn; lookq|].
  2:{ cbn [with_parent _right]. apply (count_of_repr _ (Some x)). by rfr. }
  eexists. split; [done|]. split.
  - apply repr_plug. split.
    + cbn [repr]. split; [|split; [split; [|split]|]].
      * lookq. rcs. unfold cell. cbn [rootp tsize]. do 2 f_equal.
        rewrite wrap_count. f_equal; lia.
      * lookq. unfold cell. by rewrite Hl.
      * by rfr.
      * by rfr.
      * by rfr.
    + cfr. replace (tsize (T x a (T p b s l) r))
        with (tsize (T p b s (T x a l r))) by (simpl; lia). done.
  - intros q Hq. apply Hfr in Hq as (? & ? & ? & ? & ? & ?).
    lookq. rewrite H9f by done. by apply H8f.
Qed.

(** The subtree that takes the place of a node with at most one child. *)
Definition only_child (l r : tree) : tree :=
  match l with Leaf => r | T _ _ _ _ => l end.

Lemma NoDup_ptrs_plug_inv c t : NoDup (ptrs (plug c t)) → NoDup (ptrs t ++ cptrs c).
Proof. by rewrite ptrs_plug. Qed.

Lemma splice_spec f c h fuel x a l r :
  l = Leaf ∨ r = Leaf →
  repr h None (plug (f :: c) (T x a l r)) →
  NoDup (ptrs (plug (f :: c) (T x a l r))) →
  (length (ptrs (plug (f :: c) (T x a l r))) ≤ S fuel)%nat →
  ∃ h', moveToRoot_body fuel x (rootp (plug (f :: c) (T x a l r))) h = Some h' ∧
    repr h' None (insert_root x a (plug (f :: c) (only_child l r))) ∧
    (∀ q, q ∉ ptrs (plug (f :: c) (T x a l r)) → h' !! q = h !! q).
Proof.
  intros Hone Hrepr Hnd Hfuel.
  set (ch := only_child l r).
  assert (Hchp : ptrs ch = ptrs l ++ ptrs r).
  { unfold ch, only_child. destruct Hone as [-> | ->]; [done|].
    destruct l; simpl; by rewrite ?app_nil_r. }
  assert (Hchs : tsize (T x a l r) = 1 + tsize ch).
  { unfold ch, only_child. destruct Hone as [-> | ->]; [simpl; lia|].
    destruct l; simpl; lia. }
  assert (Hroot : rootp (plug (f :: c) (T x a l r)) = rootp (plug (f :: c) ch))
    by (by apply rootp_plug).
  destruct (rootp_plug_Some (f :: c) ch ltac:(done)) as [rt Hrt].
  assert (Hlen : (length (ptrs (plug (f :: c) ch)) ≤ S fuel
                  ∧ length (f :: c) ≤ S fuel)%nat).
  { rewrite length_ptrs_plug in Hfuel. rewrite length_ptrs_plug.
    pose proof (length_cptrs (f :: c)). rewrite Hchp.
    cbn [ptrs length] in Hfuel. lia. }
  destruct Hlen as [Hlen1 Hlen2].
  assert (Hfr : ∀ q, q ∉ ptrs (plug (f :: c) (T x a l r)) →
                     q ≠ x ∧ q ∉ ptrs ch ∧ q ∉ cptrs (f :: c)).
  { intros q. rewrite ptrs_plug, Hchp. simpl. clear. set_solver. }
  assert (Hin : ∀ q, q ∈ ptrs (plug (f :: c) ch) →
                     q ∈ ptrs ch ∨ q ∈ cptrs (f :: c)).
  { intros q. rewrite ptrs_plug. clear. set_solver. }
  assert (Hndc : NoDup (ptrs ch ++ cptrs (f :: c)) ∧ x ∉ ptrs ch
                 ∧ x ∉ cptrs (f :: c)).
  { apply NoDup_ptrs_plug_inv in Hnd. simpl in Hnd. rewrite Hchp.
    apply NoDup_cons in Hnd as [Hx Hnd]. split; [done|]. clear -Hx.
    set_solver. }
  destruct Hndc as (Hndc & Hxch & Hxc).
  assert (Hnd' : NoDup (ptrs (plug (f :: c) ch))) by (by rewrite ptrs_plug).
  apply NoDup_app in Hndc as (Hndch & Hdisj & Hndc).
  assert (Hxplug : x ∉ ptrs (plug (f :: c) ch)).
  { intros Hq. apply Hin in Hq as [|]; done. }
  assert (Hx : h !! x = Some (cell (Some (fptr f)) a l r)
               ∧ repr h (Some x) ch).
  { apply repr_plug in Hrepr as [Ht _]. cbn [repr cpar] in Ht.
    destruct Ht as (Hx & Hl & Hr). split; [done|].
    unfold ch, only_child. by destruct l. }
  destruct Hx as [Hx Hch].
  assert (Hchild : match rootp l with Some q => Some q | None => rootp r end
                   = rootp ch).
  { unfold ch, only_child. by destruct l. }
  assert (Hdet : ∃ h3,
    (h1 ← (pn ← h !! fptr f;
           if bool_decide (_left pn = Some x)
           then setLeft (fptr f) (rootp ch) h
           else setRight (fptr f) (rootp ch) h);
     updateCount fuel (fptr f) true h1) = Some h3 ∧
    repr h3 None (plug (f :: c) ch) ∧
    (∀ q, q ∉ ptrs ch → q ∉ cptrs (f :: c) → h3 !! q = h !! q)).
  { cbn [plug] in Hrepr. apply repr_plug in Hrepr as [Ht Hc].
    destruct f as [p b s|p b s]; cbn [fill repr fptr] in *;
      simpl in Hndc, Hxc, Hdisj.
    - destruct Ht as (Hp & _ & Hs).
      apply NoDup_cons in Hndc as [Hpn Hndc'].
      apply NoDup_app in Hndc' as (Hnds & Hsc & Hndc'').
      assert (Hpch : p ∉ ptrs ch) by (clear -Hdisj; set_solver).
      assert (Hps : p ∉ ptrs s) by (clear -Hpn; set_solver).
      assert (Hpc : p ∉ cptrs c) by (clear -Hpn; set_solver).
      assert (Hchs' : ∀ q, q ∈ ptrs s → q ∉ ptrs ch)
        by (clear -Hdisj; set_solver).
      assert (Hchc : ∀ q, q ∈ cptrs c → q ∉ ptrs ch)
        by (clear -Hdisj; set_solver).
      rewrite Hp. binds. cbn [rootp].
      rewrite bool_decide_eq_true_2 by done.
      rewrite (setLeft_eval _ _ _ _ Hp).
      rewrite (set_parent_repr _ (Some x) (Some p) ch) by (by rfr).
      rcs. binds.
      match goal with |- context [updateCount _ _ _ ?H] => set (h2 := H) end.
      destruct (updateCount_ctx (FL p b s :: c) fuel h2 (rootp ch)
                  (tsize (T x a l r)) (tsize ch) p)
        as (h3 & Hu & Hc3 & Hf3); [done|done| | | |].
      { simpl. apply NoDup_cons. split; [done|].
        apply NoDup_app. done. }
      { cbn [repr_ctx]. split; [by unfold h2; lk|].
        split; [by unfold h2; rfr|]. unfold h2. by cfr. }
      { apply (count_of_repr _ (Some p)). unfold h2.
        apply (repr_reparent _ (Some x)); [done|]. by rfr. }
      exists h3. split; [done|]. split.
      + cbn [plug]. apply repr_plug. cbn [fill repr cpar].
        cbn [repr_ctx] in Hc3. destruct Hc3 as (Hp3 & Hs3 & Hc3).
        split; [|done]. split; [|split].
        * rewrite Hp3. unfold cell. f_equal.
        * apply (repr_ext h2).
          { intros q Hq. apply Hf3. simpl. clear -Hq Hdisj. set_solver. }
          unfold h2. apply (repr_reparent _ (Some x)); [done|]. by rfr.
        * done.
      + intros q Hq1 Hq2. rewrite Hf3 by done. unfold h2.
        simpl in Hq2. apply not_elem_of_cons in Hq2 as [? ?]. by lookq.
    - destruct Ht as (Hp & Hs & _).
      apply NoDup_cons in Hndc as [Hpn Hndc'].
      apply NoDup_app in Hndc' as (Hnds & Hsc & Hndc'').
      assert (Hpch : p ∉ ptrs ch) by (clear -Hdisj; set_solver).
      assert (Hps : p ∉ ptrs s) by (clear -Hpn; set_solver).
      assert (Hpc : p ∉ cptrs c) by (clear -Hpn; set_solver).
      assert (Hxs : x ∉ ptrs s) by (clear -Hxc; set_solver).
      assert (Hchs' : ∀ q, q ∈ ptrs s → q ∉ ptrs ch)
        by (clear -Hdisj; set_solver).
      assert (Hchc : ∀ q, q ∈ cptrs c → q ∉ ptrs ch)
        by (clear -Hdisj; set_solver).
      rewrite Hp. binds. cbn [rootp].
      rewrite bool_decide_eq_false_2.
      2:{ intros Hrs'. by apply rootp_ptrs in Hrs'. }
      rewrite (setRight_eval _ _ _ _ Hp).
      rewrite (set_parent_repr _ (Some x) (Some p) ch) by (by rfr).
      rcs. binds.
      match goal with |- context [updateCount _ _ _ ?H] => set (h2 := H) end.
      destruct (updateCount_ctx (FR p b s :: c) fuel h2 (rootp ch)
                  (tsize (T x a l r)) (tsize ch) p)
        as (h3 & Hu & Hc3 & Hf3); [done|done| | | |].
      { simpl. apply NoDup_cons. split; [done|].
        apply NoDup_app. done. }
      { cbn [repr_ctx]. split; [by unfold h2; lk|].
        split; [by unfold h2; rfr|]. unfold h2. by cfr. }
      { apply (count_of_repr _ (Some p)). unfold h2.
        apply (repr_reparent _ (Some x)); [done|]. by rfr. }
      exists h3. split; [done|]. split.
      + cbn [plug]. apply repr_plug. cbn [fill repr cpar].
        cbn [repr_ctx] in Hc3. destruct Hc3 as (Hp3 & Hs3 & Hc3).
        split; [|done]. split; [|split].
        * rewrite Hp3. unfold cell. f_equal.
        * done.
        * apply (repr_ext h2).
          { intros q Hq. apply Hf3. simpl. clear -Hq Hdisj. set_solver. }
          unfold h2. apply (repr_reparent _ (Some x)); [done|]. by rfr.
      + intros q Hq1 Hq2. rewrite Hf3 by done. unfold h2.
        simpl in Hq2. apply not_elem_of_cons in Hq2 as [? ?]. by lookq. }
  destruct Hdet as (h3 & Hdet & Hr3 & Hf3).
  assert (H3x : h3 !! x = Some (cell (Some (fptr f)) a l r))
    by (by rewrite Hf3).
  destruct (insertAtRoot_spec (plug (f :: c) ch) fuel x h3 _ rt Hrt
              ltac:(pose proof (height_le_size (plug (f :: c) ch)); lia)
              H3x Hr3 Hxplug Hnd') as (h' & Hins & Hr' & Hf').
  exists h'. split; [|split].
  - unfold moveToRoot_body. rewrite Hx. binds. rewrite Hchild.
    rewrite Hroot, Hrt.
    assert (Hgo : ∀ pn, h !! fptr f = Some pn →
      (h1 ← (if bool_decide (_left pn = Some x)
             then setLeft (fptr f) (rootp ch) h
             else setRight (fptr f) (rootp ch) h);
       h2 ← updateCount fuel (fptr f) true h1;
       insertAtRoot fuel x (Some rt) h2) = Some h').
    { intros pn Hpn. rewrite Hpn in Hdet. cbn [mbind option_bind] in Hdet.
      destruct (if bool_decide _ then _ else _) as [h1|]; [|done].
      cbn [mbind option_bind] in *. rewrite Hdet. done. }
    destruct (h !! fptr f) as [pn|] eqn:Hpn; [|done]. binds.
    specialize (Hgo pn eq_refl).
    destruct Hone as [-> | ->]; cbn [rootp]; [done|].
    by destruct (rootp l).
  - done.
  - intros q Hq. apply Hfr in Hq as (? & ? & ?).
    rewrite Hf' by (try done; intros Hq'; by apply Hin in Hq' as [|]).
    by apply Hf3.
Qed.

(** *** The whole of [moveToRoot] *)

(** The nodes of a tree in preorder: pointer and address. *)
Fixpoint nodes_of (t : tree) : list (positive * Z) :=
  match t with
  | Leaf => []
  | T p a l r => (p, a) :: nodes_of l ++ nodes_of r
  end.

Lemma ptrs_nodes_of t : ptrs t = (nodes_of t).*1.
Proof.
  induction t as [|p a l IHl r IHr]; [done|].
  simpl. by rewrite fmap_app, IHl, IHr.
Qed.

Lemma addrs_nodes_of t : addrs t = (nodes_of t).*2.
Proof.
  induction t as [|p a l IHl r IHr]; [done|].
  simpl. by rewrite fmap_app, IHl, IHr.
Qed.

Lemma steal_nodes t :
  nodes_of (steal t).1 ++ nodes_of (steal t).2 = nodes_of t.
Proof.
  induction t as [|p a l IHl r IHr]; [done|].
  destruct r as [|rp ra rl rr]; simpl in *.
  - by rewrite app_nil_r.
  - by rewrite IHl.
Qed.

Lemma nodes_insert_root x a t :
  nodes_of (insert_root x a t) = (x, a) :: nodes_of t.
Proof. unfold insert_root. simpl. by rewrite steal_nodes. Qed.

(** The nodes of a context that come before and after the hole in
    preorder. *)
Fixpoint pbefore (c : list frame) : list (positive * Z) :=
  match c with
  | [] => []
  | FL p a _ :: c' => pbefore c' ++ [(p, a)]
  | FR p a s :: c' => pbefore c' ++ (p, a) :: nodes_of s
  end.

Fixpoint pafter (c : list frame) : list (positive * Z) :=
  match c with
  | [] => []
  | FL _ _ s :: c' => nodes_of s ++ pafter c'
  | FR _ _ _ :: c' => pafter c'
  end.

Lemma nodes_plug c : ∀ t,
  nodes_of (plug c t) = pbefore c ++ nodes_of t ++ pafter c.
Proof.
  induction c as [|f c IH]; intros t; simpl; [by rewrite app_nil_r|].
  rewrite IH. destruct f as [p a s|p a s]; simpl;
    by rewrite <- ?app_assoc.
Qed.

(** The tree after [moveToRoot] of the node in the hole. *)
Fixpoint mtr (c : list frame) (x : positive) (a : Z) (l r : tree) : tree :=
  match c with
  | [] => T x a l r
  | f :: c' =>
      match l, r with
      | T _ _ _ _, T _ _ _ _ =>
          match f with
          | FL p b s => mtr c' x a (T p b l r) s
          | FR p b s => mtr c' x a (T p b s l) r
          end
      | _, _ => insert_root x a (plug c (only_child l r))
      end
  end.

Lemma nodes_only_child l r :
  l = Leaf ∨ r = Leaf → nodes_of (only_child l r) = nodes_of l ++ nodes_of r.
Proof.
  intros [-> | ->]; [done|]. destruct l; simpl; by rewrite ?app_nil_r.
Qed.

Lemma nodes_mtr c : ∀ x a l r,
  nodes_of (mtr c x a l r)
  = (x, a) :: pbefore c ++ nodes_of l ++ nodes_of r ++ pafter c.
Proof.
  induction c as [|f c IH]; intros x a l r.
  { simpl. by rewrite app_nil_r. }
  assert (l = Leaf ∨ r = Leaf →
          nodes_of (insert_root x a (plug (f :: c) (only_child l r)))
          = (x, a) :: pbefore (f :: c) ++ nodes_of l ++ nodes_of r
                      ++ pafter (f :: c)) as Hsplice.
  { intros Hone. rewrite nodes_insert_root, nodes_plug.
    rewrite nodes_only_child by done. by rewrite <- !app_assoc. }
  destruct l as [|lp la ll lr]; [apply Hsplice; by left|].
  destruct r as [|rp ra rl rr]; [apply Hsplice; by right|].
  cbn [mtr]. destruct f as [p b s|p b s]; rewrite IH; simpl;
    rewrite <- ?app_assoc; simpl; by rewrite <- ?app_assoc.
Qed.

Lemma root_mtr c x a l r : rootp (mtr c x a l r) = Some x.
Proof.
  revert l r. induction c as [|f c IH]; intros l r; [done|].
  destruct l as [|lp la ll lr]; [done|].
  destruct r as [|rp ra rl rr]; [done|].
  cbn [mtr]. destruct f; apply IH.
Qed.

Lemma moveToRoot_loop_unfold iter fuel this currentRoot h :
  moveToRoot_loop iter fuel this currentRoot h =
  n ← h !! this;
  match _parent n with
  | None => Some h
  | Some _ =>
      match iter with
      | O => None
      | S i =>
          h' ← moveToRoot_body fuel this currentRoot h;
          moveToRoot_loop i fuel this currentRoot h'
      end
  end.
Proof. by destruct iter. Qed.

Lemma ptrs_rotate_left c x a l r p b s :
  ptrs (plug c (T x a (T p b l r) s))
  ≡ₚ ptrs (plug (FL p b s :: c) (T x a l r)).
Proof.
  cbn [plug fill]. rewrite !ptrs_plug. f_equiv. simpl.
  rewrite <- !app_assoc. apply perm_swap.
Qed.

Lemma ptrs_rotate_right c x a l r p b s :
  ptrs (plug c (T x a (T p b s l) r))
  ≡ₚ ptrs (plug (FR p b s :: c) (T x a l r)).
Proof.
  cbn [plug fill]. rewrite !ptrs_plug. f_equiv. simpl.
  rewrite <- !app_assoc. rewrite perm_swap. f_equiv.
  apply Permutation_middle.
Qed.

Lemma moveToRoot_loop_spec c : ∀ iter fuel root h x a l r,
  (c ≠ [] → root = rootp (plug c (T x a l r))) →
  repr h None (plug c (T x a l r)) →
  NoDup (ptrs (plug c (T x a l r))) →
  (length (ptrs (plug c (T x a l r))) ≤ S fuel)%nat →
  (length c ≤ iter)%nat →
  ∃ h', moveToRoot_loop iter fuel x root h = Some h' ∧
    repr h' None (mtr c x a l r) ∧
    (∀ q, q ∉ ptrs (plug c (T x a l r)) → h' !! q = h !! q).
Proof.
  induction c as [|f c IH]; intros iter fuel root h x a l r Hroot Hrepr Hnd
    Hfuel Hiter.
  { cbn [plug mtr] in *. pose proof Hrepr as (Hx & _).
    rewrite moveToRoot_loop_unfold, Hx. exists h. by split. }
  assert (Hx : h !! x = Some (cell (Some (fptr f)) a l r)).
  { apply repr_plug in Hrepr as [Ht _]. cbn [repr cpar] in Ht.
    by destruct Ht as (Hx & _). }
  rewrite moveToRoot_loop_unfold, Hx. binds.
  destruct iter as [|iter]; [simpl in Hiter; lia|].
  assert (Hsplice : l = Leaf ∨ r = Leaf →
    ∃ h', (h' ← moveToRoot_body fuel x root h;
           moveToRoot_loop iter fuel x root h') = Some h' ∧
      repr h' None (insert_root x a (plug (f :: c) (only_child l r))) ∧
      (∀ q, q ∉ ptrs (plug (f :: c) (T x a l r)) → h' !! q = h !! q)).
  { intros Hone. rewrite (Hroot ltac:(done)).
    destruct (splice_spec f c h fuel x a l r Hone Hrepr Hnd Hfuel)
      as (h' & Hb & Hr' & Hf').
    exists h'. rewrite Hb. binds. split; [|done].
    rewrite moveToRoot_loop_unfold.
    unfold insert_root in Hr'. cbn [repr] in Hr'. destruct Hr' as (Hx' & _).
    by rewrite Hx'. }
  destruct l as [|lp la ll lr]; [apply Hsplice; by left|].
  destruct r as [|rp ra rl rr]; [apply Hsplice; by right|].
  clear Hsplice. cbn [mtr].
  assert (Hroot' : ∀ t', c ≠ [] → root = rootp (plug c t')).
  { intros t' Hc. rewrite (Hroot ltac:(done)). cbn [plug].
    by apply rootp_plug. }
  destruct f as [p b s|p b s].
  - destruct (rotate_left_spec c h fuel root x a (T lp la ll lr)
                (T rp ra rl rr) p b s lp rp eq_refl eq_refl Hrepr Hnd)
      as (h1 & Hb & Hr1 & Hf1).
    rewrite Hb. binds.
    destruct (IH iter fuel root h1 x a (T p b (T lp la ll lr) (T rp ra rl rr))
                s) as (h' & Hl & Hr' & Hf');
      [apply Hroot'|done|by rewrite ptrs_rotate_left
      |by rewrite ptrs_rotate_left|simpl in Hiter; lia|].
    exists h'. split; [done|]. split; [done|].
    intros q Hq. rewrite Hf' by (by rewrite ptrs_rotate_left).
    by apply Hf1.
  - destruct (rotate_right_spec c h fuel root x a (T lp la ll lr)
                (T rp ra rl rr) p b s lp rp eq_refl eq_refl Hrepr Hnd)
      as (h1 & Hb & Hr1 & Hf1).
    rewrite Hb. binds.
    destruct (IH iter fuel root h1 x a (T p b s (T lp la ll lr))
                (T rp ra rl rr)) as (h' & Hl & Hr' & Hf');
      [apply Hroot'|done|by rewrite ptrs_rotate_right
      |by rewrite ptrs_rotate_right|simpl in Hiter; lia|].
    exists h'. split; [done|]. split; [done|].
    intros q Hq. rewrite Hf' by (by rewrite ptrs_rotate_right).
    by apply Hf1.
Qed.


(** *** [computePosition] *)

Lemma computePosition_unfold fuel this h :
  computePosition fuel this h =
  rc ← isRightChild this h;
  n ← h !! this;
  match _parent n with
  | None => Some 1
  | Some q =>
      match fuel with
      | O => None
      | S f =>
          if rc : bool then
            sl ← sumLeft (computePosition f) q h; Some (wrap64 (sl + 1))
          else
            pos ← computePosition f q h; Some (wrap64 (pos + 1))
      end
  end.
Proof. by destruct fuel. Qed.

#[local] Arguments computePosition : simpl never.

Lemma tsize_nodes t : tsize t = Z.of_nat (length (nodes_of t)).
Proof.
  rewrite tsize_length, ptrs_nodes_of. by rewrite length_fmap.
Qed.

Lemma wrap_position P K :
  wrap64 (wrap64 (wrap64 P + wrap64 K) + 1) = wrap64 (P + K + 1).
Proof.
  rewrite wrap64_add_l.
  replace (wrap64 P + wrap64 K + 1) with (wrap64 P + (wrap64 K + 1)) by lia.
  rewrite wrap64_add_l.
  replace (P + (wrap64 K + 1)) with (wrap64 K + (P + 1)) by lia.
  rewrite wrap64_add_l. f_equal. lia.
Qed.

(** The position of the node in the hole is one more than the number of
    nodes before it in preorder. *)
Lemma computePosition_spec c : ∀ fuel h x a l r,
  repr h None (plug c (T x a l r)) →
  NoDup (ptrs (plug c (T x a l r))) →
  (length c ≤ fuel)%nat →
  computePosition fuel x h
  = Some (wrap64 (1 + Z.of_nat (length (pbefore c)))).
Proof.
  induction c as [|f c IH]; intros fuel h x a l r Hrepr Hnd Hfuel.
  { cbn [plug] in Hrepr. destruct Hrepr as (Hx & _).
    rewrite computePosition_unfold. unfold isRightChild. rewrite Hx. done. }
  destruct fuel as [|fuel]; [simpl in Hfuel; lia|].
  assert (Hp := IH fuel h (fptr f) match f with FL _ b _ | FR _ b _ => b end
                  match f with FL _ _ _ => T x a l r | FR _ _ s => s end
                  match f with FL _ _ s => s | FR _ _ _ => T x a l r end).
  cbn [plug] in Hrepr, Hnd.
  assert (fill f (T x a l r)
          = T (fptr f) match f with FL _ b _ | FR _ b _ => b end
              match f with FL _ _ _ => T x a l r | FR _ _ s => s end
              match f with FL _ _ s => s | FR _ _ _ => T x a l r end) as Hfill
    by (by destruct f).
  rewrite Hfill in Hrepr, Hnd.
  specialize (Hp Hrepr Hnd ltac:(simpl in Hfuel; lia)).
  rewrite <- Hfill in Hrepr, Hnd.
  pose proof Hnd as Hnd'.
  apply repr_plug in Hrepr as [Ht _].
  rewrite computePosition_unfold. unfold isRightChild.
  destruct f as [p b s|p b s]; cbn [fill repr fptr] in *.
  - apply (family_left x a l r p b s c), family_facts in Hnd
      as ((Hxp & Hxl & Hxr & Hxs & _) & _).
    destruct Ht as (Hpc & (Hx & _) & _).
    rewrite Hx. binds. rewrite Hpc. binds.
    rewrite bool_decide_eq_false_2.
    2:{ intros Hrs. by apply rootp_ptrs in Hrs. }
    rewrite Hp. binds. f_equal. rewrite wrap64_add_l. f_equal.
    cbn [pbefore]. rewrite length_app. simpl. lia.
  - apply (family_right x a l r p b s c), family_facts in Hnd
      as ((Hxp & Hxl & Hxr & Hxs & _) & _).
    destruct Ht as (Hpc & Hs & (Hx & _)).
    rewrite Hx. binds. rewrite Hpc. binds.
    rewrite bool_decide_eq_true_2 by done.
    unfold sumLeft. rewrite Hp. binds. rewrite Hpc. binds.
    rewrite (count_of_repr _ _ _ Hs). binds. f_equal.
    rewrite wrap_position. f_equal.
    cbn [pbefore]. rewrite length_app. simpl. rewrite tsize_nodes. lia.
Qed.

(** *** Finding a node in a tree *)

Lemma plug_app c1 c2 t : plug (c1 ++ c2) t = plug c2 (plug c1 t).
Proof. revert t. induction c1 as [|f c1 IH]; intros t; [done|]. apply IH. Qed.

Lemma focus t p a :
  (p, a) ∈ nodes_of t → ∃ c l r, t = plug c (T p a l r).
Proof.
  induction t as [|q b l IHl r IHr]; simpl; [by intros ?%elem_of_nil|].
  rewrite elem_of_cons, elem_of_app. intros [[= -> ->]|[Hin|Hin]].
  - by exists [], l, r.
  - destruct (IHl Hin) as (c & l' & r' & ->).
    exists (c ++ [FL q b r]), l', r'. by rewrite plug_app.
  - destruct (IHr Hin) as (c & l' & r' & ->).
    exists (c ++ [FR q b l]), l', r'. by rewrite plug_app.
Qed.

Lemma repr_lookup h par t q : repr h par t → q ∈ ptrs t → is_Some (h !! q).
Proof.
  revert par. induction t as [|p a l IHl r IHr]; intros par; simpl;
    [by intros _ ?%elem_of_nil|].
  intros (Hp & Hl & Hr). rewrite elem_of_cons, elem_of_app.
  intros [->|[Hin|Hin]]; [by eexists|by eapply IHl|by eapply IHr].
Qed.

(** *** Reading a represented tree back from the heap *)

Lemma preorder_repr h par t fuel :
  repr h par t → (height t ≤ fuel)%nat → preorder fuel h (rootp t) = addrs t.
Proof.
  revert par fuel. induction t as [|p a l IHl r IHr]; intros par fuel.
  { by destruct fuel. }
  simpl. intros (Hp & Hl & Hr) Hfuel.
  destruct fuel as [|fuel]; [lia|]. simpl. rewrite Hp. simpl.
  rewrite (IHl (Some p)), (IHr (Some p)); [done|done|lia|done|lia].
Qed.

Lemma subtree_size_repr h par t fuel :
  repr h par t → (height t ≤ fuel)%nat →
  subtree_size fuel h (rootp t) = tsize t.
Proof.
  revert par fuel. induction t as [|p a l IHl r IHr]; intros par fuel.
  { by destruct fuel. }
  simpl. intros (Hp & Hl & Hr) Hfuel.
  destruct fuel as [|fuel]; [lia|]. simpl. rewrite Hp. simpl.
  rewrite (IHl (Some p)), (IHr (Some p)); [done|done|lia|done|lia].
Qed.

(** *** The recency order *)

Lemma recency_snoc l a : recency (l ++ [a]) = touch (recency l) a.
Proof. unfold recency. by rewrite foldl_snoc. Qed.

Lemma touch_elem order a b : b ∈ touch order a ↔ b = a ∨ b ∈ order.
Proof.
  unfold touch. rewrite elem_of_cons, list_elem_of_filter.
  destruct (decide (b = a)); naive_solver.
Qed.

Lemma touch_NoDup order a : NoDup order → NoDup (touch order a).
Proof.
  intros H. unfold touch. apply NoDup_cons. split.
  - intros Hin. apply list_elem_of_filter in Hin as [Hne _]. by apply Hne.
  - by apply NoDup_filter.
Qed.

Lemma recency_elem l b : b ∈ recency l ↔ b ∈ l.
Proof.
  induction l as [|a l IH] using rev_ind; [done|].
  rewrite recency_snoc, touch_elem, IH, elem_of_app, list_elem_of_singleton.
  naive_solver.
Qed.

Lemma recency_NoDup l : NoDup (recency l).
Proof.
  induction l as [|a l IH] using rev_ind; [constructor|].
  rewrite recency_snoc. by apply touch_NoDup.
Qed.

Lemma filter_ne_fresh (order : list Z) a :
  a ∉ order → filter (λ b, b ≠ a) order = order.
Proof.
  induction order as [|b order IH]; [done|].
  rewrite not_elem_of_cons. intros [Hne Hin].
  rewrite filter_cons_True by done. by rewrite IH.
Qed.

Lemma touch_middle (B X : list Z) a :
  NoDup (B ++ a :: X) → touch (B ++ a :: X) a = a :: B ++ X.
Proof.
  intros Hnd. unfold touch. f_equal.
  apply NoDup_app in Hnd as (_ & Hd & Hnd).
  apply NoDup_cons in Hnd as [Ha _].
  assert (a ∉ B) as HB.
  { intros Hin. apply (Hd a Hin). by left. }
  rewrite filter_app, filter_cons_False by naive_solver.
  by rewrite !filter_ne_fresh.
Qed.

(** *** The invariant of the tracker *)

(** The heap of the tracker holds exactly the tree [t], [_root] points to
    its root and [_map] sends every address to its node. *)
Record Inv (s : state) (t : tree) : Prop := {
  inv_repr : repr (nodes s) None t;
  inv_root : _root s = rootp t;
  inv_nodup : NoDup (ptrs t);
  inv_dom : ∀ q, is_Some (nodes s !! q) ↔ q ∈ ptrs t;
  inv_map : ∀ a p, _map s !! a = Some p ↔ (p, a) ∈ nodes_of t;
  inv_addrs : NoDup (addrs t)
}.

Lemma Inv_size s t : Inv s t → size (nodes s) = length (ptrs t).
Proof.
  intros HI. rewrite <- size_dom.
  assert (dom (nodes s) = list_to_set (ptrs t)) as ->.
  { apply set_eq. intros q.
    rewrite elem_of_dom, elem_of_list_to_set. apply (inv_dom _ _ HI). }
  apply size_list_to_set, (inv_nodup _ _ HI).
Qed.

Lemma nodes_mtr_perm c x a l r :
  nodes_of (mtr c x a l r) ≡ₚ nodes_of (plug c (T x a l r)).
Proof.
  rewrite nodes_mtr, nodes_plug. simpl. rewrite <- !app_assoc.
  apply Permutation_middle.
Qed.

Lemma ptrs_mtr_perm c x a l r :
  ptrs (mtr c x a l r) ≡ₚ ptrs (plug c (T x a l r)).
Proof. rewrite !ptrs_nodes_of. by rewrite nodes_mtr_perm. Qed.

Lemma addrs_in_nodes t a : a ∈ addrs t ↔ ∃ p, (p, a) ∈ nodes_of t.
Proof.
  rewrite addrs_nodes_of, list_elem_of_fmap. split.
  - intros ([p a'] & -> & Hin). by exists p.
  - intros [p Hin]. by exists (p, a).
Qed.

Lemma ptrs_in_nodes t p a : (p, a) ∈ nodes_of t → p ∈ ptrs t.
Proof.
  intros Hin. rewrite ptrs_nodes_of, list_elem_of_fmap. by exists (p, a).
Qed.

Lemma addrs_plug_focus c x a l r :
  addrs (plug c (T x a l r))
  = (pbefore c).*2 ++ a :: (addrs l ++ addrs r ++ (pafter c).*2).
Proof.
  rewrite addrs_nodes_of, nodes_plug, fmap_app. f_equal.
  cbn [nodes_of]. rewrite fmap_app, fmap_cons, fmap_app. cbn [snd app].
  by rewrite <- app_assoc, !addrs_nodes_of.
Qed.

Lemma addrs_mtr c x a l r :
  addrs (mtr c x a l r)
  = a :: (pbefore c).*2 ++ (addrs l ++ addrs r ++ (pafter c).*2).
Proof.
  rewrite addrs_nodes_of, nodes_mtr, fmap_cons, !fmap_app. cbn [snd].
  by rewrite !addrs_nodes_of.
Qed.

Lemma Inv_init : Inv init Leaf.
Proof.
  split.
  - done.
  - done.
  - constructor.
  - intros q. simpl. rewrite lookup_empty. split; [by intros [? ?]|].
    by intros ?%elem_of_nil.
  - intros a p. simpl. rewrite lookup_empty.
    split; [done|by intros ?%elem_of_nil].
  - constructor.
Qed.

(** A reference to an address that has a node. *)
Lemma reference_known s c p a l r :
  Inv s (plug c (T p a l r)) →
  ∃ h',
    reference s a
    = Some (mkState h' (_map s) (Some p),
            int_log2 (wrap64 (1 + Z.of_nat (length (pbefore c))))) ∧
    Inv (mkState h' (_map s) (Some p)) (mtr c p a l r).
Proof.
  intros HI. set (t := plug c (T p a l r)) in *.
  pose proof (Inv_size _ _ HI) as Hsize.
  assert (Hm : _map s !! a = Some p).
  { apply (inv_map _ _ HI). unfold t. rewrite nodes_plug. simpl.
    rewrite elem_of_app, elem_of_cons. by right; left. }
  assert (Hlen : (length c ≤ length (ptrs t))%nat).
  { unfold t. rewrite length_ptrs_plug. pose proof (length_cptrs c). lia. }
  unfold reference. rewrite Hm, Hsize.
  rewrite (computePosition_spec c _ _ p a l r (inv_repr _ _ HI)
             (inv_nodup _ _ HI)) by lia.
  cbn [mbind option_bind]. unfold moveToRoot.
  destruct (moveToRoot_loop_spec c (S (length (ptrs t))) (S (length (ptrs t)))
              (_root s) (nodes s) p a l r)
    as (h' & Hmove & Hr' & Hf');
    [intros _; apply (inv_root _ _ HI)|apply (inv_repr _ _ HI)
    |apply (inv_nodup _ _ HI)|fold t; lia|lia|].
  rewrite Hmove. cbn [mbind option_bind]. exists h'. split; [done|].
  split; cbn [nodes _map _root].
  - done.
  - by rewrite root_mtr.
  - rewrite ptrs_mtr_perm. apply (inv_nodup _ _ HI).
  - intros q. split.
    + intros Hq. destruct (decide (q ∈ ptrs (mtr c p a l r))) as [|Hn];
        [done|exfalso].
      rewrite ptrs_mtr_perm in Hn. rewrite Hf' in Hq by done.
      by apply (inv_dom _ _ HI) in Hq.
    + by apply (repr_lookup _ None).
  - intros a' p'. rewrite (inv_map _ _ HI). fold t.
    by rewrite nodes_mtr_perm.
  - rewrite addrs_nodes_of, nodes_mtr_perm, <- addrs_nodes_of.
    apply (inv_addrs _ _ HI).
Qed.

(** A reference to an address that has no node yet. *)
Lemma reference_new s t a :
  Inv s t → _map s !! a = None →
  let node := fresh (dom (nodes s)) in
  ∃ h',
    reference s a
    = Some (mkState h' (<[a := node]> (_map s)) (Some node),
            int_log2 INT_MAX) ∧
    Inv (mkState h' (<[a := node]> (_map s)) (Some node))
        (insert_root node a t).
Proof.
  intros HI Hm node.
  pose proof (Inv_size _ _ HI) as Hsize.
  assert (Hfresh : node ∉ ptrs t).
  { intros Hin. apply (inv_dom _ _ HI) in Hin.
    apply elem_of_dom in Hin. by apply is_fresh in Hin. }
  assert (Ha : a ∉ addrs t).
  { intros [p Hin]%addrs_in_nodes. apply (inv_map _ _ HI) in Hin. congruence. }
  set (h1 := <[node := newNode a]> (nodes s)).
  assert (∃ h', match _root s with
                | Some r => insertAtRoot (S (size (nodes s))) node (Some r) h1
                | None => Some h1
                end = Some h' ∧
                repr h' None (insert_root node a t) ∧
                (∀ q, q ≠ node → q ∉ ptrs t → h' !! q = nodes s !! q))
    as (h' & Hins & Hr' & Hf').
  { rewrite (inv_root _ _ HI). destruct (rootp t) as [rt|] eqn:Hrt.
    - destruct (insertAtRoot_spec t (S (size (nodes s))) node h1 (newNode a) rt)
        as (h' & Hins & Hr' & Hf'); [done| | | |done|apply (inv_nodup _ _ HI)|].
      { pose proof (height_le_size t). lia. }
      { unfold h1. by rewrite lookup_insert_eq. }
      { unfold h1. apply repr_insert; [done|]. apply (inv_repr _ _ HI). }
      exists h'. split; [done|]. split; [done|].
      intros q Hq Hqt. rewrite Hf' by done. unfold h1.
      by rewrite lookup_insert_ne.
    - destruct t; [|done]. exists h1. split; [done|]. split.
      + unfold insert_root. simpl. split; [|done]. unfold h1.
        by rewrite lookup_insert_eq.
      + intros q Hq _. unfold h1. by rewrite lookup_insert_ne. }
  unfold reference. rewrite Hm. fold node. fold h1. rewrite Hins.
  cbn [mbind option_bind]. exists h'. split; [done|].
  assert (Hp' : ptrs (insert_root node a t) ≡ₚ node :: ptrs t).
  { rewrite !ptrs_nodes_of, nodes_insert_root. done. }
  split; cbn [nodes _map _root].
  - done.
  - done.
  - rewrite Hp'. apply NoDup_cons. split; [done|apply (inv_nodup _ _ HI)].
  - intros q. rewrite Hp'. split.
    + intros Hq. destruct (decide (q = node)) as [->|Hne]; [by left|].
      right. destruct (decide (q ∈ ptrs t)) as [|Hn]; [done|exfalso].
      rewrite Hf' in Hq by done. by apply (inv_dom _ _ HI) in Hq.
    + intros Hq. apply (repr_lookup _ None (insert_root node a t)); [done|].
      by rewrite Hp'.
  - intros a' p'. rewrite nodes_insert_root, elem_of_cons, lookup_insert.
    case_decide as Hd.
    + subst a'. split; [intros [= <-]; by left|].
      intros [[= -> ]|Hin]; [done|].
      exfalso. apply Ha, addrs_in_nodes. by exists p'.
    + rewrite (inv_map _ _ HI). split; [by right|].
      intros [[= -> ->]|]; done.
  - rewrite addrs_nodes_of, nodes_insert_root. simpl.
    rewrite <- addrs_nodes_of. apply NoDup_cons.
    split; [done|apply (inv_addrs _ _ HI)].
Qed.

(** What a call of [reference] does. *)
Lemma reference_spec s t a :
  Inv s t →
  ∃ s' r t', reference s a = Some (s', r) ∧ Inv s' t' ∧
    addrs t' = touch (addrs t) a ∧
    (∃ node, _map s' !! a = Some node ∧ _root s' = Some node) ∧
    (a ∉ addrs t → r = int_log2 INT_MAX) ∧
    (∀ i, addrs t !! i = Some a → r = int_log2 (wrap64 (1 + Z.of_nat i))).
Proof.
  intros HI. destruct (_map s !! a) as [p|] eqn:Hm.
  - pose proof Hm as Hin. apply (inv_map _ _ HI) in Hin.
    destruct (focus _ _ _ Hin) as (c & l & r & ->).
    destruct (reference_known s c p a l r HI) as (h' & Href & HI').
    eexists _, _, _. split; [exact Href|]. split; [exact HI'|].
    pose proof (inv_addrs _ _ HI) as Hnd.
    rewrite addrs_plug_focus in Hnd.
    split; [|split; [|split]].
    + rewrite addrs_plug_focus, touch_middle by done. apply addrs_mtr.
    + by exists p.
    + intros Hn. exfalso. apply Hn, addrs_in_nodes. by exists p.
    + intros i Hi. do 3 f_equal. rewrite addrs_plug_focus in Hi.
      assert (((pbefore c).*2 ++ a :: (addrs l ++ addrs r ++ (pafter c).*2))
                !! length (pbefore c) = Some a) as Hj.
      { rewrite lookup_app_r by (by rewrite length_fmap).
        by rewrite length_fmap, Nat.sub_diag. }
      by rewrite (NoDup_lookup _ _ _ _ Hnd Hi Hj).
  - destruct (reference_new s t a HI Hm) as (h' & Href & HI').
    eexists _, _, _. split; [exact Href|]. split; [exact HI'|].
    assert (Ha : a ∉ addrs t).
    { intros [p Hin]%addrs_in_nodes. apply (inv_map _ _ HI) in Hin.
      congruence. }
    split; [|split; [|split]].
    + rewrite addrs_nodes_of, nodes_insert_root. simpl.
      rewrite <- addrs_nodes_of. unfold touch. by rewrite filter_ne_fresh.
    + eexists. split; [|done]. cbn [_map]. by rewrite lookup_insert_eq.
    + done.
    + intros i Hi. exfalso. apply Ha. by eapply list_elem_of_lookup_2.
Qed.

Lemma treap_run_snoc l a : run (l ++ [a]) = step (run l) a.
Proof. unfold run. by rewrite foldl_snoc. Qed.

(** Every history runs, and leaves the tree in the recency order. *)
Lemma run_spec l :
  ∃ s r t, run l = Some (s, r) ∧ Inv s t ∧ addrs t = recency l.
Proof.
  induction l as [|a l IH] using rev_ind.
  - exists init, 0, Leaf. split; [done|]. split; [apply Inv_init|done].
  - destruct IH as (s & r & t & Hrun & HI & Haddrs).
    destruct (reference_spec s t a HI) as (s' & r' & t' & Href & HI' & Ht' & _).
    exists s', r', t'. rewrite treap_run_snoc, Hrun. split; [done|]. split; [done|].
    by rewrite recency_snoc, <- Haddrs.
Qed.


(** *** From the tree to the links of the heap *)

Lemma repr_ctx_parent h f c o sz :
  repr_ctx h (f :: c) o sz →
  ∃ m, h !! fptr f = Some m ∧ (_left m = o ∨ _right m = o).
Proof.
  destruct f as [p a s|p a s]; simpl; intros (Hp & _); eexists;
    (split; [exact Hp|]); simpl; [by left|by right].
Qed.

Lemma Inv_height s t : Inv s t → (height t ≤ size (nodes s))%nat.
Proof.
  intros HI. rewrite (Inv_size _ _ HI). apply height_le_size.
Qed.

Lemma height_plug c t : (height t ≤ height (plug c t))%nat.
Proof.
  revert t. induction c as [|f c IH]; intros t; [done|].
  simpl. etrans; [|apply IH]. destruct f; simpl; lia.
Qed.

Lemma tsize_plug c t : tsize t ≤ tsize (plug c t).
Proof.
  revert t. induction c as [|f c IH]; intros t; [done|].
  simpl. etrans; [|apply IH].
  destruct f as [p a s|p a s]; simpl; pose proof (tsize_nonneg s); lia.
Qed.

Lemma Inv_well_linked s t : Inv s t → well_linked (nodes s) (_root s).
Proof.
  intros HI p n Hp.
  assert (p ∈ ptrs t) as Hin by (apply (inv_dom _ _ HI); by eexists).
  rewrite ptrs_nodes_of in Hin. apply list_elem_of_fmap in Hin as ([p' a] & -> & Hin).
  destruct (focus _ _ _ Hin) as (c & l & r & ->). cbn [fst] in *.
  pose proof (inv_repr _ _ HI) as Hrepr.
  apply repr_plug in Hrepr as [Ht Hc]. cbn [repr] in Ht.
  destruct Ht as (Hcell & Hl & Hr). rewrite Hcell in Hp. injection Hp as <-.
  split; [|split; [|split]].
  - exists (wrap64 (tsize l)), (wrap64 (tsize r)). cbn [cell _left _right _count].
    rewrite (count_of_repr _ _ _ Hl), (count_of_repr _ _ _ Hr).
    by rewrite wrap_count.
  - unfold parent_ok. cbn [cell _parent]. destruct c as [|f c]; cbn [cpar].
    + by rewrite (inv_root _ _ HI).
    + apply (repr_ctx_parent _ _ _ _ _ Hc).
  - intros ch Hch. cbn [cell _left _right] in Hch.
    destruct Hch as [Hch|Hch].
    + destruct l as [|lp la ll lr]; [done|]. injection Hch as ->.
      destruct Hl as (Hlp & _). by eexists.
    + destruct r as [|rp ra rl rr]; [done|]. injection Hch as ->.
      destruct Hr as (Hrp & _). by eexists.
  - cbn [cell _count]. f_equal.
    rewrite (subtree_size_repr _ (cpar c) (T p' a l r)); [done|by split|].
    etrans; [apply (height_plug c)|]. by apply Inv_height.
Qed.

Lemma length_recency l : (length (recency l) ≤ length l)%nat.
Proof.
  induction l as [|a l IH] using rev_ind; [done|].
  rewrite recency_snoc, length_app. unfold touch. simpl.
  pose proof (length_filter (λ b, b ≠ a) (recency l)). lia.
Qed.

(** *** [moveToRoot] and [insertAtRoot] keep the invariant *)

Lemma moveToRoot_Inv s c p a l r fuel :
  Inv s (plug c (T p a l r)) → (size (nodes s) < fuel)%nat →
  ∃ h', moveToRoot fuel p (_root s) (nodes s) = Some h' ∧
        Inv (mkState h' (_map s) (Some p)) (mtr c p a l r).
Proof.
  intros HI Hfuel. set (t := plug c (T p a l r)) in *.
  pose proof (Inv_size _ _ HI) as Hsize.
  assert (Hlen : (length c ≤ length (ptrs t))%nat).
  { unfold t. rewrite length_ptrs_plug. pose proof (length_cptrs c). lia. }
  unfold moveToRoot.
  destruct (moveToRoot_loop_spec c fuel fuel (_root s) (nodes s) p a l r)
    as (h' & Hmove & Hr' & Hf');
    [intros _; apply (inv_root _ _ HI)|apply (inv_repr _ _ HI)
    |apply (inv_nodup _ _ HI)|fold t; lia|lia|].
  exists h'. split; [done|].
  split; cbn [nodes _map _root].
  - done.
  - by rewrite root_mtr.
  - rewrite ptrs_mtr_perm. apply (inv_nodup _ _ HI).
  - intros q. split.
    + intros Hq. destruct (decide (q ∈ ptrs (mtr c p a l r))) as [|Hn];
        [done|exfalso].
      rewrite ptrs_mtr_perm in Hn. rewrite Hf' in Hq by done.
      by apply (inv_dom _ _ HI) in Hq.
    + by apply (repr_lookup _ None).
  - intros a' p'. rewrite (inv_map _ _ HI). fold t.
    by rewrite nodes_mtr_perm.
  - rewrite addrs_nodes_of, nodes_mtr_perm, <- addrs_nodes_of.
    apply (inv_addrs _ _ HI).
Qed.

Lemma Inv_focus s t x :
  Inv s t → is_Some (nodes s !! x) → ∃ c a l r, t = plug c (T x a l r).
Proof.
  intros HI Hx. apply (inv_dom _ _ HI) in Hx.
  rewrite ptrs_nodes_of in Hx.
  apply list_elem_of_fmap in Hx as ([p' a] & -> & Hin).
  destruct (focus _ _ _ Hin) as (c & l & r & ->). by exists c, a, l, r.
Qed.

(** *** The depth of a node *)

Lemma depth_unfold fuel h p :
  depth fuel h p =
  n ← h !! p;
  match _parent n with
  | None => Some O
  | Some q =>
      match fuel with
      | O => None
      | S f => S <$> depth f h q
      end
  end.
Proof. by destruct fuel. Qed.

Lemma depth_spec c : ∀ fuel h x a l r,
  repr h None (plug c (T x a l r)) → (length c ≤ fuel)%nat →
  depth fuel h x = Some (length c).
Proof.
  induction c as [|f c IH]; intros fuel h x a l r Hrepr Hfuel.
  { cbn [plug] in Hrepr. destruct Hrepr as (Hx & _).
    rewrite depth_unfold, Hx. done. }
  destruct fuel as [|fuel]; [simpl in Hfuel; lia|].
  assert (Hx : h !! x = Some (cell (Some (fptr f)) a l r)).
  { apply repr_plug in Hrepr as [Ht _]. cbn [repr cpar] in Ht.
    by destruct Ht as (Hx & _). }
  rewrite depth_unfold, Hx. cbn [mbind option_bind cell _parent].
  cbn [plug] in Hrepr.
  destruct f as [p b s|p b s]; cbn [fill fptr] in *;
    erewrite IH; [done|exact Hrepr|simpl in Hfuel; lia
                 |done|exact Hrepr|simpl in Hfuel; lia].
Qed.

(** One execution of the body of the loop, for a node at depth
    [S (length c)]: with at most one child the node becomes the root at
    once, with two children it moves one level up. *)
Lemma body_step f c h fuel x a l r :
  repr h None (plug (f :: c) (T x a l r)) →
  NoDup (ptrs (plug (f :: c) (T x a l r))) →
  (length (ptrs (plug (f :: c) (T x a l r))) ≤ S fuel)%nat →
  ∃ h' t',
    moveToRoot_body fuel x (rootp (plug (f :: c) (T x a l r))) h = Some h' ∧
    repr h' None t' ∧ ptrs t' ≡ₚ ptrs (plug (f :: c) (T x a l r)) ∧
    ((l = Leaf ∨ r = Leaf) → depth fuel h' x = Some O) ∧
    (l ≠ Leaf → r ≠ Leaf → depth fuel h' x = Some (length c)).
Proof.
  intros Hrepr Hnd Hfuel.
  assert (Hlen : (length c ≤ fuel)%nat).
  { rewrite length_ptrs_plug in Hfuel. pose proof (length_cptrs (f :: c)).
    simpl in *. lia. }
  assert (Hsplice : l = Leaf ∨ r = Leaf → ∃ h' t',
    moveToRoot_body fuel x (rootp (plug (f :: c) (T x a l r))) h = Some h' ∧
    repr h' None t' ∧ ptrs t' ≡ₚ ptrs (plug (f :: c) (T x a l r)) ∧
    ((l = Leaf ∨ r = Leaf) → depth fuel h' x = Some O) ∧
    (l ≠ Leaf → r ≠ Leaf → depth fuel h' x = Some (length c))).
  { intros Hone.
    destruct (splice_spec f c h fuel x a l r Hone Hrepr Hnd Hfuel)
      as (h' & Hb & Hr' & _).
    exists h', (insert_root x a (plug (f :: c) (only_child l r))).
    split; [done|]. split; [done|]. split; [|split].
    - rewrite !ptrs_nodes_of, nodes_insert_root, !nodes_plug.
      rewrite (nodes_only_child _ _ Hone). simpl.
      rewrite !fmap_app. simpl. rewrite <- Permutation_middle.
      by rewrite !fmap_app, <- !app_assoc.
    - intros _. apply (depth_spec [] _ _ _ a _ _ Hr'). simpl. lia.
    - intros Hl Hr. by destruct Hone. }
  destruct l as [|lp la ll lr]; [apply Hsplice; by left|].
  destruct r as [|rp ra rl rr]; [apply Hsplice; by right|].
  clear Hsplice.
  destruct f as [p b s|p b s].
  - destruct (rotate_left_spec c h fuel
                (rootp (plug (FL p b s :: c) (T x a (T lp la ll lr) (T rp ra rl rr))))
                x a (T lp la ll lr) (T rp ra rl rr) p b s lp rp eq_refl
                eq_refl Hrepr Hnd) as (h1 & Hb & Hr1 & _).
    exists h1, (plug c (T x a (T p b (T lp la ll lr) (T rp ra rl rr)) s)).
    split; [done|]. split; [done|]. split; [apply ptrs_rotate_left|].
    split; [by intros [|]|]. intros _ _. by eapply depth_spec.
  - destruct (rotate_right_spec c h fuel
                (rootp (plug (FR p b s :: c) (T x a (T lp la ll lr) (T rp ra rl rr))))
                x a (T lp la ll lr) (T rp ra rl rr) p b s lp rp eq_refl
                eq_refl Hrepr Hnd) as (h1 & Hb & Hr1 & _).
    exists h1, (plug c (T x a (T p b s (T lp la ll lr)) (T rp ra rl rr))).
    split; [done|]. split; [done|]. split; [apply ptrs_rotate_right|].
    split; [by intros [|]|]. intros _ _. by eapply depth_spec.
Qed.

End TreapFacts.

(** ** [RD_Treap]: the properties of the specification *)

Module TreapSpec.
Import Bits BitsFacts Treap TreapFacts.

Lemma traversal_Inv s t : Inv s t → traversal s = addrs t.
Proof.
  intros HI. unfold traversal. rewrite (inv_root _ _ HI).
  apply (preorder_repr _ None); [apply (inv_repr _ _ HI)|].
  by apply Inv_height.
Qed.

(** C1. After every call of [reference] the preorder traversal of the tree
    is the recency order of the history, most recently referenced address
    first: it lists every referenced address once, and the node of the
    address just referenced is the root. *)
Theorem preorder_is_recency history address :
  ∃ s r, run (history ++ [address]) = Some (s, r) ∧
    traversal s = recency (history ++ [address]) ∧
    NoDup (traversal s) ∧
    (∀ b, b ∈ traversal s ↔ b ∈ history ++ [address]) ∧
    head (traversal s) = Some address ∧
    ∃ node n, _map s !! address = Some node ∧ _root s = Some node ∧
              nodes s !! node = Some n ∧ _address n = address ∧
              _parent n = None.
Proof.
  destruct (run_spec history) as (s0 & r0 & t0 & Hrun0 & HI0 & Ht0).
  destruct (reference_spec s0 t0 address HI0)
    as (s & r & t & Href & HI & Ht & (node & Hmap & Hroot) & _).
  exists s, r. rewrite treap_run_snoc, Hrun0. split; [done|].
  rewrite (traversal_Inv _ _ HI), recency_snoc, <- Ht0, <- Ht.
  split; [done|]. split; [apply (inv_addrs _ _ HI)|]. split; [|split].
  - intros b. rewrite Ht, touch_elem, Ht0, recency_elem, elem_of_app,
      list_elem_of_singleton. naive_solver.
  - by rewrite Ht.
  - pose proof (inv_repr _ _ HI) as Hrepr.
    pose proof (inv_root _ _ HI) as Hr. rewrite Hroot in Hr.
    destruct t as [|p a l rr]; [done|]. injection Hr as ->.
    destruct Hrepr as (Hp & _).
    exists p, (cell None a l rr). repeat split; try done.
    cbn [cell _address]. apply (inv_map _ _ HI) in Hmap.
    simpl in Hmap. apply elem_of_cons in Hmap as [Heq|Hmap]; [congruence|].
    exfalso. pose proof (inv_nodup _ _ HI) as Hndp. simpl in Hndp.
    apply NoDup_cons in Hndp as [Hnp _]. apply Hnp.
    rewrite !ptrs_nodes_of, <- fmap_app. apply list_elem_of_fmap.
    by exists (p, address).
Qed.

Lemma rank_small history t i :
  addrs t = recency history → Z.of_nat (length history) < 2 ^ 64 →
  (i < length (addrs t))%nat → wrap64 (1 + Z.of_nat i) = Z.of_nat i + 1.
Proof.
  intros Ht Hlen Hi. rewrite wrap64_small; [lia|].
  pose proof (length_recency history). rewrite Ht in Hi. lia.
Qed.

(** C2. In every state reached by a history of references,
    [computePosition] of a node is its rank in the preorder traversal,
    counted from one, every node has such a rank, and a reference to the
    address referenced last returns bucket [0]. *)
Theorem position_is_rank history :
  Z.of_nat (length history) < 2 ^ 64 →
  ∃ s r, run history = Some (s, r) ∧
    (∀ i a, traversal s !! i = Some a →
       ∃ node, _map s !! a = Some node ∧
         computePosition (S (size (nodes s))) node (nodes s)
         = Some (Z.of_nat i + 1)) ∧
    (∀ node, is_Some (nodes s !! node) →
       ∃ i a, traversal s !! i = Some a ∧ _map s !! a = Some node) ∧
    (∀ node, _root s = Some node →
       computePosition (S (size (nodes s))) node (nodes s) = Some 1) ∧
    (∀ a, last history = Some a → ∃ s', reference s a = Some (s', 0)).
Proof.
  intros Hlen. destruct (run_spec history) as (s & r & t & Hrun & HI & Ht).
  exists s, r. split; [done|]. rewrite (traversal_Inv _ _ HI).
  assert (Hpos : ∀ i a, addrs t !! i = Some a →
    ∃ node, _map s !! a = Some node ∧
      computePosition (S (size (nodes s))) node (nodes s)
      = Some (Z.of_nat i + 1)).
  { intros i a Hi.
    assert (a ∈ addrs t) as Hin by (by eapply list_elem_of_lookup_2).
    apply addrs_in_nodes in Hin as [p Hin].
    destruct (focus _ _ _ Hin) as (c & l & rr & ->).
    exists p. split; [by apply (inv_map _ _ HI)|].
    rewrite (computePosition_spec c _ _ p a l rr (inv_repr _ _ HI)
               (inv_nodup _ _ HI)).
    2:{ rewrite (Inv_size _ _ HI), length_ptrs_plug.
        pose proof (length_cptrs c). lia. }
    f_equal.
    assert (i = length (pbefore c)) as <-.
    { pose proof (inv_addrs _ _ HI) as Hnd.
      rewrite addrs_plug_focus in Hnd, Hi.
      eapply (NoDup_lookup _ _ _ _ Hnd Hi).
      rewrite lookup_app_r by (by rewrite length_fmap).
      by rewrite length_fmap, Nat.sub_diag. }
    apply (rank_small history _ _ Ht Hlen). by eapply lookup_lt_Some. }
  split; [done|]. split; [|split].
  - intros node Hnode. apply (inv_dom _ _ HI) in Hnode.
    rewrite ptrs_nodes_of in Hnode.
    apply list_elem_of_fmap in Hnode as ([p a] & -> & Hin).
    assert (a ∈ addrs t) as Ha by (apply addrs_in_nodes; by exists p).
    apply list_elem_of_lookup_1 in Ha as [i Hi].
    exists i, a. split; [done|]. by apply (inv_map _ _ HI).
  - intros node Hroot. rewrite (inv_root _ _ HI) in Hroot.
    destruct t as [|p a l rr]; [done|]. injection Hroot as ->.
    by rewrite (computePosition_spec [] _ _ node a l rr (inv_repr _ _ HI)
                  (inv_nodup _ _ HI)) by (simpl; lia).
  - intros a Hlast. apply last_Some in Hlast as [l' ->].
    rewrite recency_snoc in Ht.
    destruct (reference_spec s t a HI)
      as (s' & r' & t' & Href & _ & _ & _ & _ & Hr).
    exists s'. rewrite Href. do 2 f_equal.
    by rewrite (Hr O) by (by rewrite Ht).
Qed.

Lemma position_is_rank_witness :
  ∃ s r, run [7; 8; 9; 7] = Some (s, r) ∧ r = 1 ∧
    ∃ node, _map s !! 9 = Some node ∧
      computePosition (S (size (nodes s))) node (nodes s) = Some 2.
Proof.
  destruct (position_is_rank [7; 8; 9; 7]) as (s & r & Hrun & Hrank & _);
    [done|].
  exists s, r. split; [exact Hrun|]. split.
  - vm_compute in Hrun. by injection Hrun as _ <-.
  - apply (Hrank 1%nat 9).
    assert (traversal s = [7; 9; 8]) as ->; [|done].
    vm_compute in Hrun. injection Hrun as <- _. reflexivity.
Defined.
Lemma Inv_unknown s t history a :
  Inv s t → addrs t = recency history → a ∉ history → _map s !! a = None.
Proof.
  intros HI Ht Ha. destruct (_map s !! a) as [p|] eqn:Hm; [exfalso|done].
  apply (inv_map _ _ HI) in Hm. apply Ha, recency_elem. rewrite <- Ht.
  apply addrs_in_nodes. by exists p.
Qed.

Lemma Inv_subtree_size s t p n :
  Inv s t → nodes s !! p = Some n →
  0 ≤ subtree_size (size (nodes s)) (nodes s) (Some p)
    ≤ Z.of_nat (length (addrs t)).
Proof.
  intros HI Hp.
  destruct (Inv_focus s t p HI ltac:(by eexists)) as (c & a & l & r & ->).
  pose proof (inv_repr _ _ HI) as Hrepr.
  apply repr_plug in Hrepr as [Ht _].
  rewrite (subtree_size_repr _ (cpar c) (T p a l r)); [|done|].
  2:{ etrans; [apply (height_plug c)|]. by apply Inv_height. }
  split; [apply tsize_nonneg|].
  etrans; [apply (tsize_plug c)|].
  rewrite tsize_length, length_addrs. done.
Qed.

(** C3. After every call of [reference] every node's [_count] is the sum
    the code asserts, which is the number of nodes of its subtree, and the
    parent and child pointers agree; [moveToRoot] of any node and
    [insertAtRoot] of a new node (with the [stealChild] it makes) leave the
    heap in that condition. *)
Theorem links_and_counts :
  (∀ history, ∃ s r, run history = Some (s, r) ∧
     well_linked (nodes s) (_root s) ∧
     (Z.of_nat (length history) < 2 ^ 64 →
      ∀ p n, nodes s !! p = Some n →
        _count n = subtree_size (size (nodes s)) (nodes s) (Some p))) ∧
  (∀ history x, ∃ s r, run history = Some (s, r) ∧
     (is_Some (nodes s !! x) →
      ∃ h', moveToRoot (S (size (nodes s))) x (_root s) (nodes s) = Some h' ∧
            well_linked h' (Some x))) ∧
  (∀ history a, ∃ s r, run history = Some (s, r) ∧
     (a ∉ history → ∀ rt, _root s = Some rt →
      ∃ h', insertAtRoot (S (size (nodes s))) (fresh (dom (nodes s))) (Some rt)
              (<[fresh (dom (nodes s)) := newNode a]> (nodes s)) = Some h' ∧
            well_linked h' (Some (fresh (dom (nodes s)))))).
Proof.
  split; [|split].
  - intros history.
    destruct (run_spec history) as (s & r & t & Hrun & HI & Ht).
    exists s, r. split; [done|]. pose proof (Inv_well_linked _ _ HI) as Hwl.
    split; [done|]. intros Hlen p n Hp.
    destruct (Hwl p n Hp) as (_ & _ & _ & ->).
    pose proof (Inv_subtree_size _ _ _ _ HI Hp) as Hs.
    pose proof (length_recency history). rewrite Ht in Hs.
    apply wrap64_small. lia.
  - intros history x.
    destruct (run_spec history) as (s & r & t & Hrun & HI & Ht).
    exists s, r. split; [done|]. intros Hx.
    destruct (Inv_focus s t x HI Hx) as (c & a & l & rr & ->).
    destruct (moveToRoot_Inv s c x a l rr (S (size (nodes s))) HI ltac:(lia))
      as (h' & Hm & HI').
    exists h'. split; [done|]. apply (Inv_well_linked _ _ HI').
  - intros history a.
    destruct (run_spec history) as (s & r & t & Hrun & HI & Ht).
    exists s, r. split; [done|]. intros Ha rt Hrt.
    pose proof (Inv_unknown _ _ _ _ HI Ht Ha) as Hm.
    destruct (reference_new s t a HI Hm) as (h' & Href & HI').
    unfold reference in Href. rewrite Hm, Hrt in Href.
    destruct (insertAtRoot _ _ _ _) as [h''|]; [|done].
    cbn [mbind option_bind] in Href. injection Href as <-.
    exists h''. split; [done|]. apply (Inv_well_linked _ _ HI').
Qed.

Lemma links_and_counts_witness :
  ∃ s r, run [3; 4; 5; 3] = Some (s, r) ∧
    ∀ p n, nodes s !! p = Some n →
      _count n = subtree_size (size (nodes s)) (nodes s) (Some p).
Proof.
  destruct (proj1 links_and_counts [3; 4; 5; 3]) as (s & r & Hrun & _ & Hc).
  exists s, r. split; [exact Hrun|]. by apply Hc.
Defined.

(** *** A history that ends with fresh addresses *)

Lemma foldl_touch_fresh (fr : list Z) : ∀ acc,
  NoDup fr → (∀ b, b ∈ fr → b ∉ acc) →
  foldl touch acc fr = reverse fr ++ acc.
Proof.
  induction fr as [|b fr IH]; intros acc Hnd Hfr; [done|].
  apply NoDup_cons in Hnd as [Hb Hnd]. simpl. rewrite IH; [|done|].
  - rewrite reverse_cons, <- app_assoc. simpl. unfold touch.
    rewrite filter_ne_fresh; [done|]. apply Hfr. by left.
  - intros b' Hb'. rewrite touch_elem. intros [->|Hin]; [done|].
    by apply (Hfr b'); [right|].
Qed.

(** The claim C4 as the specification states it: bucket
    [floor(log2(k+1))] for the re-reference after [k] distinct
    addresses. *)
Definition reuse_bucket_succ : Prop :=
  ∀ first rest, NoDup (first :: rest) →
    ∃ s r s', run (first :: rest) = Some (s, r) ∧
      reference s first
      = Some (s', Z.log2 (Z.of_nat (length (first :: rest)) + 1)).

(** It fails for one address referenced twice: the second call returns
    [0], not [floor(log2 2) = 1]. *)
Lemma reuse_bucket_succ_fails : ¬ reuse_bucket_succ.
Proof.
  intros H. destruct (H 5 []) as (s & r & s' & Hrun & Href).
  { repeat constructor. by intros ?%elem_of_nil. }
  vm_compute in Hrun. injection Hrun as <- _.
  vm_compute in Href. discriminate.
Qed.

(** C4, amended. After [k ≥ 1] distinct addresses never referenced before,
    a reference to the first of them returns [floor(log2 k)]: its rank in
    the recency order is [k]. *)
Theorem reuse_bucket prefix first rest :
  NoDup (first :: rest) → (∀ b, b ∈ first :: rest → b ∉ prefix) →
  Z.of_nat (length (first :: rest)) < 2 ^ 64 →
  ∃ s r s', run (prefix ++ first :: rest) = Some (s, r) ∧
    reference s first
    = Some (s', Z.log2 (Z.of_nat (length (first :: rest)))).
Proof.
  intros Hnd Hfresh Hlen.
  destruct (run_spec (prefix ++ first :: rest))
    as (s & r & t & Hrun & HI & Ht).
  destruct (reference_spec s t first HI)
    as (s' & r' & t' & Href & _ & _ & _ & _ & Hr).
  exists s, r, s'. split; [done|]. rewrite Href. do 2 f_equal.
  assert (recency (prefix ++ first :: rest)
          = reverse (first :: rest) ++ recency prefix) as Hrec.
  { unfold recency. rewrite foldl_app. apply foldl_touch_fresh; [done|].
    intros b Hb. fold (recency prefix). rewrite recency_elem.
    by apply Hfresh. }
  rewrite (Hr (length rest)).
  - simpl in Hlen. rewrite wrap64_small by lia.
    rewrite int_log2_spec by lia. f_equal. simpl. lia.
  - rewrite Ht, Hrec, reverse_cons, <- app_assoc.
    rewrite lookup_app_r by (by rewrite length_reverse).
    by rewrite length_reverse, Nat.sub_diag.
Qed.

Lemma reuse_bucket_witness :
  ∃ s r s', run ([1; 2] ++ 5 :: [6; 7]) = Some (s, r) ∧
            reference s 5 = Some (s', 1).
Proof.
  apply (reuse_bucket [1; 2] 5 [6; 7]).
  - apply (bool_decide_unpack (NoDup (5 :: [6; 7]))). vm_compute. exact I.
  - apply Forall_forall.
    apply (bool_decide_unpack (Forall (λ b, b ∉ [1; 2]) (5 :: [6; 7]))).
    vm_compute. exact I.
  - done.
Defined.

End TreapSpec.

(** ** Both trackers: first references and termination *)

Module TrackersSpec.
Import Bits BitsFacts.

(** C8. A reference to an address never referenced before returns the
    largest bucket: [floor(log2 INT_MAX) = 30] on [RD_Treap], and
    [MAX_SIZE_BITS = 24] on [RD_LogRR]. *)
Theorem first_touch history a :
  a ∉ history →
  (∃ s r s', Treap.run history = Some (s, r) ∧
             Treap.reference s a = Some (s', int_log2 INT_MAX)) ∧
  int_log2 INT_MAX = Z.log2 (2 ^ 31 - 1) ∧ INT_MAX = 2 ^ 31 - 1 ∧
  int_log2 INT_MAX = 30 ∧
  (∃ s r s', LogRR.run history = Some (s, r) ∧
             LogRR.reference s a = Some (s', LogRR.MAX_SIZE_BITS)) ∧
  LogRR.MAX_SIZE_BITS = 24.
Proof.
  intros Ha. split; [|split; [done|split; [done|split; [done|split; [|done]]]]].
  - destruct (TreapFacts.run_spec history) as (s & r & t & Hrun & HI & Ht).
    destruct (TreapFacts.reference_spec s t a HI)
      as (s' & r' & t' & Href & _ & _ & _ & Hr & _).
    exists s, r, s'. split; [done|]. rewrite Href, Hr; [done|].
    rewrite Ht, TreapFacts.recency_elem. done.
  - destruct (LogRRFacts.run_Reach0 history) as (s & r & Hrun & [HI Hinit]).
    assert (Hmap : LogRR.entries_map (LogRR.allocate s) !! a = None).
    { destruct (LogRR.entries_map (LogRR.allocate s) !! a) as [i|] eqn:Hm;
        [exfalso|done].
      destruct (Z.eq_dec a 0) as [->|Hnz].
      - assert (Forall (λ b, b ≠ 0) history) as Hall.
        { apply Forall_forall. intros b Hb ->. done. }
        destruct (ResidencyFacts.run_Exact history Hall)
          as (s0 & r0 & Hrun0 & _ & _ & HE).
        rewrite Hrun in Hrun0. injection Hrun0 as <- <-.
        assert (LogRR.entries_map s !! 0 = Some i) as Hm'.
        { revert Hm. unfold LogRR.allocate. by destruct (_ =? _). }
        apply HE in Hm' as [Hne _]. done.
      - apply Ha. apply (LogRRFacts.inv_keys _ _ HI a); [by eexists|done]. }
    destruct (LogRRFacts.reference_inv0 (λ b, b ∈ history ∨ b = a)
                (LogRR.allocate s) a)
      as (s' & r' & Href & _ & _ & Hmiss & _).
    { eapply LogRRFacts.Inv0_mono; [|exact HI]. intros b Hb. by left. }
    { by right. }
    exists s, r, s'. split; [done|].
    rewrite (LogRRSpec.reference_allocate _ s a HI), Href.
    by rewrite (Hmiss Hmap).
Qed.

Lemma first_touch_witness :
  (∃ s r s', Treap.run [4; 5] = Some (s, r) ∧
             Treap.reference s 6 = Some (s', 30)) ∧
  (∃ s r s', LogRR.run [4; 5] = Some (s, r) ∧
             LogRR.reference s 6 = Some (s', 24)).
Proof.
  destruct (first_touch [4; 5] 6) as (H1 & _ & _ & _ & H2 & _).
  - apply (bool_decide_unpack (6 ∉ [4; 5])). vm_compute. exact I.
  - split; [exact H1|exact H2].
Defined.

(** C9. Every call of [reference] returns, on both trackers; [moveToRoot]
    returns for every node of every reachable tree once the fuel exceeds
    the number of nodes; and in a heap that holds a tree, one execution of
    the body of its loop on a node at depth [S d] either makes the node
    the root at once (at most one child) or brings it to depth [d] (two
    children), leaving a heap that holds a tree over the same nodes. *)
Theorem reference_terminates :
  (∀ history a, ∃ s r s' r',
     Treap.run history = Some (s, r) ∧ Treap.reference s a = Some (s', r')) ∧
  (∀ history a, ∃ s r s' r',
     LogRR.run history = Some (s, r) ∧ LogRR.reference s a = Some (s', r')) ∧
  (∀ history, ∃ s r, Treap.run history = Some (s, r) ∧
     ∀ x fuel, is_Some (Treap.nodes s !! x) →
       (size (Treap.nodes s) < fuel)%nat →
       is_Some (Treap.moveToRoot fuel x (Treap._root s) (Treap.nodes s))) ∧
  (∀ h t x n q fuel,
     TreapFacts.repr h None t → NoDup (TreapFacts.ptrs t) →
     (length (TreapFacts.ptrs t) ≤ S fuel)%nat → x ∈ TreapFacts.ptrs t →
     h !! x = Some n → Treap._parent n = Some q →
     ∃ h' d,
       Treap.moveToRoot_body fuel x (TreapFacts.rootp t) h = Some h' ∧
       Treap.depth fuel h x = Some (S d) ∧
       (∃ t', TreapFacts.repr h' None t' ∧
              TreapFacts.ptrs t' ≡ₚ TreapFacts.ptrs t) ∧
       (Treap._left n = None ∨ Treap._right n = None →
        Treap.depth fuel h' x = Some O) ∧
       (is_Some (Treap._left n) → is_Some (Treap._right n) →
        Treap.depth fuel h' x = Some d)).
Proof.
  split; [|split; [|split]].
  - intros history a.
    destruct (TreapFacts.run_spec history) as (s & r & t & Hrun & HI & Ht).
    destruct (TreapFacts.reference_spec s t a HI) as (s' & r' & _ & Href & _).
    by exists s, r, s', r'.
  - intros history a.
    destruct (LogRRFacts.run_Reach0 history) as (s & r & Hrun & [HI _]).
    destruct (LogRRFacts.reference_inv0 (λ _, True) (LogRR.allocate s) a)
      as (s' & r' & Href & _); [by eapply LogRRFacts.Inv0_mono|done|].
    exists s, r, s', r'. split; [done|].
    by rewrite (LogRRSpec.reference_allocate _ s a HI).
  - intros history.
    destruct (TreapFacts.run_spec history) as (s & r & t & Hrun & HI & Ht).
    exists s, r. split; [done|]. intros x fuel Hx Hfuel.
    destruct (TreapFacts.Inv_focus s t x HI Hx) as (c & a & l & rr & ->).
    destruct (TreapFacts.moveToRoot_Inv s c x a l rr fuel HI Hfuel)
      as (h' & Hm & _).
    by exists h'.
  - intros h t x n q fuel Hrepr Hnd Hlen Hx Hn Hq.
    rewrite TreapFacts.ptrs_nodes_of in Hx.
    apply list_elem_of_fmap in Hx as ([p a] & -> & Hin). cbn [fst] in *.
    destruct (TreapFacts.focus _ _ _ Hin) as (c & l & r & ->).
    pose proof Hrepr as Hrepr'.
    apply TreapFacts.repr_plug in Hrepr' as [Ht _].
    cbn [TreapFacts.repr] in Ht. destruct Ht as (Hcell & _).
    rewrite Hcell in Hn. injection Hn as <-.
    cbn [TreapFacts.cell Treap._parent Treap._left Treap._right] in *.
    destruct c as [|f c]; [done|].
    destruct (TreapFacts.body_step f c h fuel p a l r Hrepr Hnd Hlen)
      as (h' & t' & Hb & Hr' & Hperm & Hone & Htwo).
    exists h', (length c). split; [done|]. split; [|split; [|split]].
    + apply (TreapFacts.depth_spec (f :: c) fuel h p a l r Hrepr).
      rewrite TreapFacts.length_ptrs_plug in Hlen.
      pose proof (TreapFacts.length_cptrs (f :: c)). simpl in *. lia.
    + by exists t'.
    + intros [Hl|Hr]; apply Hone; [left|right]; by destruct l, r.
    + intros [? Hl] [? Hr]. apply Htwo; by destruct l, r.
Qed.

Lemma reference_terminates_witness :
  ∃ h', Treap.moveToRoot_body 2 1%positive (Some 3%positive)
          (<[3%positive := Treap.mkNode 9 None (Some 2%positive)
                             (Some 1%positive) 3]>
             (<[2%positive := Treap.mkNode 8 (Some 3%positive) None None 1]>
                (<[1%positive := Treap.mkNode 7 (Some 3%positive) None None 1]>
                   ∅))) = Some h' ∧
        Treap.depth 2 h' 1%positive = Some O.
Proof.
  destruct (proj2 (proj2 (proj2 reference_terminates))
              (<[3%positive := Treap.mkNode 9 None (Some 2%positive)
                                 (Some 1%positive) 3]>
                 (<[2%positive := Treap.mkNode 8 (Some 3%positive) None None 1]>
                    (<[1%positive := Treap.mkNode 7 (Some 3%positive) None None 1]>
                       ∅)))
              (TreapFacts.T 3 9 (TreapFacts.T 2 8 TreapFacts.Leaf TreapFacts.Leaf)
                 (TreapFacts.T 1 7 TreapFacts.Leaf TreapFacts.Leaf))
              1%positive (Treap.mkNode 7 (Some 3%positive) None None 1)
              3%positive 2%nat)
    as (h' & d & Hb & _ & _ & Hone & _).
  - vm_compute. repeat split.
  - apply (bool_decide_unpack (NoDup [3; 2; 1]%positive)). vm_compute. exact I.
  - simpl. lia.
  - apply (bool_decide_unpack (1%positive ∈ [3; 2; 1]%positive)).
    vm_compute. exact I.
  - reflexivity.
  - reflexivity.
  - exists h'. split; [exact Hb|]. apply Hone. by left.
Defined.

End TrackersSpec.

(* ===================================================================== *)
(** * Part III: the operations one by one                                 *)
(* ===================================================================== *)

(** ** [lzcount] and [int_log2] on every 64-bit value *)

Module BitsProps.
Import Bits BitsFacts.

Lemma lzcount_range v : 0 ≤ lzcount v < 2 ^ 32.
Proof.
  unfold lzcount. destruct (v =? 0); [lia|]. cbv zeta.
  destruct (negb _); unfold wrap32; apply Z.mod_pos_bound; lia.
Qed.

Lemma lzcount_log2 v : 0 < v < 2 ^ 64 → lzcount v = 63 - Z.log2 v.
Proof.
  intros Hv. pose proof (int_log2_spec v Hv) as Hlog.
  pose proof (lzcount_range v) as Hr.
  assert (0 ≤ Z.log2 v < 64) as Hl.
  { split; [apply Z.log2_nonneg|]. apply Z.log2_lt_pow2; lia. }
  unfold int_log2, wrap32, wrap64 in Hlog.
  change (8 * 8 - 1) with 63 in Hlog.
  destruct (Z.le_gt_cases (lzcount v) 63) as [Hle|Hgt].
  - rewrite (Z.mod_small (63 - lzcount v)) in Hlog by lia.
    rewrite Z.mod_small in Hlog by lia. lia.
  - replace (63 - lzcount v) with (2 ^ 64 + 63 - lzcount v + (-1) * 2 ^ 64)
      in Hlog by lia.
    rewrite Z.mod_add in Hlog by lia.
    rewrite (Z.mod_small (2 ^ 64 + 63 - lzcount v)) in Hlog by lia.
    replace (2 ^ 64 + 63 - lzcount v)
      with (2 ^ 32 + 63 - lzcount v + (2 ^ 32 - 1) * 2 ^ 32) in Hlog by lia.
    rewrite Z.mod_add in Hlog by lia.
    rewrite Z.mod_small in Hlog by lia. lia.
Qed.

(** X1. [lzcount] counts the leading zero bits of a 64-bit value: it
    returns [64] on [0] and [63 - floor(log2 v)] otherwise, the bit below
    the counted ones is set and the counted ones are clear. *)
Theorem lzcount_leading_zeros v :
  0 ≤ v < 2 ^ 64 →
  0 ≤ lzcount v ≤ 64 ∧
  (lzcount v = 64 ↔ v = 0) ∧
  (0 < v → lzcount v = 63 - Z.log2 v ∧
           Z.testbit v (63 - lzcount v) = true) ∧
  ∀ i, 64 - lzcount v ≤ i → Z.testbit v i = false.
Proof.
  intros Hv. destruct (Z.eq_dec v 0) as [->|Hnz].
  - split; [done|]. split; [done|]. split; [lia|].
    intros i _. apply Z.bits_0.
  - assert (0 < v < 2 ^ 64) as Hpos by lia.
    pose proof (lzcount_log2 v Hpos) as Hlz.
    assert (0 ≤ Z.log2 v < 64) as Hl.
    { split; [apply Z.log2_nonneg|]. apply Z.log2_lt_pow2; lia. }
    split; [lia|]. split; [lia|]. split.
    + intros _. split; [done|]. rewrite Hlz.
      replace (63 - (63 - Z.log2 v)) with (Z.log2 v) by lia.
      apply Z.bit_log2. lia.
    + intros i Hi. apply Z.bits_above_log2; lia.
Qed.

Lemma lzcount_leading_zeros_witness :
  lzcount 40 = 63 - Z.log2 40 ∧ Z.testbit 40 (63 - lzcount 40) = true.
Proof.
  apply (proj1 (proj2 (proj2 (lzcount_leading_zeros 40 ltac:(lia))))). lia.
Defined.

(** X2. On a non-zero 64-bit value [int_log2] is the position of the
    highest set bit, [2^(int_log2 v) ≤ v < 2^(int_log2 v + 1)], and it is
    monotone; on [0] the subtraction wraps around, so the result is a bit
    position exactly when the argument is not [0]. *)
Theorem int_log2_floor v w :
  0 ≤ v → v ≤ w → w < 2 ^ 64 →
  (0 ≤ int_log2 v < 64 ↔ 0 < v) ∧
  (v = 0 → int_log2 v = 2 ^ 32 - 1) ∧
  (0 < v → 2 ^ int_log2 v ≤ v < 2 ^ (int_log2 v + 1) ∧
           int_log2 v ≤ int_log2 w).
Proof.
  intros Hv Hvw Hw. destruct (Z.eq_dec v 0) as [->|Hnz].
  - split; [|split; [done|lia]].
    change (int_log2 0) with (2 ^ 32 - 1). lia.
  - rewrite (int_log2_spec v) by lia.
    assert (0 ≤ Z.log2 v < 64) as Hl.
    { split; [apply Z.log2_nonneg|]. apply Z.log2_lt_pow2; lia. }
    split; [lia|]. split; [lia|]. intros Hpos. split.
    + replace (Z.log2 v + 1) with (Z.succ (Z.log2 v)) by lia.
      apply Z.log2_spec. lia.
    + rewrite (int_log2_spec w) by lia. by apply Z.log2_le_mono.
Qed.

Lemma int_log2_floor_witness :
  2 ^ int_log2 1000 ≤ 1000 < 2 ^ (int_log2 1000 + 1) ∧
  int_log2 1000 ≤ int_log2 5000.
Proof.
  apply (int_log2_floor 1000 5000); lia.
Defined.

End BitsProps.

(** ** The operations of [RD_Treap::Node] on an arbitrary tree *)

Module TreapOps.
Import Bits BitsFacts Treap TreapFacts.

#[local] Arguments updateCount : simpl never.
#[local] Arguments stealChild : simpl never.
#[local] Arguments computePosition : simpl never.

Lemma steal_height t :
  (height (steal t).1 ≤ height t)%nat ∧ (height (steal t).2 ≤ height t)%nat.
Proof.
  induction t as [|p a l [IHl1 IHl2] r _]; [done|].
  destruct r as [|q b rl rr]; cbn [steal fst snd height] in *; lia.
Qed.

Lemma repr_nodes h par t p a :
  repr h par t → (p, a) ∈ nodes_of t → ∃ n, h !! p = Some n ∧ _address n = a.
Proof.
  revert par. induction t as [|q b l IHl r IHr]; intros par Hr Hin.
  - by apply elem_of_nil in Hin.
  - cbn [repr nodes_of] in *. destruct Hr as (Hq & Hl & Hrr).
    apply elem_of_cons in Hin as [[= -> ->]|Hin]; [by eexists|].
    apply elem_of_app in Hin as [Hin|Hin]; eauto.
Qed.

Lemma repr_focus h c x a l r :
  repr h None (plug c (T x a l r)) →
  h !! x = Some (cell (cpar c) a l r) ∧
  repr h (Some x) l ∧ repr h (Some x) r ∧
  repr_ctx h c (Some x) (1 + tsize l + tsize r).
Proof. intros Hr. apply repr_plug in Hr as [(? & ? & ?) ?]. done. Qed.

(** X3. In a heap that holds a tree, [isRightChild] tells whether the node
    hangs below its parent on the right: it is [false] at the root and at
    a left child, [true] at a right child. *)
Theorem isRightChild_spec c h x a l r :
  repr h None (plug c (T x a l r)) →
  NoDup (ptrs (plug c (T x a l r))) →
  isRightChild x h
  = Some (match c with FR _ _ _ :: _ => true | _ => false end).
Proof.
  intros Hr Hnd. destruct (repr_focus _ _ _ _ _ _ Hr) as (Hx & _ & _ & Hc).
  unfold isRightChild. rewrite Hx. cbn [mbind option_bind cell _parent].
  destruct c as [|[p b s|p b s] c]; cbn [cpar fptr repr_ctx] in *; [done|..].
  - destruct Hc as (Hp & _ & _). rewrite Hp. cbn [mbind option_bind _right].
    f_equal. apply bool_decide_eq_false. intros Hs.
    apply family_left in Hnd. apply family_facts in Hnd as ((_ & _ & _ & Hxs & _) & _).
    by apply rootp_ptrs in Hs.
  - destruct Hc as (Hp & _ & _). rewrite Hp. cbn [mbind option_bind _right].
    f_equal. by apply bool_decide_eq_true.
Qed.

Lemma isRightChild_spec_witness :
  isRightChild 1%positive
    (<[3%positive := mkNode 9 None (Some 2%positive) (Some 1%positive) 3]>
       (<[2%positive := mkNode 8 (Some 3%positive) None None 1]>
          (<[1%positive := mkNode 7 (Some 3%positive) None None 1]> ∅)))
  = Some true.
Proof.
  apply (isRightChild_spec [FR 3 9 (T 2 8 Leaf Leaf)] _ 1 7 Leaf Leaf).
  - vm_compute. repeat split.
  - apply (bool_decide_unpack (NoDup [3; 2; 1]%positive)). vm_compute. exact I.
Defined.

(** X4. [sumLeft] of a node is the number of nodes that precede its right
    child in the preorder traversal: the nodes before the node, the node
    and its left subtree; so the position of a right child is one more,
    and the position of a left child is one more than the position of the
    node. All values are taken modulo [2^64]. *)
Theorem sumLeft_spec c fuel h x a l r :
  repr h None (plug c (T x a l r)) →
  NoDup (ptrs (plug c (T x a l r))) →
  (length c ≤ fuel)%nat →
  sumLeft (computePosition fuel) x h
  = Some (wrap64 (Z.of_nat (length (pbefore c)) + 1 + tsize l)) ∧
  (∀ y, rootp r = Some y →
     computePosition (S fuel) y h
     = Some (wrap64 (Z.of_nat (length (pbefore c)) + 1 + tsize l + 1))) ∧
  (∀ y, rootp l = Some y →
     computePosition (S fuel) y h
     = Some (wrap64 (Z.of_nat (length (pbefore c)) + 1 + 1))).
Proof.
  intros Hr Hnd Hlen. split; [|split].
  - unfold sumLeft. rewrite (computePosition_spec c fuel h x a l r) by done.
    destruct (repr_focus _ _ _ _ _ _ Hr) as (Hx & Hl & _ & _).
    cbn [mbind option_bind]. rewrite Hx. cbn [mbind option_bind cell _left].
    rewrite (count_of_repr _ _ _ Hl). cbn [mbind option_bind]. f_equal.
    unfold wrap64. rewrite Zplus_mod_idemp_l, Zplus_mod_idemp_r. f_equal. lia.
  - intros y Hy. destruct r as [|y' b rl rr]; [done|]. injection Hy as ->.
    rewrite (computePosition_spec (FR x a l :: c) (S fuel) h y b rl rr);
      [|done|done|simpl; lia].
    f_equal. f_equal. cbn [pbefore]. rewrite length_app. cbn [length].
    rewrite tsize_nodes. lia.
  - intros y Hy. destruct l as [|y' b ll lr]; [done|]. injection Hy as ->.
    rewrite (computePosition_spec (FL x a r :: c) (S fuel) h y b ll lr);
      [|done|done|simpl; lia].
    f_equal. f_equal. cbn [pbefore]. rewrite length_app. cbn [length]. lia.
Qed.

Lemma sumLeft_spec_witness :
  sumLeft (computePosition 0) 3%positive
    (<[3%positive := mkNode 9 None (Some 2%positive) (Some 1%positive) 3]>
       (<[2%positive := mkNode 8 (Some 3%positive) None None 1]>
          (<[1%positive := mkNode 7 (Some 3%positive) None None 1]> ∅)))
  = Some 2.
Proof.
  apply (sumLeft_spec [] 0 _ 3 9 (T 2 8 Leaf Leaf) (T 1 7 Leaf Leaf)).
  - vm_compute. repeat split.
  - apply (bool_decide_unpack (NoDup [3; 2; 1]%positive)). vm_compute. exact I.
  - simpl. lia.
Defined.

(** A small tree to run the operations on: node [3] at the root with the
    leaves [2] on the left and [1] on the right. *)
Definition sample_tree : tree := T 3 9 (T 2 8 Leaf Leaf) (T 1 7 Leaf Leaf).

Definition sample_heap : gmap positive Node :=
  <[3%positive := mkNode 9 None (Some 2%positive) (Some 1%positive) 3]>
    (<[2%positive := mkNode 8 (Some 3%positive) None None 1]>
       (<[1%positive := mkNode 7 (Some 3%positive) None None 1]> ∅)).

Lemma sample_repr : repr sample_heap None sample_tree.
Proof. vm_compute. repeat split. Qed.

Lemma sample_NoDup : NoDup (ptrs sample_tree).
Proof.
  apply (bool_decide_unpack (NoDup [3; 2; 1]%positive)). vm_compute. exact I.
Qed.

(** X5. [updateCount(true)] repairs the counts on the way up: when every
    ancestor of a subtree is linked as in the tree but holds the count it
    had for a subtree of another size, the call at the parent leaves the
    heap holding the tree, and changes no node off the path. *)
Theorem updateCount_path c fuel h t sz p :
  cpar c = Some p → (length c ≤ S fuel)%nat → NoDup (ptrs (plug c t)) →
  repr_ctx h c (rootp t) sz → repr h (Some p) t →
  ∃ h', updateCount fuel p true h = Some h' ∧ repr h' None (plug c t) ∧
        (∀ q, q ∉ cptrs c → h' !! q = h !! q).
Proof.
  intros Hp Hlen Hnd Hc Ht.
  apply NoDup_ptrs_plug_inv in Hnd.
  apply NoDup_app in Hnd as (Hndt & Hdisj & Hndc).
  destruct (updateCount_ctx c fuel h (rootp t) sz (tsize t) p Hp Hlen Hndc Hc
              (count_of_repr _ _ _ Ht)) as (h' & Hu & Hc' & Hfr).
  exists h'. split; [done|]. split; [|done].
  apply repr_plug. split; [|done]. rewrite Hp.
  eapply repr_ext; [|exact Ht]. intros q Hq. apply Hfr. by apply Hdisj.
Qed.

Lemma updateCount_path_witness :
  ∃ h', updateCount 0 3%positive true
          (<[3%positive := mkNode 9 None (Some 2%positive) (Some 1%positive) 7]>
             sample_heap) = Some h' ∧
        repr h' None sample_tree.
Proof.
  destruct (updateCount_path [FL 3 9 (T 1 7 Leaf Leaf)] 0
              (<[3%positive := mkNode 9 None (Some 2%positive)
                                 (Some 1%positive) 7]> sample_heap)
              (T 2 8 Leaf Leaf) 5 3%positive)
    as (h' & Hu & Hr & _).
  - reflexivity.
  - simpl. lia.
  - exact sample_NoDup.
  - vm_compute. repeat split.
  - vm_compute. repeat split.
  - exists h'. split; [exact Hu|exact Hr].
Defined.

(** X6. [stealChild] splits the subtree of [fromNode], the left child of
    [this], between the two children of [this]: [fromNode] stays the left
    child, a part of its subtree becomes the right child, the preorder of
    the nodes is kept, no part is deeper than the subtree was, the count of
    [this] is one more than the size of the subtree, and no node outside
    is changed. *)
Theorem stealChild_splits t fuel this h nthis f :
  rootp t = Some f → (height t ≤ S fuel)%nat →
  h !! this = Some nthis → _left nthis = Some f →
  repr h (Some this) t → this ∉ ptrs t → NoDup (ptrs t) →
  ∃ h' t1 t2, stealChild fuel this f h = Some h' ∧
    h' !! this = Some (mkNode (_address nthis) (_parent nthis) (Some f)
                         (rootp t2) (wrap64 (1 + tsize t))) ∧
    rootp t1 = Some f ∧ repr h' (Some this) t1 ∧ repr h' (Some this) t2 ∧
    nodes_of t1 ++ nodes_of t2 = nodes_of t ∧
    (height t1 ≤ height t)%nat ∧ (height t2 ≤ height t)%nat ∧
    (∀ q, q ≠ this → q ∉ ptrs t → h' !! q = h !! q).
Proof.
  intros Hf Hh Hthis Hl Hr Hn Hnd.
  destruct (stealChild_spec t fuel this h nthis f Hf Hh Hthis Hl Hr Hn Hnd)
    as (h' & Hs & Hthis' & Hr1 & Hr2 & Hfr).
  exists h', (steal t).1, (steal t).2. split; [done|].
  split.
  { rewrite Hthis'. pose proof (steal_tsize t).
    by replace (1 + tsize (steal t).1 + tsize (steal t).2)
         with (1 + tsize t) by lia. }
  split; [by rewrite steal_rootp|]. split; [done|]. split; [done|].
  split; [apply steal_nodes|].
  pose proof (steal_height t) as [? ?]. done.
Qed.

Lemma stealChild_splits_witness :
  ∃ h' n, stealChild 1 4%positive 3%positive
            (<[4%positive := mkNode 6 None (Some 3%positive) None 1]>
               (<[3%positive := mkNode 9 (Some 4%positive) (Some 2%positive)
                                  (Some 1%positive) 3]> sample_heap))
          = Some h' ∧
          h' !! 4%positive = Some n ∧ _right n = Some 1%positive ∧ _count n = 4.
Proof.
  destruct (stealChild_splits sample_tree 1 4%positive
              (<[4%positive := mkNode 6 None (Some 3%positive) None 1]>
                 (<[3%positive := mkNode 9 (Some 4%positive) (Some 2%positive)
                                    (Some 1%positive) 3]> sample_heap))
              (mkNode 6 None (Some 3%positive) None 1) 3%positive)
    as (h' & t1 & t2 & Hs & Hn & _).
  - reflexivity.
  - simpl. lia.
  - reflexivity.
  - reflexivity.
  - vm_compute. repeat split.
  - apply (bool_decide_unpack (4%positive ∉ [3; 2; 1]%positive)).
    vm_compute. exact I.
  - exact sample_NoDup.
  - vm_compute in Hs. injection Hs as <-. eexists _, _.
    split; [reflexivity|]. split; [reflexivity|]. split; reflexivity.
Defined.

(** X7. [insertAtRoot] of a node that is not in the tree (whatever links it
    held) makes it the root and puts it in front of the preorder traversal,
    which is otherwise kept; the tree gets at most one level deeper, and no
    node outside the tree is changed. *)
Theorem insertAtRoot_shape t fuel x h nx rp :
  rootp t = Some rp → (height t ≤ S fuel)%nat →
  h !! x = Some nx → repr h None t → x ∉ ptrs t → NoDup (ptrs t) →
  ∃ h' t', insertAtRoot fuel x (Some rp) h = Some h' ∧
    repr h' None t' ∧ rootp t' = Some x ∧
    nodes_of t' = (x, _address nx) :: nodes_of t ∧
    (height t' ≤ S (height t))%nat ∧
    (∀ q, q ≠ x → q ∉ ptrs t → h' !! q = h !! q).
Proof.
  intros Hrp Hh Hx Hr Hn Hnd.
  destruct (insertAtRoot_spec t fuel x h nx rp Hrp Hh Hx Hr Hn Hnd)
    as (h' & Hi & Hr' & Hfr).
  exists h', (insert_root x (_address nx) t).
  split; [done|]. split; [done|]. split; [done|].
  split; [apply nodes_insert_root|]. split; [|done].
  pose proof (steal_height t) as [? ?]. cbn [insert_root height]. lia.
Qed.

Lemma insertAtRoot_shape_witness :
  ∃ h' t', insertAtRoot 1 4%positive (Some 3%positive)
             (<[4%positive := newNode 6]> sample_heap) = Some h' ∧
           repr h' None t' ∧
           nodes_of t' = (4%positive, 6) :: nodes_of sample_tree.
Proof.
  destruct (insertAtRoot_shape sample_tree 1 4%positive
              (<[4%positive := newNode 6]> sample_heap) (newNode 6) 3%positive)
    as (h' & t' & Hi & Hr & _ & Hn & _).
  - reflexivity.
  - simpl. lia.
  - reflexivity.
  - vm_compute. repeat split.
  - apply (bool_decide_unpack (4%positive ∉ [3; 2; 1]%positive)).
    vm_compute. exact I.
  - exact sample_NoDup.
  - exists h', t'. split; [exact Hi|]. split; [exact Hr|exact Hn].
Defined.

(** X8. On every heap that holds a tree, [moveToRoot] of one of its nodes
    returns once the fuel reaches the number of nodes, makes the node the
    root, moves it to the front of the preorder traversal and keeps the
    order of the other nodes; no node outside the tree is changed. *)
Theorem moveToRoot_move_to_front t x fuel h :
  repr h None t → NoDup (ptrs t) → x ∈ ptrs t →
  (length (ptrs t) ≤ fuel)%nat →
  ∃ h' t' a B A, moveToRoot fuel x (rootp t) h = Some h' ∧
    repr h' None t' ∧ rootp t' = Some x ∧
    nodes_of t = B ++ (x, a) :: A ∧ nodes_of t' = (x, a) :: B ++ A ∧
    (∀ q, q ∉ ptrs t → h' !! q = h !! q).
Proof.
  intros Hr Hnd Hx Hlen.
  rewrite ptrs_nodes_of in Hx.
  apply list_elem_of_fmap in Hx as ([p a] & -> & Hin). cbn [fst].
  destruct (focus _ _ _ Hin) as (c & l & r & ->).
  assert (length c ≤ fuel)%nat as Hc.
  { rewrite length_ptrs_plug in Hlen. pose proof (length_cptrs c).
    simpl in Hlen. lia. }
  destruct (moveToRoot_loop_spec c fuel fuel (rootp (plug c (T p a l r)))
              h p a l r) as (h' & Hm & Hr' & Hfr); [done|done|done|lia|done|].
  exists h', (mtr c p a l r), a, (pbefore c),
    (nodes_of l ++ nodes_of r ++ pafter c).
  split; [done|]. split; [done|]. split; [apply root_mtr|].
  split; [|split; [apply nodes_mtr|done]].
  rewrite nodes_plug. cbn [nodes_of]. by rewrite <- app_comm_cons, <- app_assoc.
Qed.

Lemma moveToRoot_move_to_front_witness :
  ∃ h' t', moveToRoot 3 1%positive (Some 3%positive) sample_heap = Some h' ∧
           repr h' None t' ∧ rootp t' = Some 1%positive.
Proof.
  destruct (moveToRoot_move_to_front sample_tree 1%positive 3 sample_heap)
    as (h' & t' & a & B & A & Hm & Hr & Hroot & _).
  - exact sample_repr.
  - exact sample_NoDup.
  - apply (bool_decide_unpack (1%positive ∈ [3; 2; 1]%positive)).
    vm_compute. exact I.
  - simpl. lia.
  - exists h', t'. split; [exact Hm|]. split; [exact Hr|exact Hroot].
Defined.

Lemma ASSERTXCount_repr h t : ∀ par fuel p,
  repr h par t → rootp t = Some p → (height t ≤ fuel)%nat →
  ASSERTXCount fuel p h = Some true.
Proof.
  induction t as [|q a l IHl r IHr]; intros par fuel p Hr Hp Hh; [done|].
  injection Hp as <-. destruct fuel as [|f]; [simpl in Hh; lia|].
  cbn [repr height] in *. destruct Hr as (Hq & Hl & Hrr).
  cbn [ASSERTXCount]. rewrite Hq. cbn [mbind option_bind cell _left _right _count].
  rewrite (count_of_repr _ _ _ Hl), (count_of_repr _ _ _ Hrr).
  cbn [mbind option_bind]. rewrite wrap_count.
  rewrite bool_decide_eq_true_2 by done.
  assert (∀ (t' : tree), (height t' ≤ f)%nat → repr h (Some q) t' →
            (∀ par fuel p, repr h par t' → rootp t' = Some p →
                           (height t' ≤ fuel)%nat →
                           ASSERTXCount fuel p h = Some true) →
            match rootp t' with
            | Some c => ASSERTXCount f c h
            | None => Some true
            end = Some true) as Hchild.
  { intros t' Hh' Hr' IH. destruct (rootp t') as [c|] eqn:Hc; [|done].
    by apply (IH (Some q)). }
  rewrite (Hchild l) by (done || lia). cbn [mbind option_bind].
  apply Hchild; [lia|done|done].
Qed.

(** X9. The child handed to [setRight] is a right child afterwards, and
    the child handed to [setLeft] is a right child afterwards only if it
    was the right child of the node before; this holds also when a node is
    made its own child. *)
Theorem setChild_isRightChild h this c n :
  h !! this = Some n →
  (∀ h', setRight this (Some c) h = Some h' → isRightChild c h' = Some true) ∧
  (∀ h', setLeft this (Some c) h = Some h' →
         isRightChild c h' = Some (bool_decide (_right n = Some c))) ∧
  (is_Some (h !! c) ↔ is_Some (setRight this (Some c) h)) ∧
  (is_Some (h !! c) ↔ is_Some (setLeft this (Some c) h)).
Proof.
  intros Hthis. unfold setRight, setLeft, upd. rewrite Hthis.
  cbn [mbind option_bind]. split; [|split; [|split]].
  - intros h'. destruct (decide (c = this)) as [->|Hne].
    + rewrite lookup_insert_eq. cbn [mbind option_bind]. intros [= <-].
      unfold isRightChild. rewrite lookup_insert_eq.
      cbn [mbind option_bind with_parent _parent]. rewrite lookup_insert_eq.
      cbn [mbind option_bind with_right _right].
      by rewrite bool_decide_eq_true_2.
    + rewrite lookup_insert_ne by done.
      destruct (h !! c) as [m|]; [|done]. cbn [mbind option_bind].
      intros [= <-]. unfold isRightChild. rewrite lookup_insert_eq.
      cbn [mbind option_bind with_parent _parent].
      rewrite lookup_insert_ne, lookup_insert_eq by done.
      cbn [mbind option_bind with_right _right].
      by rewrite bool_decide_eq_true_2.
  - intros h'. destruct (decide (c = this)) as [->|Hne].
    + rewrite lookup_insert_eq. cbn [mbind option_bind]. intros [= <-].
      unfold isRightChild. rewrite lookup_insert_eq.
      cbn [mbind option_bind with_parent _parent]. rewrite lookup_insert_eq.
      by cbn [mbind option_bind with_left with_parent _right].
    + rewrite lookup_insert_ne by done.
      destruct (h !! c) as [m|]; [|done]. cbn [mbind option_bind].
      intros [= <-]. unfold isRightChild. rewrite lookup_insert_eq.
      cbn [mbind option_bind with_parent _parent].
      rewrite lookup_insert_ne, lookup_insert_eq by done.
      by cbn [mbind option_bind with_left _right].
  - destruct (decide (c = this)) as [->|Hne].
    + rewrite lookup_insert_eq, Hthis. cbn [mbind option_bind].
      split; intros _; by eexists.
    + rewrite lookup_insert_ne by done. destruct (h !! c); cbn [mbind option_bind].
      * split; intros _; by eexists.
      * split; by intros [? ?].
  - destruct (decide (c = this)) as [->|Hne].
    + rewrite lookup_insert_eq, Hthis. cbn [mbind option_bind].
      split; intros _; by eexists.
    + rewrite lookup_insert_ne by done. destruct (h !! c); cbn [mbind option_bind].
      * split; intros _; by eexists.
      * split; by intros [? ?].
Qed.

Lemma setChild_isRightChild_witness :
  ∃ h', setRight 2%positive (Some 1%positive) sample_heap = Some h' ∧
        isRightChild 1%positive h' = Some true.
Proof.
  eexists. split; [reflexivity|].
  apply (proj1 (setChild_isRightChild sample_heap 2%positive 1%positive
                  (mkNode 8 (Some 3%positive) None None 1) eq_refl)).
  reflexivity.
Defined.

End TreapOps.

(** ** [RD_Treap] after every history *)

Module TreapProps.
Import Bits BitsFacts Treap TreapFacts TreapOps.

Lemma filter_all {A} (P : A → Prop) `{!∀ x, Decision (P x)} (l : list A) :
  (∀ x, x ∈ l → P x) → filter P l = l.
Proof.
  induction l as [|x l IH]; intros HP; [done|].
  rewrite filter_cons_True by (apply HP; by left).
  f_equal. apply IH. intros y Hy. apply HP. by right.
Qed.

(** Folding [touch] over [l] puts the recency order of [l] in front of
    what is left of the start. *)
Lemma foldl_touch_acc (l : list Z) : ∀ acc,
  foldl touch acc l = recency l ++ filter (λ b, b ∉ l) acc.
Proof.
  induction l as [|b l IH]; intros acc.
  - cbn [foldl]. unfold recency. cbn [foldl app].
    symmetry. apply filter_all. intros x _. apply not_elem_of_nil.
  - unfold recency. cbn [foldl]. rewrite !IH.
    change (touch [] b) with [b].
    change (touch acc b) with ([b] ++ filter (λ b0, b0 ≠ b) acc).
    rewrite filter_app, <- app_assoc. do 2 f_equal.
    rewrite list_filter_filter. apply list_filter_iff.
    intros x. rewrite not_elem_of_cons. tauto.
Qed.

Lemma recency_position pre a post :
  a ∉ post → recency (pre ++ a :: post) !! length (recency post) = Some a.
Proof.
  intros Ha.
  assert (recency (pre ++ a :: post)
          = recency post ++ a :: filter (λ b, b ∉ post)
                                   (filter (λ b, b ≠ a) (recency pre))) as ->.
  { change (a :: post) with ([a] ++ post).
    rewrite (assoc_L (++) pre [a] post). unfold recency at 1.
    rewrite foldl_app.
    change (foldl touch [] (pre ++ [a])) with (recency (pre ++ [a])).
    rewrite recency_snoc, foldl_touch_acc. unfold touch.
    by rewrite filter_cons_True. }
  by apply list_lookup_middle.
Qed.

Lemma length_recency_distinct (l : list Z) :
  length (recency l) = size (list_to_set l : gset Z).
Proof.
  rewrite <- (size_list_to_set (C := gset Z) (recency l)) by apply recency_NoDup.
  f_equal. apply set_eq. intros x. rewrite !elem_of_list_to_set.
  apply recency_elem.
Qed.

(** X10. The assertions of [ASSERTXCount] hold on every tree the tracker
    builds: started at any node after any history of references it
    returns without a failed assertion. *)
Theorem ASSERTXCount_passes history :
  ∃ s r, run history = Some (s, r) ∧
    ∀ p, is_Some (nodes s !! p) →
      ASSERTXCount (size (nodes s)) p (nodes s) = Some true.
Proof.
  destruct (run_spec history) as (s & r & t & Hrun & HI & _).
  exists s, r. split; [done|]. intros p Hp.
  destruct (Inv_focus s t p HI Hp) as (c & a & l & rr & ->).
  pose proof (inv_repr _ _ HI) as Hr. apply repr_plug in Hr as [Hr _].
  apply (ASSERTXCount_repr _ (T p a l rr) (cpar c)); [done|done|].
  etrans; [apply (height_plug c)|]. by apply Inv_height.
Qed.

(** X11. After every history [_map] is a one-to-one correspondence
    between the addresses referenced and the allocated nodes: its keys are
    the addresses of the history, an address is mapped to a node exactly
    when the node is allocated and holds that address, and there are as
    many nodes as keys, one for each distinct address. So the destructor,
    which deletes the node of every entry, frees every node once. *)
Theorem map_tracks_nodes history :
  ∃ s r, run history = Some (s, r) ∧
    dom (_map s) = (list_to_set history : gset Z) ∧
    (∀ a p, _map s !! a = Some p ↔
            ∃ n, nodes s !! p = Some n ∧ _address n = a) ∧
    size (nodes s) = size (_map s) ∧
    size (nodes s) = size (list_to_set history : gset Z).
Proof.
  destruct (run_spec history) as (s & r & t & Hrun & HI & Ht).
  exists s, r. split; [done|].
  assert (dom (_map s) = (list_to_set (addrs t) : gset Z)) as Hdom.
  { apply set_eq. intros a. rewrite elem_of_dom, elem_of_list_to_set.
    rewrite addrs_in_nodes. split.
    - intros [p Hp]. exists p. by apply (inv_map _ _ HI).
    - intros [p Hp]. exists p. by apply (inv_map _ _ HI). }
  assert (size (nodes s) = size (list_to_set history : gset Z)) as Hsize.
  { rewrite (Inv_size _ _ HI), <- length_addrs, Ht.
    apply length_recency_distinct. }
  split; [|split; [|split; [|done]]].
  - rewrite Hdom, Ht. apply set_eq. intros a.
    rewrite !elem_of_list_to_set. apply recency_elem.
  - intros a p. rewrite (inv_map _ _ HI). split.
    + apply (repr_nodes _ None). apply (inv_repr _ _ HI).
    + intros (n & Hn & Ha).
      assert (p ∈ ptrs t) as Hp by (apply (inv_dom _ _ HI); by eexists).
      rewrite ptrs_nodes_of in Hp.
      apply list_elem_of_fmap in Hp as ([p' a'] & -> & Hin). cbn [fst] in *.
      destruct (repr_nodes _ _ _ _ _ (inv_repr _ _ HI) Hin) as (n' & Hn' & Ha').
      rewrite Hn in Hn'. injection Hn' as <-. by rewrite <- Ha, Ha'.
  - rewrite <- (size_dom (D := gset Z) (_map s)), Hdom.
    rewrite size_list_to_set by apply (inv_addrs _ _ HI).
    rewrite (Inv_size _ _ HI). symmetry. apply length_addrs.
Qed.

(** X12. The bucket of a reference is the binary logarithm of the stack
    distance: when [d] distinct addresses have been referenced since the
    last reference to an address, a reference to it returns
    [floor(log2(d + 1))]. *)
Theorem stack_distance pre a post :
  a ∉ post → Z.of_nat (length post) < 2 ^ 64 - 1 →
  ∃ s r s', run (pre ++ a :: post) = Some (s, r) ∧
    reference s a
    = Some (s', Z.log2 (Z.of_nat (size (list_to_set post : gset Z)) + 1)).
Proof.
  intros Ha Hlen.
  destruct (run_spec (pre ++ a :: post)) as (s & r & t & Hrun & HI & Ht).
  destruct (reference_spec s t a HI) as (s' & r' & t' & Href & _ & _ & _ & _ & Hhit).
  exists s, r, s'. split; [done|]. rewrite Href. do 2 f_equal.
  rewrite (Hhit (length (recency post))).
  2:{ rewrite Ht. by apply recency_position. }
  pose proof (length_recency post).
  rewrite wrap64_small by lia. rewrite int_log2_spec by lia.
  rewrite length_recency_distinct. f_equal. lia.
Qed.

Lemma stack_distance_witness :
  ∃ s r s', run ([1] ++ 5 :: [6; 7; 6]) = Some (s, r) ∧
            reference s 5 = Some (s', 1).
Proof.
  destruct (stack_distance [1] 5 [6; 7; 6]) as (s & r & s' & Hrun & Href).
  - apply (bool_decide_unpack (5 ∉ [6; 7; 6])). vm_compute. exact I.
  - simpl. lia.
  - exists s, r, s'. split; [exact Hrun|]. rewrite Href. reflexivity.
Defined.

(** X13. A call of [reference] frees no node and changes no node's
    address; on an address referenced before it allocates nothing and
    leaves [_map] as it is, on a new address it allocates one node and adds
    one entry to [_map]. *)
Theorem reference_keeps_nodes history a :
  ∃ s r s' r', run history = Some (s, r) ∧ reference s a = Some (s', r') ∧
    (∀ p n, nodes s !! p = Some n →
       ∃ n', nodes s' !! p = Some n' ∧ _address n' = _address n) ∧
    (a ∈ history → _map s' = _map s ∧ dom (nodes s') = dom (nodes s)) ∧
    (a ∉ history →
       _map s' = <[a := fresh (dom (nodes s))]> (_map s) ∧
       dom (nodes s') = {[fresh (dom (nodes s))]} ∪ dom (nodes s)).
Proof.
  destruct (run_spec history) as (s & r & t & Hrun & HI & Ht).
  assert (∀ s' t', Inv s' t' → (∀ pa, pa ∈ nodes_of t → pa ∈ nodes_of t') →
            ∀ p n, nodes s !! p = Some n →
              ∃ n', nodes s' !! p = Some n' ∧ _address n' = _address n) as Hkeep.
  { intros s' t' HI' Hsub p n Hn.
    assert (p ∈ ptrs t) as Hp by (apply (inv_dom _ _ HI); by eexists).
    rewrite ptrs_nodes_of in Hp.
    apply list_elem_of_fmap in Hp as ([p' a'] & -> & Hin). cbn [fst] in *.
    destruct (repr_nodes _ _ _ _ _ (inv_repr _ _ HI) Hin) as (n0 & Hn0 & Ha0).
    rewrite Hn in Hn0. injection Hn0 as <-.
    destruct (repr_nodes _ _ _ _ _ (inv_repr _ _ HI') (Hsub _ Hin))
      as (n' & Hn' & Ha').
    exists n'. by rewrite Ha', Ha0. }
  assert (∀ s' t', Inv s' t' → ∀ q, q ∈ dom (nodes s') ↔ q ∈ ptrs t') as Hdom.
  { intros s' t' HI' q. rewrite elem_of_dom. apply (inv_dom _ _ HI'). }
  destruct (_map s !! a) as [p|] eqn:Hm.
  - pose proof Hm as Hin. apply (inv_map _ _ HI) in Hin.
    destruct (focus _ _ _ Hin) as (c & l & rr & ->).
    destruct (reference_known s c p a l rr HI) as (h' & Href & HI').
    eexists s, r, _, _. split; [done|]. split; [exact Href|].
    split; [|split].
    + apply (Hkeep _ _ HI'). intros pa. by rewrite nodes_mtr_perm.
    + intros _. split; [done|]. apply set_eq. intros q.
      rewrite (Hdom _ _ HI'), (Hdom _ _ HI). by rewrite ptrs_mtr_perm.
    + intros Hn. exfalso. apply Hn. apply recency_elem. rewrite <- Ht.
      apply addrs_in_nodes. by exists p.
  - destruct (reference_new s t a HI Hm) as (h' & Href & HI').
    eexists s, r, _, _. split; [done|]. split; [exact Href|].
    split; [|split].
    + apply (Hkeep _ _ HI'). intros pa Hpa. rewrite nodes_insert_root.
      by right.
    + intros Hin. exfalso. apply recency_elem in Hin. rewrite <- Ht in Hin.
      apply addrs_in_nodes in Hin as [p Hp].
      apply (inv_map _ _ HI) in Hp. congruence.
    + intros _. split; [done|]. apply set_eq. intros q.
      rewrite (Hdom _ _ HI'), elem_of_union, elem_of_singleton, (Hdom _ _ HI).
      rewrite !ptrs_nodes_of, nodes_insert_root. cbn [fmap list_fmap fst].
      apply elem_of_cons.
Qed.

End TreapProps.

(** ** [RD_LogRR]: allocation, buckets and the order the pools fill in *)

Module LogRRProps.
Import Bits BitsFacts LogRR LogRRFacts PoolFacts ResidencyFacts.

Lemma map_allocate s : entries_map (allocate s) = entries_map s.
Proof. unfold allocate. by destruct (_ =? _). Qed.

Lemma positions_allocate s : replace_position (allocate s) = replace_position s.
Proof. unfold allocate. by destruct (_ =? _). Qed.

Lemma slot_allocate K s i :
  Reach0 K s → slot (entries_list (allocate s)) i = slot (entries_list s) i.
Proof.
  intros [_ Hinit]. unfold allocate.
  destruct (Z.eqb_spec (vsize (entries_list s)) 0) as [Hz|]; [|done].
  by rewrite (Hinit Hz).
Qed.

Lemma allocated K s a i :
  Reach0 K s → entries_map s !! a = Some i → allocate s = s.
Proof.
  intros [HI Hinit] Hm. unfold allocate.
  destruct (Z.eqb_spec (vsize (entries_list s)) 0) as [Hz|]; [|done].
  rewrite (Hinit Hz) in Hm. done.
Qed.

(** The result of [reference] on an allocated tracker, branch by branch. *)
Lemma reference_unfold K s a s' r :
  Inv0 K s → reference s a = Some (s', r) →
  match entries_map s !! a with
  | Some position =>
      if position <? MIN_SIZE then s' = s ∧ r = MIN_SIZE_BITS
      else ∃ s1 item,
        walk (Z.to_nat (int_log2 position - 10)) 10 s a = Some (s1, item) ∧
        finalize s1 item position (int_log2 position) = Some s' ∧
        r = int_log2 position
  | None => ∃ s1 item,
      walk 14 10 s a = Some (s1, item) ∧
      finalize s1 item MAX_SIZE 24 = Some s' ∧ r = 24
  end.
Proof.
  intros HI. unfold reference. rewrite (allocate_id _ s HI).
  destruct (entries_map s !! a) as [position|].
  - destruct (position <? MIN_SIZE); [by intros [= <- <-]|].
    change MIN_SIZE_BITS with 10.
    destruct (walk _ 10 s a) as [[s1 item]|]; [|done]. cbn [mbind option_bind].
    destruct (finalize s1 item position _) as [s2|] eqn:Hf; [|done].
    cbn [mbind option_bind]. intros [= <- <-]. by exists s1, item.
  - change (Z.to_nat (MAX_SIZE_BITS - MIN_SIZE_BITS)) with 14%nat.
    change MIN_SIZE_BITS with 10. change MAX_SIZE_BITS with 24.
    destruct (walk 14 10 s a) as [[s1 item]|]; [|done]. cbn [mbind option_bind].
    destruct (finalize s1 item MAX_SIZE 24) as [s2|] eqn:Hf; [|done].
    cbn [mbind option_bind]. intros [= <- <-]. by exists s1, item.
Qed.

(** X14. The slot vector is allocated by the first call of [reference]:
    it has no element before, [MAX_SIZE = 2^24] elements after every call,
    and there are always [MAX_SIZE_BITS] cursors. *)
Theorem lazy_allocation history :
  ∃ s r, run history = Some (s, r) ∧
    length (replace_position s) = Z.to_nat MAX_SIZE_BITS ∧
    (history = [] → vsize (entries_list s) = 0 ∧ entries_map s = ∅) ∧
    (history ≠ [] → vsize (entries_list s) = MAX_SIZE ∧ MAX_SIZE = 2 ^ 24).
Proof.
  destruct (run_Reach0 history) as (s & r & Hrun & HR).
  exists s, r. split; [done|]. split; [|split].
  - destruct HR as [HI _]. rewrite <- positions_allocate. apply (inv_len _ _ HI).
  - intros ->. injection Hrun as <- <-. done.
  - intros Hne. split; [|done].
    destruct (List.exists_last Hne) as (l & a & ->).
    rewrite run_snoc in Hrun.
    destruct (run_Reach0 l) as (s0 & r0 & Hrun0 & [HI0 _]).
    rewrite Hrun0 in Hrun. cbn [step mbind option_bind fst] in Hrun.
    destruct (reference_inv0 (λ _, True) (allocate s0) a)
      as (s1 & r1 & Href & HI1 & _); [by eapply Inv0_mono|done|].
    rewrite (LogRRSpec.reference_allocate _ s0 a HI0), Href in Hrun.
    injection Hrun as <- <-. apply (inv_size _ _ HI1).
Qed.

(** X15. A reference to a recorded address returns the binary logarithm of
    its position, raised to [MIN_SIZE_BITS] when it is smaller, and this
    is at most [22]: for an address held in pool [bin > 10] it is
    [bin - 1], so pools [10] and [11] both give [10]. A reference to an
    address that is not recorded returns [MAX_SIZE_BITS]; so bucket [23]
    is never returned. *)
Theorem hit_bucket history address :
  ∃ s r s' r', run history = Some (s, r) ∧
    reference s address = Some (s', r') ∧
    (∀ position, entries_map s !! address = Some position →
       r' = Z.max MIN_SIZE_BITS (Z.log2 position) ∧ r' ≤ 22 ∧
       ∀ bin, MIN_SIZE_BITS < bin < MAX_SIZE_BITS →
              base bin ≤ position < base bin + capacity bin →
              r' = bin - 1) ∧
    (entries_map s !! address = None → r' = MAX_SIZE_BITS) ∧
    r' ≠ 23.
Proof.
  destruct (run_Reach0 history) as (s & r & Hrun & HR).
  pose proof HR as [HI _].
  destruct (reference_inv0 (λ _, True) (allocate s) address)
    as (s' & r' & Href & _ & _ & Hmiss & _);
    [by eapply Inv0_mono|done|].
  exists s, r, s', r'. split; [done|].
  split; [by rewrite (LogRRSpec.reference_allocate _ s address HI)|].
  rewrite map_allocate in Hmiss.
  assert (∀ position, entries_map s !! address = Some position →
            r' = Z.max MIN_SIZE_BITS (Z.log2 position) ∧ r' ≤ 22) as Hhit0.
  { intros pos Hm. pose proof (inv_pos _ _ HI address pos) as Hpos.
    rewrite map_allocate in Hpos. specialize (Hpos Hm).
    apply (reference_unfold _ _ _ _ _ HI) in Href.
    rewrite map_allocate, Hm in Href. rewrite MIN_SIZE_eq in Href.
    unfold MIN_SIZE_BITS.
    destruct (Z.ltb_spec pos (2 ^ 10)) as [Hlt|Hge].
    - destruct Href as [_ ->]. unfold MIN_SIZE_BITS.
      assert (Z.log2 pos < 10); [|lia].
      destruct (Z.eq_dec pos 0) as [->|]; [done|].
      apply Z.log2_lt_pow2; lia.
    - destruct Href as (_ & _ & _ & _ & ->).
      destruct (log2_position pos) as [-> ?]; [rewrite MIN_SIZE_eq; lia|].
      lia. }
  split; [|split; [done|]].
  - intros pos Hm. destruct (Hhit0 pos Hm) as [Hr Hle].
    split; [done|]. split; [done|]. unfold MIN_SIZE_BITS, MAX_SIZE_BITS.
    intros bin Hb Hin.
    rewrite (in_pool_log2 bin pos) in Hr by (done || lia).
    unfold MIN_SIZE_BITS in Hr. lia.
  - destruct (entries_map s !! address) as [pos|] eqn:Hm.
    + destruct (Hhit0 pos eq_refl). lia.
    + rewrite Hmiss by done. done.
Qed.

(** X16. [getIdx] sends the cursors of the pools to slots of the vector,
    below [2^23], that differ from pool to pool and from cursor to cursor;
    no cursor is sent to a slot from [2^9] up to [2^10]. *)
Theorem getIdx_injective bin bin' c c' :
  MIN_SIZE_BITS ≤ bin < MAX_SIZE_BITS → MIN_SIZE_BITS ≤ bin' < MAX_SIZE_BITS →
  0 ≤ c < capacity bin → 0 ≤ c' < capacity bin' →
  0 ≤ getIdx bin c < 2 ^ 23 ∧
  ¬ (2 ^ 9 ≤ getIdx bin c < 2 ^ 10) ∧
  (getIdx bin c = getIdx bin' c' → bin = bin' ∧ c = c').
Proof.
  unfold MIN_SIZE_BITS, MAX_SIZE_BITS. intros Hb Hb' Hc Hc'.
  rewrite !getIdx_spec by done.
  assert (in_pool bin (base bin + c)) as Hin by (unfold in_pool; lia).
  assert (in_pool bin' (base bin' + c')) as Hin' by (unfold in_pool; lia).
  split; [by apply (in_pool_bounds bin)|]. split.
  - destruct (Z.eq_dec bin 10) as [->|].
    + apply (proj1 (in_pool_first _)) in Hin. lia.
    + apply (proj1 (in_pool_later bin _ ltac:(lia))) in Hin.
      assert (2 ^ 10 ≤ 2 ^ (bin - 1)) by (apply Z.pow_le_mono_r; lia). lia.
  - intros Heq. rewrite <- Heq in Hin'.
    pose proof (in_pool_disjoint bin bin' _ Hb Hb' Hin Hin') as <-.
    split; [done|lia].
Qed.

Lemma getIdx_injective_witness :
  0 ≤ getIdx 12 5 < 2 ^ 23 ∧ (getIdx 12 5 = getIdx 13 5 → 12 = 13 ∧ 5 = 5).
Proof.
  destruct (getIdx_injective 12 13 5 5) as (Hr & _ & Hi).
  - unfold MIN_SIZE_BITS, MAX_SIZE_BITS. lia.
  - unfold MIN_SIZE_BITS, MAX_SIZE_BITS. lia.
  - vm_compute. split; [discriminate|reflexivity].
  - vm_compute. split; [discriminate|reflexivity].
  - split; [exact Hr|exact Hi].
Defined.

(** X17. The pools fill in order. After every history of references to
    non-zero addresses each pool is full or holds addresses exactly in the
    slots below its cursor, a pool holds an address only when every
    smaller pool is full, and the slots outside the pools (from [2^9] up
    to [2^10], and from [2^23] on) are empty. *)
Theorem pools_fill_in_order history :
  Forall (λ a, a ≠ 0) history →
  ∃ s r, run history = Some (s, r) ∧
    (∀ bin, MIN_SIZE_BITS ≤ bin < MAX_SIZE_BITS →
       (∀ off, 0 ≤ off < capacity bin →
               slot (entries_list s) (base bin + off) ≠ 0) ∨
       (∀ off, 0 ≤ off < capacity bin →
               slot (entries_list s) (base bin + off) ≠ 0 ↔
               off < cursor s bin)) ∧
    (∀ bin b off off', MIN_SIZE_BITS ≤ b → b < bin → bin < MAX_SIZE_BITS →
       0 ≤ off < capacity bin → 0 ≤ off' < capacity b →
       slot (entries_list s) (base bin + off) ≠ 0 →
       slot (entries_list s) (base b + off') ≠ 0) ∧
    (∀ i, 2 ^ 9 ≤ i < 2 ^ 10 ∨ 2 ^ 23 ≤ i → slot (entries_list s) i = 0).
Proof.
  intros Hnz.
  destruct (run_Exact history Hnz) as (s & r & Hrun & HR & HF & _).
  exists s, r. split; [done|]. unfold MIN_SIZE_BITS, MAX_SIZE_BITS.
  assert (∀ i, nzs (allocate s) i ↔ slot (entries_list s) i ≠ 0) as Hs.
  { intros i. unfold nzs. by rewrite (slot_allocate _ _ _ HR). }
  split; [|split].
  - intros bin Hb. destruct (fill_prefix _ _ HF bin Hb) as [Hfull|Hpre].
    + left. intros off Hoff. apply Hs. by apply Hfull.
    + right. intros off Hoff. rewrite <- Hs, <- (LogRRSpec.cursor_allocate s).
      by apply Hpre.
  - intros bin b off off' Hb Hlt Hbin Hoff Hoff' Hslot. apply Hs.
    apply (full_below _ _ bin (base bin + off) HF); [lia| |by apply Hs|lia|done].
    unfold in_pool. lia.
  - intros i Hi.
    destruct (Z.eq_dec (slot (entries_list s) i) 0) as [|Hne]; [done|].
    exfalso. apply Hs in Hne.
    destruct (fill_pooled _ _ HF i Hne) as (bin & Hb & Hin).
    pose proof (in_pool_bounds bin i Hb Hin).
    destruct (Z.eq_dec bin 10) as [->|].
    + apply (proj1 (in_pool_first _)) in Hin. lia.
    + apply (proj1 (in_pool_later bin _ ltac:(lia))) in Hin.
      assert (2 ^ 10 ≤ 2 ^ (bin - 1)) by (apply Z.pow_le_mono_r; lia). lia.
Qed.

Lemma pools_fill_in_order_witness :
  ∃ s r, run [5; 9; 5] = Some (s, r) ∧ slot (entries_list s) 600 = 0.
Proof.
  destruct (pools_fill_in_order [5; 9; 5]) as (s & r & Hrun & _ & _ & Hout).
  - repeat constructor; discriminate.
  - exists s, r. split; [exact Hrun|]. apply Hout. left. lia.
Defined.

(** The loop writes only to slots of the pools it walks. *)
Lemma walk_slots K n : ∀ bin s item s' item',
  10 ≤ bin → bin + Z.of_nat n ≤ 24 → Inv0 K s → K item →
  walk n bin s item = Some (s', item') →
  ∀ i, (∀ b, bin ≤ b < bin + Z.of_nat n → ¬ in_pool b i) →
       slot (entries_list s') i = slot (entries_list s) i.
Proof.
  induction n as [|n IH]; intros bin s item s' item' Hb Hn HI HK Hw i Hi.
  - by injection Hw as <- <-.
  - destruct (walk_step K bin s item) as (l & Hl & HI' & HKe & Heq);
      [lia|done..|].
    rewrite Heq in Hw.
    assert (slot l i = slot (entries_list s) i) as Hsl.
    { rewrite (slot_vset _ _ _ _ i Hl). destruct (decide _) as [<-|]; [|done].
      exfalso. apply (Hi bin); [lia|]. unfold in_pool.
      pose proof (inv_cur _ _ HI bin ltac:(lia)). lia. }
    destruct (Z.eqb_spec (slot (entries_list s) (base bin + cursor s bin)) 0)
      as [He|He].
    + by injection Hw as <- <-.
    + rewrite (IH (bin + 1) _ _ _ _ ltac:(lia) ltac:(lia) HI' (HKe He) Hw i);
        [done|].
      intros b Hb'. apply Hi. lia.
Qed.

(** A promotion that walks at least pool [10] leaves the referenced
    address in the slot under the cursor pool [10] had. *)
Lemma promote_front s a L p s1 it s2 :
  I0 s → 11 ≤ L ≤ 24 → (L < 24 → 2 ^ 10 ≤ p) →
  walk (Z.to_nat (L - 10)) 10 s a = Some (s1, it) →
  finalize s1 it p L = Some s2 →
  slot (entries_list s2) (cursor s 10) = a.
Proof.
  intros HI HL Hp Hw Hf.
  replace (Z.to_nat (L - 10)) with (S (Z.to_nat (L - 11))) in Hw by lia.
  destruct (walk_step (λ _, True) 10 s a) as (l & Hl & HI' & HKe & Heq);
    [lia|done..|].
  rewrite Heq in Hw. change (base 10) with 0 in *.
  rewrite Z.add_0_l in *.
  pose proof (inv_cur _ _ HI 10 ltac:(lia)) as Hc.
  change (capacity 10) with (2 ^ 9) in Hc.
  assert (slot (entries_list s1) (cursor s 10) = a) as Hs1.
  { destruct (Z.eqb_spec (slot (entries_list s) (cursor s 10)) 0) as [He|He].
    - injection Hw as <- <-. cbn [entries_list].
      rewrite (slot_vset _ _ _ _ (cursor s 10) Hl). by rewrite decide_True.
    - rewrite (walk_slots (λ _, True) (Z.to_nat (L - 11)) (10 + 1) _ _ _ _
                 ltac:(lia) ltac:(lia) HI' (HKe He) Hw).
      + cbn [entries_list].
        rewrite (slot_vset _ _ _ _ (cursor s 10) Hl). by rewrite decide_True.
      + intros b Hb Hin.
        apply (proj1 (in_pool_later b _ ltac:(lia))) in Hin.
        assert (2 ^ 10 ≤ 2 ^ (b - 1)) by (apply Z.pow_le_mono_r; lia). lia. }
  unfold finalize in Hf. change MAX_SIZE_BITS with 24 in Hf.
  destruct (Z.ltb_spec L 24) as [Hlt|Hge].
  - destruct (vset (entries_list s1) p it) as [l2|] eqn:Hl2; [|done].
    injection Hf as <-. cbn [entries_list].
    rewrite (slot_vset _ _ _ _ (cursor s 10) Hl2).
    rewrite decide_False by lia. done.
  - destruct (negb (it =? 0)); by injection Hf as <-.
Qed.

(** A reference to an address recorded below [MIN_SIZE]. *)
Lemma reference_hot K s a p :
  Inv0 K s → entries_map s !! a = Some p → p < MIN_SIZE →
  reference s a = Some (s, MIN_SIZE_BITS).
Proof.
  intros HI Hm Hlt. unfold reference. rewrite (allocate_id _ s HI), Hm.
  by rewrite (proj2 (Z.ltb_lt _ _) Hlt).
Qed.

(** X18. After a reference to a non-zero address, a second reference to
    the same address returns [MIN_SIZE_BITS] and leaves the tracker as it
    is. *)
Theorem immediate_repeat history a :
  Forall (λ b, b ≠ 0) history → a ≠ 0 →
  ∃ s r s' r', run history = Some (s, r) ∧ reference s a = Some (s', r') ∧
    reference s' a = Some (s', MIN_SIZE_BITS).
Proof.
  intros Hnz Ha.
  destruct (run_Exact (history ++ [a])) as (s' & r' & Hrun' & _ & _ & HE').
  { apply Forall_app. split; [done|]. by constructor. }
  destruct (run_Reach0 history) as (s & r & Hrun & [HI _]).
  rewrite run_snoc, Hrun in Hrun'. cbn [step mbind option_bind fst] in Hrun'.
  exists s, r, s', r'. split; [done|]. split; [done|].
  assert (I0 (allocate s)) as HI0 by (by eapply Inv0_mono).
  rewrite (LogRRSpec.reference_allocate _ s a HI) in Hrun'.
  destruct (reference_inv0 (λ _, True) (allocate s) a HI0 I)
    as (s2 & r2 & Href2 & HI2 & _).
  rewrite Hrun' in Href2. injection Href2 as <- <-.
  assert (slot (entries_list s') (cursor (allocate s) 10) = a →
          reference s' a = Some (s', MIN_SIZE_BITS)) as Hfront.
  { intros Hslot. apply (reference_hot _ _ _ (cursor (allocate s) 10) HI2).
    - apply HE'. done.
    - pose proof (inv_cur _ _ HI0 10 ltac:(lia)) as Hc.
      change (capacity 10) with (2 ^ 9) in Hc. rewrite MIN_SIZE_eq. lia. }
  pose proof (reference_unfold _ _ _ _ _ HI0 Hrun') as Hcase.
  destruct (entries_map (allocate s) !! a) as [p|] eqn:Hm.
  - pose proof (inv_pos _ _ HI0 a p Hm) as Hpos.
    rewrite MIN_SIZE_eq in Hcase.
    destruct (Z.ltb_spec p (2 ^ 10)) as [Hlt|Hge].
    + destruct Hcase as [-> ->].
      apply (reference_hot _ _ _ p HI0 Hm). by rewrite MIN_SIZE_eq.
    + destruct Hcase as (s1 & it & Hw & Hf & Hr).
      destruct (log2_position p) as [Hlog Hrange]; [rewrite MIN_SIZE_eq; lia|].
      rewrite Hlog in Hw, Hf.
      destruct (Z.eq_dec (Z.log2 p) 10) as [H10|Hne].
      * rewrite H10 in Hw, Hf, Hlog. change (Z.to_nat (10 - 10)) with O in Hw.
        injection Hw as <- <-. unfold finalize in Hf.
        change (10 <? MAX_SIZE_BITS) with true in Hf.
        destruct (vset (entries_list (allocate s)) p a) as [l|] eqn:Hl; [|done].
        injection Hf as <-.
        unfold reference. rewrite (allocate_id _ _ HI2). cbn [entries_map].
        rewrite lookup_insert_eq, MIN_SIZE_eq.
        rewrite (proj2 (Z.ltb_ge _ _) Hge), Hlog.
        change (Z.to_nat (10 - MIN_SIZE_BITS)) with O.
        cbn [walk mbind option_bind]. unfold finalize.
        change (10 <? MAX_SIZE_BITS) with true. cbn [entries_list entries_map
          replace_position].
        unfold vset in Hl |- *. destruct (bool_decide _) eqn:Hb; [|done].
        injection Hl as <-. cbn [vsize vdata]. rewrite Hb.
        cbn [mbind option_bind]. by rewrite !insert_insert_eq.
      * apply Hfront. apply (promote_front _ _ (Z.log2 p) p s1 it); try done; lia.
  - destruct Hcase as (s1 & it & Hw & Hf & Hr).
    apply Hfront. apply (promote_front _ _ 24 MAX_SIZE s1 it); try done; lia.
Qed.

Lemma immediate_repeat_witness :
  ∃ s r s' r', run [5; 9] = Some (s, r) ∧ reference s 7 = Some (s', r') ∧
               reference s' 7 = Some (s', MIN_SIZE_BITS).
Proof.
  apply (immediate_repeat [5; 9] 7).
  - repeat constructor; discriminate.
  - discriminate.
Defined.

(** While at most [2^9] distinct addresses have been referenced, every one
    of them is recorded, at a position below their number, and the cursor
    of pool [10] is their number. *)
Lemma small_inv l :
  Forall (λ b, b ≠ 0) l →
  ∃ s r, run l = Some (s, r) ∧
    (Z.of_nat (size (list_to_set l : gset Z)) ≤ 2 ^ 9 →
     dom (entries_map s) = (list_to_set l : gset Z) ∧
     (∀ a i, entries_map s !! a = Some i →
             0 ≤ i < Z.of_nat (size (list_to_set l : gset Z))) ∧
     (Z.of_nat (size (list_to_set l : gset Z)) < 2 ^ 9 →
      cursor s 10 = Z.of_nat (size (list_to_set l : gset Z)))).
Proof.
  induction l as [|a l IH] using rev_ind; intros Hnz.
  - exists init, 0. split; [done|]. intros _. split; [done|].
    split; [|done]. intros a i Hm. done.
  - apply Forall_app in Hnz as [Hnz Ha]. apply Forall_inv in Ha.
    destruct (IH Hnz) as (s & r & Hrun & HJ).
    destruct (run_Exact l Hnz) as (s0 & r0 & Hrun0 & HR & _ & HE).
    rewrite Hrun in Hrun0. injection Hrun0 as <- <-.
    pose proof HR as [HI _].
    assert (I0 (allocate s)) as HI0 by (by eapply Inv0_mono).
    destruct (reference_inv0 (λ _, True) (allocate s) a HI0 I)
      as (s' & r' & Href & HI' & _).
    exists s', r'. split.
    { rewrite run_snoc, Hrun. cbn [step mbind option_bind fst].
      by rewrite (LogRRSpec.reference_allocate _ s a HI). }
    rewrite list_to_set_snoc_L.
    destruct (decide (a ∈ l)) as [Hin|Hout].
    + assert ((list_to_set l : gset Z) ∪ {[a]} = list_to_set l) as ->.
      { apply set_eq. intros x.
        rewrite elem_of_union, elem_of_singleton, elem_of_list_to_set.
        split; [|by left]. by intros [?| ->]. }
      intros HD. destruct (HJ HD) as (Hdom & Hpos & Hcur).
      assert (is_Some (entries_map s !! a)) as [i Hi].
      { apply elem_of_dom. rewrite Hdom. by apply elem_of_list_to_set. }
      pose proof (Hpos a i Hi) as Hlt.
      assert (allocate s = s) as Hal by (by eapply allocated).
      rewrite Hal in *.
      rewrite (reference_hot _ s a i HI0 Hi) in Href
        by (rewrite MIN_SIZE_eq; lia).
      injection Href as <- <-. done.
    + assert ((list_to_set l : gset Z) ## {[a]}) as Hdisj.
      { apply disjoint_singleton_r. by rewrite elem_of_list_to_set. }
      rewrite (size_union _ _ Hdisj), size_singleton.
      intros HD. destruct HJ as (Hdom & Hpos & Hcur); [lia|].
      specialize (Hcur ltac:(lia)).
      assert (entries_map s !! a = None) as Hm.
      { apply not_elem_of_dom. rewrite Hdom. by rewrite elem_of_list_to_set. }
      pose proof (reference_unfold _ _ _ _ _ HI0 Href) as Hcase.
      rewrite map_allocate, Hm in Hcase.
      destruct Hcase as (s1 & it & Hw & Hf & _).
      destruct (walk_step (λ _, True) 10 (allocate s) a)
        as (l1 & Hl1 & _ & _ & Heq); [lia|done..|].
      rewrite Heq in Hw. clear Heq.
      rewrite LogRRSpec.cursor_allocate, (slot_allocate _ _ _ HR) in Hw.
      change (base 10) with 0 in Hw. rewrite Z.add_0_l in Hw.
      assert (slot (entries_list s) (cursor s 10) = 0) as He.
      { destruct (Z.eq_dec (slot (entries_list s) (cursor s 10)) 0)
          as [|Hne]; [done|].
        exfalso.
        assert (entries_map s !! slot (entries_list s) (cursor s 10)
                = Some (cursor s 10)) as Hk by (by apply HE).
        apply Hpos in Hk. lia. }
      rewrite He in Hw. change (0 =? 0) with true in Hw. cbv iota in Hw.
      injection Hw as <- <-.
      unfold finalize in Hf. change (24 <? MAX_SIZE_BITS) with false in Hf.
      change (negb (0 =? 0)) with false in Hf. cbv iota in Hf.
      injection Hf as <-. cbn [entries_map].
      rewrite map_allocate, positions_allocate.
      split; [|split].
      * rewrite dom_insert_L, Hdom. apply set_eq. intros x.
        rewrite !elem_of_union. tauto.
      * intros b i Hb. apply lookup_insert_Some in Hb as [[_ <-]|[_ Hb]].
        -- rewrite Hcur. lia.
        -- apply Hpos in Hb. lia.
      * intros Hlt.
        rewrite (cursor_insert s _ _ 10 _ 10);
          [|rewrite <- positions_allocate, (inv_len _ _ HI0); lia|lia|lia].
        rewrite decide_True by done. change (capacity 10) with (2 ^ 9).
        rewrite Hcur. rewrite Z.mod_small by lia. lia.
Qed.

(** X19. A working set of at most [2^9] non-zero addresses stays in pool
    [10]: every address referenced so far is recorded at a position below
    [2^9], none has been dropped, a reference to one of them returns
    [MIN_SIZE_BITS] and changes nothing, and a reference to a new address
    returns [MAX_SIZE_BITS]. *)
Theorem small_working_set history a :
  Forall (λ b, b ≠ 0) history → a ≠ 0 →
  Z.of_nat (size (list_to_set (history ++ [a]) : gset Z)) ≤ 2 ^ 9 →
  ∃ s r s' r', run history = Some (s, r) ∧ reference s a = Some (s', r') ∧
    (a ∈ history → r' = MIN_SIZE_BITS ∧ s' = s) ∧
    (a ∉ history → r' = MAX_SIZE_BITS) ∧
    dom (entries_map s') = (list_to_set (history ++ [a]) : gset Z) ∧
    (∀ b i, entries_map s' !! b = Some i → 0 ≤ i < 2 ^ 9).
Proof.
  intros Hnz Ha HD.
  destruct (small_inv (history ++ [a])) as (s' & r' & Hrun' & HJ').
  { apply Forall_app. split; [done|]. by constructor. }
  destruct (small_inv history Hnz) as (s & r & Hrun & HJ).
  destruct (run_Reach0 history) as (s0 & r0 & Hrun0 & HR).
  rewrite Hrun in Hrun0. injection Hrun0 as <- <-. pose proof HR as [HI _].
  rewrite run_snoc, Hrun in Hrun'. cbn [step mbind option_bind fst] in Hrun'.
  exists s, r, s', r'. split; [done|]. split; [done|].
  assert (Z.of_nat (size (list_to_set history : gset Z)) ≤ 2 ^ 9) as HD0.
  { etrans; [|exact HD]. apply Nat2Z.inj_le. apply subseteq_size.
    intros x. rewrite !elem_of_list_to_set, elem_of_app. by left. }
  destruct (HJ HD0) as (Hdom & Hpos & _).
  destruct (HJ' HD) as (Hdom' & Hpos' & _).
  assert (I0 (allocate s)) as HI0 by (by eapply Inv0_mono).
  rewrite (LogRRSpec.reference_allocate _ s a HI) in Hrun'.
  split; [|split; [|split; [done|]]].
  - intros Hin.
    assert (is_Some (entries_map s !! a)) as [i Hi].
    { apply elem_of_dom. rewrite Hdom. by apply elem_of_list_to_set. }
    pose proof (Hpos a i Hi) as Hlt.
    assert (allocate s = s) as Hal by (by eapply allocated).
    rewrite Hal in *.
    rewrite (reference_hot _ s a i HI0 Hi) in Hrun'
      by (rewrite MIN_SIZE_eq; lia).
    by injection Hrun' as <- <-.
  - intros Hout.
    destruct (reference_inv0 (λ _, True) (allocate s) a HI0 I)
      as (s2 & r2 & Href & _ & _ & Hmiss & _).
    rewrite Hrun' in Href. injection Href as <- <-. apply Hmiss.
    rewrite map_allocate. apply not_elem_of_dom. rewrite Hdom.
    by rewrite elem_of_list_to_set.
  - intros b i Hb. apply Hpos' in Hb. lia.
Qed.

Lemma small_working_set_witness :
  ∃ s r s' r', run [5; 9; 5] = Some (s, r) ∧ reference s 9 = Some (s', r') ∧
               r' = MIN_SIZE_BITS ∧ s' = s.
Proof.
  destruct (small_working_set [5; 9; 5] 9)
    as (s & r & s' & r' & Hrun & Href & Hhit & _).
  - repeat constructor; discriminate.
  - discriminate.
  - apply Z.leb_le. vm_compute. reflexivity.
  - exists s, r, s', r'. split; [exact Hrun|]. split; [exact Href|].
    apply Hhit. apply (bool_decide_unpack (9 ∈ [5; 9; 5])). vm_compute. exact I.
Defined.

(** The loop only adds entries to the position map, and every value it
    leaves in a slot or carries out was carried in or was in a slot. *)
Lemma walk_keys K n : ∀ bin s item s' item',
  10 ≤ bin → bin + Z.of_nat n ≤ 24 → Inv0 K s → K item →
  walk n bin s item = Some (s', item') →
  ∀ k, is_Some (entries_map s !! k) → is_Some (entries_map s' !! k).
Proof.
  induction n as [|n IH]; intros bin s item s' item' Hb Hn HI HK Hw k Hk.
  - by injection Hw as <- <-.
  - destruct (walk_step K bin s item) as (l & Hl & HI' & HKe & Heq);
      [lia|done..|].
    rewrite Heq in Hw.
    assert (is_Some (<[item := base bin + cursor s bin]> (entries_map s) !! k))
      as Hk1 by (apply lookup_insert_is_Some'; by right).
    destruct (Z.eqb_spec (slot (entries_list s) (base bin + cursor s bin)) 0)
      as [He|He].
    + by injection Hw as <- <-.
    + by apply (IH (bin + 1) _ _ _ _ ltac:(lia) ltac:(lia) HI' (HKe He) Hw).
Qed.

Lemma walk_values K n : ∀ bin s item s' item',
  10 ≤ bin → bin + Z.of_nat n ≤ 24 → Inv0 K s → K item →
  walk n bin s item = Some (s', item') →
  (∀ i, slot (entries_list s') i = item ∨
        ∃ j, slot (entries_list s') i = slot (entries_list s) j) ∧
  (item' = item ∨ ∃ j, item' = slot (entries_list s) j).
Proof.
  induction n as [|n IH]; intros bin s item s' item' Hb Hn HI HK Hw.
  - injection Hw as <- <-. split; [|by left]. intros i. right. by exists i.
  - destruct (walk_step K bin s item) as (l & Hl & HI' & HKe & Heq);
      [lia|done..|].
    rewrite Heq in Hw.
    assert (∀ i, slot l i = item ∨ ∃ j, slot l i = slot (entries_list s) j)
      as Hl1.
    { intros i. rewrite (slot_vset _ _ _ _ i Hl).
      destruct (decide _); [by left|right; by exists i]. }
    destruct (Z.eqb_spec (slot (entries_list s) (base bin + cursor s bin)) 0)
      as [He|He].
    + injection Hw as <- <-. split; [done|]. right. by eexists.
    + destruct (IH (bin + 1) _ _ _ _ ltac:(lia) ltac:(lia) HI' (HKe He) Hw)
        as [Hs Hi].
      cbn [entries_list] in Hs, Hi. split.
      * intros i. destruct (Hs i) as [->|[j ->]]; [right; by eexists|done].
      * destruct Hi as [->|[j ->]]; [right; by eexists|done].
Qed.

(** X20. A reference to a recorded address drops no address and records
    no new one: the recorded addresses are the same before and after. A
    reference to an address that is not recorded records it, and records no
    other address. *)
Theorem hit_keeps_addresses history a :
  Forall (λ b, b ≠ 0) history → a ≠ 0 →
  ∃ s r s' r', run history = Some (s, r) ∧ reference s a = Some (s', r') ∧
    a ∈ dom (entries_map s') ∧
    dom (entries_map s') ⊆ {[a]} ∪ dom (entries_map s) ∧
    (a ∈ dom (entries_map s) → dom (entries_map s') = dom (entries_map s)).
Proof.
  intros Hnz Ha.
  destruct (run_Exact (history ++ [a])) as (s' & r' & Hrun' & _ & _ & HE').
  { apply Forall_app. split; [done|]. by constructor. }
  destruct (run_Exact history Hnz) as (s & r & Hrun & HR & _ & HE).
  pose proof HR as [HI _].
  rewrite run_snoc, Hrun in Hrun'. cbn [step mbind option_bind fst] in Hrun'.
  exists s, r, s', r'. split; [done|]. split; [done|].
  assert (I0 (allocate s)) as HI0 by (by eapply Inv0_mono).
  rewrite (LogRRSpec.reference_allocate _ s a HI) in Hrun'.
  pose proof (reference_unfold _ _ _ _ _ HI0 Hrun') as Hcase.
  rewrite map_allocate in Hcase.
  assert (∀ s1 it p L,
            walk (Z.to_nat (L - 10)) 10 (allocate s) a = Some (s1, it) →
            10 ≤ L ≤ 24 → finalize s1 it p L = Some s' →
            dom (entries_map s') ⊆ {[a]} ∪ dom (entries_map s)) as Hsub.
  { intros s1 it p L Hw HL Hf k Hk. apply elem_of_dom in Hk as [i Hi].
    apply HE' in Hi as [Hk0 Hsl].
    destruct (walk_values (λ _, True) (Z.to_nat (L - 10)) 10 _ _ _ _
                ltac:(lia) ltac:(lia) HI0 I Hw) as [Hvs Hvi].
    assert (k = a ∨ ∃ j, k = slot (entries_list (allocate s)) j) as [->|[j Hj]].
    { unfold finalize in Hf. destruct (L <? MAX_SIZE_BITS).
      - destruct (vset (entries_list s1) p it) as [l2|] eqn:Hl2; [|done].
        injection Hf as <-. cbn [entries_list] in Hsl.
        rewrite (slot_vset _ _ _ _ i Hl2) in Hsl.
        destruct (decide _); subst k; [done|apply Hvs].
      - assert (entries_list s' = entries_list s1) as Heq
          by (destruct (negb _); by injection Hf as <-).
        rewrite Heq in Hsl. subst k. apply Hvs. }
    - apply elem_of_union. left. by apply elem_of_singleton.
    - rewrite (slot_allocate _ _ _ HR) in Hj.
      apply elem_of_union. right. apply elem_of_dom. exists j.
      apply HE. split; [done|]. by rewrite <- Hj. }
  destruct (entries_map s !! a) as [p|] eqn:Hm.
  - assert (allocate s = s) as Hal by (by eapply allocated).
    rewrite Hal in *.
    pose proof (inv_pos _ _ HI0 a p Hm) as Hpos.
    assert (a ∈ dom (entries_map s)) as Hin by (apply elem_of_dom; by eexists).
    rewrite MIN_SIZE_eq in Hcase.
    destruct (Z.ltb_spec p (2 ^ 10)) as [Hlt|Hge].
    + destruct Hcase as [-> _]. split; [done|]. split; [|done].
      apply union_subseteq_r.
    + destruct Hcase as (s1 & it & Hw & Hf & _).
      destruct (log2_position p) as [Hlog Hrange]; [rewrite MIN_SIZE_eq; lia|].
      rewrite Hlog in Hw, Hf.
      pose proof (Hsub s1 it p (Z.log2 p) Hw ltac:(lia) Hf) as Hsub'.
      assert (dom (entries_map s) ⊆ dom (entries_map s')) as Hsup.
      { intros k Hk. apply elem_of_dom in Hk. apply elem_of_dom.
        pose proof (walk_keys (λ _, True) (Z.to_nat (Z.log2 p - 10)) 10 _ _ _ _
                      ltac:(lia) ltac:(lia) HI0 I Hw k Hk) as Hk1.
        unfold finalize in Hf.
        rewrite (proj2 (Z.ltb_lt (Z.log2 p) MAX_SIZE_BITS)) in Hf
          by (unfold MAX_SIZE_BITS; lia).
        destruct (vset (entries_list s1) p it) as [l2|]; [|done].
        injection Hf as <-. cbn [entries_map].
        apply lookup_insert_is_Some'. by right. }
      split; [by apply Hsup|]. split; [done|]. intros _.
      apply set_eq. intros k. split; [|apply Hsup].
      intros Hk. apply Hsub' in Hk.
      apply elem_of_union in Hk as [Hk|Hk]; [|done].
      apply elem_of_singleton in Hk. by subst k.
  - destruct Hcase as (s1 & it & Hw & Hf & _).
    split; [|split].
    + apply elem_of_dom. exists (cursor (allocate s) 10). apply HE'.
      split; [done|].
      apply (promote_front _ _ 24 MAX_SIZE s1 it); try done; lia.
    + apply (Hsub s1 it MAX_SIZE 24); [done|lia|done].
    + intros Hin. apply elem_of_dom in Hin as [? Hin]. congruence.
Qed.

Lemma hit_keeps_addresses_witness :
  ∃ s r s' r', run [5; 9] = Some (s, r) ∧ reference s 5 = Some (s', r') ∧
               5 ∈ dom (entries_map s').
Proof.
  destruct (hit_keeps_addresses [5; 9] 5)
    as (s & r & s' & r' & Hrun & Href & Hin & _).
  - repeat constructor; discriminate.
  - discriminate.
  - exists s, r, s', r'. split; [exact Hrun|]. split; [exact Href|exact Hin].
Defined.

Lemma not_resident_zero v : 0 ∉ residents v.
Proof.
  unfold residents. rewrite elem_of_map_img. intros [i Hi].
  apply map_lookup_filter_Some in Hi as [_ Hi]. done.
Qed.

(** The key [0] is never erased by a call of [reference], and a call on
    the address [0] records it. *)
Lemma reference_zero_key s a s' r :
  I0 s → reference s a = Some (s', r) →
  is_Some (entries_map s !! 0) ∨ a = 0 → is_Some (entries_map s' !! 0).
Proof.
  intros HI Href Hz.
  assert (∀ n s1 it, (0 < n)%nat ∨ is_Some (entries_map s !! 0) →
            10 + Z.of_nat n ≤ 24 →
            walk n 10 s a = Some (s1, it) → is_Some (entries_map s1 !! 0))
    as Hwalk.
  { intros n s1 it Hn Hle Hw. destruct Hz as [Hz| ->].
    - by apply (walk_keys (λ _, True) n 10 s a s1 it ltac:(lia) Hle HI I Hw).
    - destruct Hn as [Hn|Hn].
      + destruct n as [|n]; [lia|].
        destruct (walk_step (λ _, True) 10 s 0) as (l & Hl & HI' & HKe & Heq);
          [lia|done..|].
        rewrite Heq in Hw.
        destruct (Z.eqb_spec (slot (entries_list s) (base 10 + cursor s 10)) 0)
          as [He|He].
        * injection Hw as <- <-. cbn [entries_map]. rewrite lookup_insert_eq.
          by eexists.
        * apply (walk_keys (λ _, True) n (10 + 1) _ _ s1 it ltac:(lia)
                   ltac:(lia) HI' (HKe He) Hw).
          cbn [entries_map]. rewrite lookup_insert_eq. by eexists.
      + by apply (walk_keys (λ _, True) n 10 s 0 s1 it ltac:(lia) Hle HI I Hw). }
  assert (∀ s1 it p L, is_Some (entries_map s1 !! 0) →
            finalize s1 it p L = Some s' → is_Some (entries_map s' !! 0))
    as Hfin.
  { intros s1 it p L Hs1 Hf. unfold finalize in Hf.
    destruct (L <? MAX_SIZE_BITS).
    - destruct (vset (entries_list s1) p it); [|done]. injection Hf as <-.
      cbn [entries_map]. apply lookup_insert_is_Some'. by right.
    - destruct (Z.eqb_spec it 0) as [->|Hne]; cbn [negb] in Hf;
        injection Hf as <-; [done|].
      cbn [entries_map]. by rewrite lookup_delete_ne. }
  pose proof (reference_unfold _ _ _ _ _ HI Href) as Hcase.
  destruct (entries_map s !! a) as [p|] eqn:Hm.
  - assert (is_Some (entries_map s !! 0)) as Hz0.
    { destruct Hz as [?| ->]; [done|]. by eexists. }
    pose proof (inv_pos _ _ HI a p Hm) as Hpos. rewrite MIN_SIZE_eq in Hcase.
    destruct (Z.ltb_spec p (2 ^ 10)) as [Hlt|Hge].
    + by destruct Hcase as [-> _].
    + destruct Hcase as (s1 & it & Hw & Hf & _).
      destruct (log2_position p) as [Hlog Hrange]; [rewrite MIN_SIZE_eq; lia|].
      rewrite Hlog in Hw.
      apply (Hfin s1 it p (int_log2 p)); [|done].
      apply (Hwalk (Z.to_nat (Z.log2 p - 10)) s1 it); [by right|lia|done].
  - destruct Hcase as (s1 & it & Hw & Hf & _).
    apply (Hfin s1 it MAX_SIZE 24); [|done].
    apply (Hwalk 14%nat s1 it); [left; lia|lia|done].
Qed.

(** X21. The value [0] marks an empty slot, so the address [0] is not
    tracked like the others: once it has been referenced it stays a key
    of the position map for ever, and it is never among the addresses
    resident in the slots; the position map and the slots then disagree. *)
Theorem zero_stays_recorded history :
  0 ∈ history →
  ∃ s r, run history = Some (s, r) ∧
    0 ∈ dom (entries_map s) ∧ (0 ∉ residents (entries_list s)) ∧
    dom (entries_map s) ≠ residents (entries_list s).
Proof.
  intros Hin.
  assert (∃ s r, run history = Some (s, r) ∧ is_Some (entries_map s !! 0))
    as (s & r & Hrun & Hz).
  { induction history as [|a l IH] using rev_ind.
    - by apply elem_of_nil in Hin.
    - destruct (run_Reach0 l) as (s0 & r0 & Hrun0 & [HI0 _]).
      assert (I0 (allocate s0)) as HI by (by eapply Inv0_mono).
      destruct (reference_inv0 (λ _, True) (allocate s0) a HI I)
        as (s1 & r1 & Href & _).
      exists s1, r1. split.
      { rewrite run_snoc, Hrun0. cbn [step mbind option_bind fst].
        by rewrite (LogRRSpec.reference_allocate _ s0 a HI0). }
      apply (reference_zero_key _ _ _ _ HI Href).
      apply elem_of_app in Hin as [Hin|Hin].
      + left. destruct (IH Hin) as (s2 & r2 & Hrun2 & Hz2).
        rewrite Hrun0 in Hrun2. injection Hrun2 as <- <-.
        by rewrite map_allocate.
      + right. apply list_elem_of_singleton in Hin. done. }
  exists s, r. split; [done|].
  assert (0 ∈ dom (entries_map s)) as Hd by (by apply elem_of_dom).
  pose proof (not_resident_zero (entries_list s)) as Hr.
  split; [done|]. split; [done|]. intros Heq. rewrite Heq in Hd. done.
Qed.

Lemma zero_stays_recorded_witness :
  ∃ s r, run [5; 0; 9] = Some (s, r) ∧ 0 ∈ dom (entries_map s).
Proof.
  destruct (zero_stays_recorded [5; 0; 9]) as (s & r & Hrun & Hd & _).
  - apply (bool_decide_unpack (0 ∈ [5; 0; 9])). vm_compute. exact I.
  - exists s, r. split; [exact Hrun|exact Hd].
Defined.

End LogRRProps.
